(** * smart-load: the load optimizer, embedded and verified

    A shallow embedding of the Go packages [internal/domain] (models and
    constraint checkers), [internal/algorithm] (the four optimizers) and
    [internal/service] (objective weights and the Pareto layer), followed by
    the properties the specification states about them and by further
    properties of the code.

    Conventions of the embedding.
    - Go's [int], [int64] and [domain.Money] are 64-bit two's complement
      integers: they are values of [Z], and every addition of the source is
      [add64], the sum reduced into the signed 64-bit range.
    - Subset masks of the bitmask solver are non-negative; they are values of
      [nat] with [Nat.land], [Nat.lor] and [Nat.shiftl], and index the tables
      directly.  Memory is not modelled: the tables are lists of [2^n]
      entries for every [n] up to 62.  From 63 orders on [1 << n] is no
      valid slice length and the Go code panics: [Optimize] returns [None].
      The Go runtime refuses tables of that size earlier still (from 46
      orders on a 64-bit machine), so a result of the bitmask solver is
      asserted below only for at most 22 orders, the cap of the input
      contract; beyond it the properties are stated of the result, if any.
      The mask of [domain.State] is the [int] it is declared as, a value of
      [Z], and [1 << i] on it is [shl1].
    - A Go map is a [gmap]; a call that can panic returns an [option].
    - [float64] is the kernel's binary64 ([PrimFloat]), so that the density
      ranking, the scalarized payouts, the utilization percentages and the
      day difference of the strict checker are computed as the machine
      computes them (without fused multiply-add, as on amd64).
    - [time.Time] is an instant counted in nanoseconds; [Sub] saturates at the
      bounds of [time.Duration] and [Hours] splits hours from nanoseconds, as
      the Go library does.
    - [ComputeTimeMs] is a wall clock measurement and is left out of
      [OptimizationResult]; log lines are left out as well. *)

From Stdlib Require Import ZArith List String Ascii Bool Lia.
From Stdlib Require Import PrimFloat FloatOps FloatAxioms SpecFloat Uint63.
From stdpp Require Import base list gmap strings.

Set Warnings "-inexact-float".
Local Open Scope Z_scope.

(** ** Machine numbers *)

Module numeric.

Definition min_int64 : Z := - 2 ^ 63.
Definition max_int64 : Z := 2 ^ 63 - 1.

Definition wrap64 (z : Z) : Z := (z + 2 ^ 63) mod 2 ^ 64 - 2 ^ 63.

Definition add64 (a b : Z) : Z := wrap64 (a + b).

(** [float64(x)] for an integer [x]: the nearest binary64. *)
Definition float64_of_int (z : Z) : float :=
  if z =? min_int64 then (-9223372036854775808)%float
  else if z <? 0 then PrimFloat.opp (PrimFloat.of_uint63 (Uint63.of_Z (- z)))
  else PrimFloat.of_uint63 (Uint63.of_Z z).

(** [int64(f)] for a float [f]: truncation toward zero.  For NaN, the
    infinities and values out of range Go leaves the result to the
    implementation; amd64 yields the least [int64], as here. *)
Definition int_of_float64 (f : float) : Z :=
  match Prim2SF f with
  | S754_zero _ => 0
  | S754_finite s m e =>
      let mag := if 0 <=? e then Z.shiftl (Zpos m) e else Z.shiftr (Zpos m) (- e) in
      let v := if s then - mag else mag in
      if (v <? min_int64) || (max_int64 <? v) then min_int64 else v
  | _ => min_int64
  end.

End numeric.
Import numeric.

(** ** Package domain: models.go *)

Module domain.

Definition Money : Type := Z.

Definition Money_Add (m other : Money) : Money := add64 m other.
Definition Money_GreaterThan (m other : Money) : bool := m >? other.

(** [time.Time] and [time.Duration], both in nanoseconds. *)
Definition Time : Type := Z.
Definition Duration : Type := Z.
Definition Hour : Duration := 3600000000000.

Definition Time_Sub (t u : Time) : Duration :=
  let d := t - u in
  if d <? min_int64 then min_int64
  else if max_int64 <? d then max_int64
  else d.

Definition Duration_Hours (d : Duration) : float :=
  let hour := Z.quot d Hour in
  let nsec := Z.rem d Hour in
  (float64_of_int hour + float64_of_int nsec / 3600000000000)%float.

Record Truck : Type := {
  Truck_ID : string;
  MaxWeightLbs : Z;
  MaxVolumeCuft : Z
}.

Record Order : Type := {
  ID : string;
  Payout : Money;
  WeightLbs : Z;
  VolumeCuft : Z;
  Origin : string;
  Destination : string;
  PickupDate : Time;
  DeliveryDate : Time;
  IsHazmat : bool
}.

(** The zero value of [Order]: what an index expression would read from a
    freshly made slice. *)
Definition Order_zero : Order :=
  {| ID := ""; Payout := 0; WeightLbs := 0; VolumeCuft := 0; Origin := "";
     Destination := ""; PickupDate := 0; DeliveryDate := 0; IsHazmat := false |}.

#[export] Instance Order_inhabited : Inhabited Order := populate Order_zero.

Definition set_Payout (o : Order) (p : Money) : Order :=
  {| ID := ID o; Payout := p; WeightLbs := WeightLbs o; VolumeCuft := VolumeCuft o;
     Origin := Origin o; Destination := Destination o; PickupDate := PickupDate o;
     DeliveryDate := DeliveryDate o; IsHazmat := IsHazmat o |}.

Definition FitsIn (o : Order) (availableWeight availableVolume : Z) : bool :=
  (WeightLbs o <=? availableWeight) && (VolumeCuft o <=? availableVolume).

(** [fmt.Sprintf("%s->%s", o.Origin, o.Destination)] *)
Definition Route (o : Order) : string :=
  (Origin o ++ "->" ++ Destination o)%string.

Record OptimizationConfig : Type := {
  Objective : string;
  RevenueWeight : float;
  UtilizationWeight : float;
  Algorithm : string
}.

Record OptimizeResponse : Type := {
  TruckID : string;
  SelectedOrderIDs : list string;
  TotalPayoutCents : Z;
  TotalWeightLbs : Z;
  TotalVolumeCuft : Z;
  UtilizationWeightPercent : float;
  UtilizationVolumePercent : float
}.

(** [1 << orderIndex] on an [int]: a negative count panics ([None]), a count
    of 64 or more shifts the bit out, and a count of 63 gives the sign bit. *)
Definition shl1 (orderIndex : Z) : option Z :=
  if orderIndex <? 0 then None else Some (wrap64 (Z.shiftl 1 orderIndex)).

(** [State]; its numeric fields carry the prefix [State_], the names
    [Payout], [WeightLbs] and [VolumeCuft] being those of [Order]. *)
Record State : Type := {
  Mask : Z;
  State_Payout : Money;
  State_WeightLbs : Z;
  State_VolumeCuft : Z;
  Valid : bool
}.

Definition NewState : State :=
  {| Mask := 0; State_Payout := 0; State_WeightLbs := 0; State_VolumeCuft := 0;
     Valid := true |}.

Definition State_AddOrder (s : State) (order : Order) (orderIndex : Z) : option State :=
  match shl1 orderIndex with
  | None => None
  | Some bit =>
      Some {| Mask := Z.lor (Mask s) bit;
              State_Payout := Money_Add (State_Payout s) (Payout order);
              State_WeightLbs := add64 (State_WeightLbs s) (WeightLbs order);
              State_VolumeCuft := add64 (State_VolumeCuft s) (VolumeCuft order);
              Valid := true |}
  end.

Definition State_IsBetterThan (s other : State) : bool :=
  Money_GreaterThan (State_Payout s) (State_Payout other).

Definition State_HasOrder (s : State) (orderIndex : Z) : option bool :=
  match shl1 orderIndex with
  | None => None
  | Some bit => Some (negb (Z.land (Mask s) bit =? 0))
  end.

(** ** Package domain: constraints.go *)

(** The interface [ConstraintChecker]. *)
Record ConstraintChecker : Type := {
  CanCombine : Order -> Order -> bool;
  CanFit : Truck -> Z -> Z -> Order -> bool;
  ValidateOrderSet : list Order -> bool
}.

Module DefaultConstraintChecker.

Definition timeWindowsCompatible (order1 order2 : Order) : bool := true.

Definition CanCombine (order1 order2 : Order) : bool :=
  if negb (String.eqb (Route order1) (Route order2)) then false
  else if negb (Bool.eqb (IsHazmat order1) (IsHazmat order2)) then false
  else if negb (timeWindowsCompatible order1 order2) then false
  else true.

Definition CanFit (truck : Truck) (currentWeight currentVolume : Z) (order : Order) : bool :=
  let newWeight := add64 currentWeight (WeightLbs order) in
  let newVolume := add64 currentVolume (VolumeCuft order) in
  (newWeight <=? MaxWeightLbs truck) && (newVolume <=? MaxVolumeCuft truck).

(** The loops over [i] and [j > i]: the first pair that cannot be combined
    ends them with [false]. *)
Fixpoint ValidateOrderSet_from (orders : list Order) : bool :=
  match orders with
  | [] => true
  | oi :: rest => forallb (fun oj => CanCombine oi oj) rest && ValidateOrderSet_from rest
  end.

Definition ValidateOrderSet (orders : list Order) : bool :=
  if (length orders =? 0)%nat then true else ValidateOrderSet_from orders.

End DefaultConstraintChecker.

Definition NewConstraintChecker : ConstraintChecker :=
  {| CanCombine := DefaultConstraintChecker.CanCombine;
     CanFit := DefaultConstraintChecker.CanFit;
     ValidateOrderSet := DefaultConstraintChecker.ValidateOrderSet |}.

Definition FilterFeasibleOrders (truck : Truck) (orders : list Order) : list Order :=
  List.filter
    (fun order => negb ((WeightLbs order >? MaxWeightLbs truck)
                        || (VolumeCuft order >? MaxVolumeCuft truck)))
    orders.

Definition SeparateHazmatOrders (orders : list Order) : list Order * list Order :=
  (List.filter (fun o => IsHazmat o) orders, List.filter (fun o => negb (IsHazmat o)) orders).

(** [groups[route] = append(groups[route], order)]: a route that is not yet a
    key reads as the nil slice. *)
Definition GroupOrdersByRoute (orders : list Order) : gmap string (list Order) :=
  fold_left
    (fun groups order =>
       let route := Route order in
       <[route := default [] (groups !! route) ++ [order]]> groups)
    orders ∅.

Module StrictConstraintChecker.

Definition CanCombine (order1 order2 : Order) : bool :=
  if negb (DefaultConstraintChecker.CanCombine order1 order2) then false
  else
    let daysDiff := (Duration_Hours (Time_Sub (PickupDate order1) (PickupDate order2)) / 24)%float in
    let daysDiff := if (daysDiff <? 0)%float then (- daysDiff)%float else daysDiff in
    (daysDiff <=? 1)%float.

End StrictConstraintChecker.

(** The strict checker embeds the default one: [CanFit] and
    [ValidateOrderSet] are the promoted methods of the embedded value. *)
Definition StrictChecker : ConstraintChecker :=
  {| CanCombine := StrictConstraintChecker.CanCombine;
     CanFit := DefaultConstraintChecker.CanFit;
     ValidateOrderSet := DefaultConstraintChecker.ValidateOrderSet |}.

End domain.
Import domain.

(** ** Package algorithm: optimizer.go *)

Module algorithm.

Record OptimizationResult : Type := {
  SelectedOrders : list Order;
  TotalPayout : Money;
  TotalWeight : Z;
  TotalVolume : Z
}.

Definition emptyResult : OptimizationResult :=
  {| SelectedOrders := []; TotalPayout := 0; TotalWeight := 0; TotalVolume := 0 |}.

(** The interface [Optimizer]; [None] stands for a call that panics. *)
Definition Optimizer : Type := Truck -> list Order -> option OptimizationResult.

(** *** DPOptimizer *)

(** The [cache] field is made by the constructor and never read. *)
Record DPOptimizer : Type := { dp_checker : ConstraintChecker }.

Definition NewDPOptimizer : DPOptimizer := {| dp_checker := NewConstraintChecker |}.

(** The four flat tables indexed by subset mask. *)
Record DPTables : Type := {
  dpPayout : list Z;
  dpWeight : list Z;
  dpVolume : list Z;
  dpValid : list bool
}.

Definition bit_set (mask i : nat) : bool := negb (Nat.land mask (Nat.shiftl 1 i) =? 0)%nat.

(** The inner loop over [j] that fills [incompatibleMask[i]]. *)
Definition incompatibleRow (dp : DPOptimizer) (orders : list Order) (n i : nat) : nat :=
  fold_left
    (fun acc j =>
       if negb (i =? j)%nat && negb (CanCombine (dp_checker dp) (orders !!! i) (orders !!! j))
       then Nat.lor acc (Nat.shiftl 1 j) else acc)
    (seq 0 n) 0%nat.

Definition incompatibleMasks (dp : DPOptimizer) (orders : list Order) (n : nat) : list nat :=
  map (incompatibleRow dp orders n) (seq 0 n).

(** One turn of the loop over [i] for the state [mask]. *)
Definition dp_relax (truck : Truck) (orders : list Order) (incompatibleMask : list nat)
    (mask : nat) (currentWeight currentVolume : Z) (t : DPTables) (i : nat) : DPTables :=
  if bit_set mask i then t
  else if negb (Nat.land mask (incompatibleMask !!! i) =? 0)%nat then t
  else
    let order := orders !!! i in
    let newWeight := add64 currentWeight (WeightLbs order) in
    let newVolume := add64 currentVolume (VolumeCuft order) in
    if (newWeight >? MaxWeightLbs truck) || (newVolume >? MaxVolumeCuft truck) then t
    else
      let newMask := Nat.lor mask (Nat.shiftl 1 i) in
      let newPayout := add64 (dpPayout t !!! mask) (Payout order) in
      if negb (dpValid t !!! newMask) || (newPayout >? dpPayout t !!! newMask)
      then {| dpPayout := <[newMask := newPayout]> (dpPayout t);
              dpWeight := <[newMask := newWeight]> (dpWeight t);
              dpVolume := <[newMask := newVolume]> (dpVolume t);
              dpValid := <[newMask := true]> (dpValid t) |}
      else t.

(** One turn of the loop over [mask]. *)
Definition dp_visit (truck : Truck) (orders : list Order) (incompatibleMask : list nat)
    (n : nat) (t : DPTables) (mask : nat) : DPTables :=
  if negb (dpValid t !!! mask) then t
  else
    let currentWeight := dpWeight t !!! mask in
    let currentVolume := dpVolume t !!! mask in
    fold_left (dp_relax truck orders incompatibleMask mask currentWeight currentVolume)
      (seq 0 n) t.

Definition dp_init (maxStates : nat) : DPTables :=
  {| dpPayout := replicate maxStates 0;
     dpWeight := replicate maxStates 0;
     dpVolume := replicate maxStates 0;
     dpValid := <[0%nat := true]> (replicate maxStates false) |}.

Definition dp_sweep (truck : Truck) (orders : list Order) (incompatibleMask : list nat)
    (n maxStates : nat) : DPTables :=
  fold_left (dp_visit truck orders incompatibleMask n) (seq 0 maxStates) (dp_init maxStates).

(** The final scan: [(bestPayout, bestMask)]. *)
Definition dp_best (t : DPTables) (maxStates : nat) : Z * nat :=
  fold_left
    (fun best mask =>
       if (dpValid t !!! mask) && (dpPayout t !!! mask >? fst best)
       then (dpPayout t !!! mask, mask) else best)
    (seq 0 maxStates) (0, 0%nat).

Fixpoint extractOrders_from (i : nat) (mask : nat) (orders : list Order) : list Order :=
  match orders with
  | [] => []
  | o :: rest =>
      if bit_set mask i then o :: extractOrders_from (S i) mask rest
      else extractOrders_from (S i) mask rest
  end.

Definition extractOrders (mask : nat) (orders : list Order) : list Order :=
  extractOrders_from 0 mask orders.

(** The loop of [isCompatibleWithState] over the positions [js]: the first
    order of the state that cannot be combined ends it with [false].  The
    mask is a subset mask as in [Optimize], a non-negative [int]. *)
Fixpoint isCompatible_from (dp : DPOptimizer) (mask : nat) (newOrder : Order)
    (orders : list Order) (js : list nat) : bool :=
  match js with
  | [] => true
  | j :: js' =>
      if bit_set mask j then
        if negb (CanCombine (dp_checker dp) newOrder (orders !!! j)) then false
        else isCompatible_from dp mask newOrder orders js'
      else isCompatible_from dp mask newOrder orders js'
  end.

(** [orders[orderIndex]] panics out of range: [None]. *)
Definition isCompatibleWithState (dp : DPOptimizer) (mask orderIndex : nat)
    (orders : list Order) : option bool :=
  match orders !! orderIndex with
  | None => None
  | Some newOrder => Some (isCompatible_from dp mask newOrder orders (seq 0 (length orders)))
  end.

Definition DPOptimizer_Optimize (dp : DPOptimizer) (truck : Truck) (orders : list Order)
    : option OptimizationResult :=
  if (length orders =? 0)%nat then Some emptyResult
  else
    let orders := FilterFeasibleOrders truck orders in
    if (length orders =? 0)%nat then Some emptyResult
    else
      let n := length orders in
      if (63 <=? n)%nat then None
      else
        let incompatibleMask := incompatibleMasks dp orders n in
        let maxStates := Nat.shiftl 1 n in
        let t := dp_sweep truck orders incompatibleMask n maxStates in
        let '(bestPayout, bestMask) := dp_best t maxStates in
        Some {| SelectedOrders := extractOrders bestMask orders;
                TotalPayout := bestPayout;
                TotalWeight := dpWeight t !!! bestMask;
                TotalVolume := dpVolume t !!! bestMask |}.

(** *** GreedyOptimizer *)

Record GreedyOptimizer : Type := { g_checker : ConstraintChecker }.

Definition NewGreedyOptimizer : GreedyOptimizer := {| g_checker := NewConstraintChecker |}.

Definition density (o : Order) : float :=
  (float64_of_int (Payout o) / float64_of_int (WeightLbs o))%float.

(** [sorted[i], sorted[j] = sorted[j], sorted[i]] *)
Definition swap (sorted : list Order) (i j : nat) : list Order :=
  <[i := sorted !!! j]> (<[j := sorted !!! i]> sorted).

Definition sort_step (i : nat) (sorted : list Order) (j : nat) : list Order :=
  let density_i := density (sorted !!! i) in
  let density_j := density (sorted !!! j) in
  if (density_i <? density_j)%float then swap sorted i j else sorted.

Definition sortByValueDensity (orders : list Order) : list Order :=
  let len := length orders in
  fold_left
    (fun sorted i => fold_left (sort_step i) (seq (i + 1) (len - (i + 1))) sorted)
    (seq 0 (len - 1)) orders.

Definition greedy_step (g : GreedyOptimizer) (truck : Truck)
    (acc : OptimizationResult) (order : Order) : OptimizationResult :=
  if negb (CanFit (g_checker g) truck (TotalWeight acc) (TotalVolume acc) order) then acc
  else
    let compatible :=
      forallb (fun selectedOrder => CanCombine (g_checker g) order selectedOrder)
        (SelectedOrders acc) in
    if compatible
    then {| SelectedOrders := SelectedOrders acc ++ [order];
            TotalPayout := Money_Add (TotalPayout acc) (Payout order);
            TotalWeight := add64 (TotalWeight acc) (WeightLbs order);
            TotalVolume := add64 (TotalVolume acc) (VolumeCuft order) |}
    else acc.

Definition GreedyOptimizer_Optimize (g : GreedyOptimizer) (truck : Truck)
    (orders : list Order) : OptimizationResult :=
  let orders := FilterFeasibleOrders truck orders in
  let sortedOrders := sortByValueDensity orders in
  fold_left (greedy_step g truck) sortedOrders emptyResult.

(** *** BacktrackingOptimizer *)

(** The best solution so far lives in fields of the optimizer; [backtrack]
    takes the optimizer and returns it updated. *)
Record BacktrackingOptimizer : Type := {
  b_checker : ConstraintChecker;
  bestPayout : Money;
  bestOrders : list Order;
  bestWeight : Z;
  bestVolume : Z
}.

Definition NewBacktrackingOptimizer : BacktrackingOptimizer :=
  {| b_checker := NewConstraintChecker; bestPayout := 0; bestOrders := [];
     bestWeight := 0; bestVolume := 0 |}.

Definition update_best (b : BacktrackingOptimizer) (currentOrders : list Order)
    (currentPayout : Money) (currentWeight currentVolume : Z) : BacktrackingOptimizer :=
  if currentPayout >? bestPayout b
  then {| b_checker := b_checker b; bestPayout := currentPayout;
          bestOrders := currentOrders; bestWeight := currentWeight;
          bestVolume := currentVolume |}
  else b.

Definition remainingPayout (rest : list Order) : Money :=
  fold_left (fun r o => add64 r (Payout o)) rest 0.

(** [backtrack] at position [index], with [rest] standing for
    [orders[index:]]: the recursion consumes one order per level. *)
Fixpoint backtrack_from (b : BacktrackingOptimizer) (truck : Truck) (rest : list Order)
    (currentOrders : list Order) (currentPayout : Money) (currentWeight currentVolume : Z)
    {struct rest} : BacktrackingOptimizer :=
  let b := update_best b currentOrders currentPayout currentWeight currentVolume in
  match rest with
  | [] => b
  | order :: rest' =>
      if add64 currentPayout (remainingPayout rest) <=? bestPayout b then b
      else
        let newWeight := add64 currentWeight (WeightLbs order) in
        let newVolume := add64 currentVolume (VolumeCuft order) in
        let canFit := (newWeight <=? MaxWeightLbs truck) && (newVolume <=? MaxVolumeCuft truck) in
        let b :=
          if canFit then
            if forallb (fun selected => CanCombine (b_checker b) order selected) currentOrders
            then backtrack_from b truck rest' (currentOrders ++ [order])
                   (add64 currentPayout (Payout order)) newWeight newVolume
            else b
          else b in
        backtrack_from b truck rest' currentOrders currentPayout currentWeight currentVolume
  end.

Definition backtrack (b : BacktrackingOptimizer) (truck : Truck) (orders : list Order)
    (currentOrders : list Order) (index : nat) (currentPayout : Money)
    (currentWeight currentVolume : Z) : BacktrackingOptimizer :=
  backtrack_from b truck (drop index orders) currentOrders currentPayout
    currentWeight currentVolume.

Definition BacktrackingOptimizer_Optimize (b : BacktrackingOptimizer) (truck : Truck)
    (orders : list Order) : OptimizationResult :=
  let orders := FilterFeasibleOrders truck orders in
  let b := {| b_checker := b_checker b; bestPayout := 0; bestOrders := [];
              bestWeight := 0; bestVolume := 0 |} in
  let b := backtrack b truck orders [] 0 0 0 0 in
  {| SelectedOrders := bestOrders b; TotalPayout := bestPayout b;
     TotalWeight := bestWeight b; TotalVolume := bestVolume b |}.

(** *** HybridOptimizer *)

Record HybridOptimizer : Type := {
  dpOptimizer : DPOptimizer;
  greedyOptimizer : GreedyOptimizer;
  maxDPSize : Z
}.

Definition NewHybridOptimizer : HybridOptimizer :=
  {| dpOptimizer := NewDPOptimizer; greedyOptimizer := NewGreedyOptimizer; maxDPSize := 22 |}.

Definition HybridOptimizer_Optimize (h : HybridOptimizer) (truck : Truck)
    (orders : list Order) : option OptimizationResult :=
  if Z.of_nat (length orders) <=? maxDPSize h
  then DPOptimizer_Optimize (dpOptimizer h) truck orders
  else Some (GreedyOptimizer_Optimize (greedyOptimizer h) truck orders).

End algorithm.
Import algorithm.

(** ** Package domain: request validation (models.go)

    JSON decoding and the parsing of the two date strings belong to the
    transport; the request is taken here with its orders already typed.
    [Validate] keeps the checks on numbers and strings, and the defaults
    that [OptimizationConfig.Validate] writes into the configuration. *)

Module request.

Record OptimizeRequest : Type := {
  Truck_of : Truck;
  Orders : list Order;
  Config : option OptimizationConfig
}.

Definition OptimizationConfig_Validate (c : OptimizationConfig) : option OptimizationConfig :=
  let objective := if String.eqb (Objective c) "" then "revenue"%string else Objective c in
  if negb (String.eqb objective "revenue" || String.eqb objective "utilization"
           || String.eqb objective "balanced") then None
  else if (RevenueWeight c <? 0)%float || (1 <? RevenueWeight c)%float then None
  else if (UtilizationWeight c <? 0)%float || (1 <? UtilizationWeight c)%float then None
  else
    let '(rw, uw) :=
      if (RevenueWeight c =? 0)%float && (UtilizationWeight c =? 0)%float then
        if String.eqb objective "revenue" then (1%float, 0%float)
        else if String.eqb objective "utilization" then (0%float, 1%float)
        else (0.5%float, 0.5%float)
      else (RevenueWeight c, UtilizationWeight c) in
    let algorithm := if String.eqb (Algorithm c) "" then "auto"%string else Algorithm c in
    if negb (String.eqb algorithm "dp" || String.eqb algorithm "backtracking"
             || String.eqb algorithm "greedy" || String.eqb algorithm "auto") then None
    else Some {| Objective := objective; RevenueWeight := rw; UtilizationWeight := uw;
                 Algorithm := algorithm |}.

Definition Order_Validate (o : Order) : bool :=
  negb (String.eqb (ID o) "")
  && (0 <? Payout o) && (Payout o <=? 100000000000)
  && (0 <? WeightLbs o) && (WeightLbs o <=? 1000000)
  && (0 <? VolumeCuft o) && (VolumeCuft o <=? 100000)
  && negb (String.eqb (Origin o) "") && negb (String.eqb (Destination o) "")
  && (String.length (Origin o) <=? 200)%nat && (String.length (Destination o) <=? 200)%nat
  && (String.length (ID o) <=? 100)%nat
  && (PickupDate o <=? DeliveryDate o).

(** The loop over the orders with its [seenIDs] map. *)
Fixpoint Orders_Validate (seenIDs : gset string) (orders : list Order) : bool :=
  match orders with
  | [] => true
  | order :: rest =>
      if bool_decide (ID order ∈ seenIDs) then false
      else if negb (Order_Validate order) then false
      else Orders_Validate ({[ ID order ]} ∪ seenIDs) rest
  end.

(** [None] is a validation error; otherwise the request with the
    configuration as [Validate] leaves it. *)
Definition Validate (r : OptimizeRequest) : option OptimizeRequest :=
  let truck := Truck_of r in
  if String.eqb (Truck_ID truck) "" then None
  else if MaxWeightLbs truck <=? 0 then None
  else if MaxWeightLbs truck >? 1000000 then None
  else if MaxVolumeCuft truck <=? 0 then None
  else if MaxVolumeCuft truck >? 100000 then None
  else if (length (Orders r) =? 0)%nat then None
  else if (22 <? length (Orders r))%nat then None
  else if negb (Orders_Validate ∅ (Orders r)) then None
  else
    match Config r with
    | None => Some r
    | Some c =>
        match OptimizationConfig_Validate c with
        | None => None
        | Some c' => Some {| Truck_of := truck; Orders := Orders r; Config := Some c' |}
        end
    end.

End request.
Import request.

(** ** Package service *)

Module service.

Record OptimizerService : Type := { optimizer : Optimizer }.

Definition Hybrid : Optimizer := HybridOptimizer_Optimize NewHybridOptimizer.
Definition DP : Optimizer := DPOptimizer_Optimize NewDPOptimizer.
Definition Greedy : Optimizer :=
  fun truck orders => Some (GreedyOptimizer_Optimize NewGreedyOptimizer truck orders).
Definition Backtracking : Optimizer :=
  fun truck orders => Some (BacktrackingOptimizer_Optimize NewBacktrackingOptimizer truck orders).

Definition NewOptimizerService : OptimizerService := {| optimizer := Hybrid |}.

Definition NewOptimizerServiceWithAlgorithm (o : Optimizer) : OptimizerService :=
  {| optimizer := o |}.

Definition selectOptimizer (s : OptimizerService) (config : option OptimizationConfig)
    (numOrders : nat) : Optimizer :=
  match config with
  | None => optimizer s
  | Some c =>
      if String.eqb (Algorithm c) "auto" then optimizer s
      else if String.eqb (Algorithm c) "dp" then DP
      else if String.eqb (Algorithm c) "backtracking" then Backtracking
      else if String.eqb (Algorithm c) "greedy" then Greedy
      else optimizer s
  end.

Definition preprocessOrders (truck : Truck) (orders : list Order) : list Order :=
  FilterFeasibleOrders truck orders.

Definition roundToTwoDecimals (value : float) : float :=
  (float64_of_int (int_of_float64 (value * 100 + 0.5)) / 100)%float.

Definition utilizationPercent (total capacity : Z) : float :=
  if capacity >? 0
  then (float64_of_int total / float64_of_int capacity * 100)%float
  else 0%float.

Definition buildResponse (truck : Truck) (result : OptimizationResult) : OptimizeResponse :=
  let orderIDs := map ID (SelectedOrders result) in
  let utilizationWeight := utilizationPercent (TotalWeight result) (MaxWeightLbs truck) in
  let utilizationVolume := utilizationPercent (TotalVolume result) (MaxVolumeCuft truck) in
  {| TruckID := Truck_ID truck;
     SelectedOrderIDs := orderIDs;
     TotalPayoutCents := TotalPayout result;
     TotalWeightLbs := TotalWeight result;
     TotalVolumeCuft := TotalVolume result;
     UtilizationWeightPercent := roundToTwoDecimals utilizationWeight;
     UtilizationVolumePercent := roundToTwoDecimals utilizationVolume |}.

(** The payout every order is relabeled with before the solve. *)
Definition weightedPayout (truck : Truck) (revenueWeight utilizationWeight : float)
    (o : Order) : Money :=
  let revenue := float64_of_int (Payout o) in
  let utilization :=
    ((float64_of_int (WeightLbs o) / float64_of_int (MaxWeightLbs truck)
      + float64_of_int (VolumeCuft o) / float64_of_int (MaxVolumeCuft truck)) / 2)%float in
  let score := (revenueWeight * revenue + utilizationWeight * utilization * 10000)%float in
  int_of_float64 score.

Definition optimizeWithWeights (s : OptimizerService) (truck : Truck) (orders : list Order)
    (revenueWeight utilizationWeight : float) : option OptimizationResult :=
  let weighted :=
    map (fun o => set_Payout o (weightedPayout truck revenueWeight utilizationWeight o)) orders in
  optimizer s truck weighted.

Inductive Result (A : Type) : Type :=
  | Ok (a : A)
  | Err (msg : string)
  | Panic.
Arguments Ok {A} a.
Arguments Err {A} msg.
Arguments Panic {A}.

Definition OptimizeLoad (s : OptimizerService) (request : OptimizeRequest)
    : Result OptimizeResponse :=
  match Validate request with
  | None => Err "validation failed"
  | Some request =>
      let truck := Truck_of request in
      let orders := preprocessOrders truck (Orders request) in
      let optimizer := selectOptimizer s (Config request) (length orders) in
      let result :=
        match Config request with
        | Some c =>
            if negb (RevenueWeight c =? 1)%float || negb (UtilizationWeight c =? 0)%float
            then optimizeWithWeights s truck orders (RevenueWeight c) (UtilizationWeight c)
            else optimizer truck orders
        | None => optimizer truck orders
        end in
      match result with
      | None => Panic
      | Some result => Ok (buildResponse truck result)
      end
  end.

Record ParetoSolution : Type := {
  OrderIDs : list string;
  TotalPayoutCents : Z;
  TotalWeightLbs : Z;
  TotalVolumeCuft : Z;
  UtilizationWeightPercent : float;
  UtilizationVolumePercent : float;
  Score : float
}.

Definition weights : list (float * float) :=
  [(1.0, 0.0); (0.8, 0.2); (0.6, 0.4); (0.4, 0.6); (0.2, 0.8)]%float.

Definition solutionKey (result : OptimizationResult) : string :=
  fold_left (fun key order => (key ++ (ID order ++ ","))%string) (SelectedOrders result) ""%string.

Definition mkParetoSolution (truck : Truck) (w : float * float) (result : OptimizationResult)
    : ParetoSolution :=
  let orderIDs := map ID (SelectedOrders result) in
  let weightUtil := utilizationPercent (TotalWeight result) (MaxWeightLbs truck) in
  let volumeUtil := utilizationPercent (TotalVolume result) (MaxVolumeCuft truck) in
  let score := (fst w * float64_of_int (TotalPayout result)
                + snd w * (weightUtil + volumeUtil) * 1000)%float in
  {| OrderIDs := orderIDs;
     TotalPayoutCents := TotalPayout result;
     TotalWeightLbs := TotalWeight result;
     TotalVolumeCuft := TotalVolume result;
     UtilizationWeightPercent := roundToTwoDecimals weightUtil;
     UtilizationVolumePercent := roundToTwoDecimals volumeUtil;
     Score := roundToTwoDecimals score |}.

(** The loop over the weight vectors, with its [seen] map, its [continue]
    and its [break]. *)
Fixpoint paretoCandidates (s : OptimizerService) (truck : Truck) (orders : list Order)
    (maxSolutions : Z) (ws : list (float * float)) (solutions : list ParetoSolution)
    (seen : gset string) : option (list ParetoSolution) :=
  match ws with
  | [] => Some solutions
  | w :: ws' =>
      match optimizeWithWeights s truck orders (fst w) (snd w) with
      | None => None
      | Some result =>
          let key := solutionKey result in
          if bool_decide (key ∈ seen)
          then paretoCandidates s truck orders maxSolutions ws' solutions seen
          else
            let seen := {[ key ]} ∪ seen in
            let solutions := solutions ++ [mkParetoSolution truck w result] in
            if Z.of_nat (length solutions) >=? maxSolutions then Some solutions
            else paretoCandidates s truck orders maxSolutions ws' solutions seen
      end
  end.

(** The test of [filterParetoOptimal]: [sol2] dominates [sol1]. *)
Definition dominates (sol2 sol1 : ParetoSolution) : bool :=
  (TotalPayoutCents sol2 >=? TotalPayoutCents sol1)
  && (UtilizationWeightPercent sol1 <=? UtilizationWeightPercent sol2)%float
  && (UtilizationVolumePercent sol1 <=? UtilizationVolumePercent sol2)%float
  && ((TotalPayoutCents sol2 >? TotalPayoutCents sol1)
      || (UtilizationWeightPercent sol1 <? UtilizationWeightPercent sol2)%float
      || (UtilizationVolumePercent sol1 <? UtilizationVolumePercent sol2)%float).

Definition dominatedAt (solutions : list ParetoSolution) (i : nat) (sol1 : ParetoSolution) : bool :=
  existsb (fun q => negb (i =? fst q)%nat && dominates (snd q) sol1)
    (zip (seq 0 (length solutions)) solutions).

Definition filterParetoOptimal (solutions : list ParetoSolution) : list ParetoSolution :=
  map snd
    (List.filter (fun p => negb (dominatedAt solutions (fst p) (snd p)))
       (zip (seq 0 (length solutions)) solutions)).

Definition GetParetoOptimalSolutions (s : OptimizerService) (truck : Truck)
    (orders : list Order) (maxSolutions : Z) : option (list ParetoSolution) :=
  match paretoCandidates s truck orders maxSolutions weights [] ∅ with
  | None => None
  | Some solutions => Some (filterParetoOptimal solutions)
  end.

End service.
Import service.

(** ** Notions the properties are stated with *)

Module props.

Definition sumPayout (l : list Order) : Z := foldr (fun o s => Payout o + s) 0 l.
Definition sumWeight (l : list Order) : Z := foldr (fun o s => WeightLbs o + s) 0 l.
Definition sumVolume (l : list Order) : Z := foldr (fun o s => VolumeCuft o + s) 0 l.

(** Every order of [l] can be combined with every later one. *)
Fixpoint pairwise (cc : Order -> Order -> bool) (l : list Order) : bool :=
  match l with
  | [] => true
  | o :: rest => forallb (cc o) rest && pairwise cc rest
  end.

(** A selection the truck can carry. *)
Definition feasible (truck : Truck) (sel : list Order) : Prop :=
  sumWeight sel <= MaxWeightLbs truck
  /\ sumVolume sel <= MaxVolumeCuft truck
  /\ ValidateOrderSet NewConstraintChecker sel = true.

(** The totals of a result are those of its selection. *)
Definition consistent (r : OptimizationResult) : Prop :=
  TotalPayout r = sumPayout (SelectedOrders r)
  /\ TotalWeight r = sumWeight (SelectedOrders r)
  /\ TotalVolume r = sumVolume (SelectedOrders r).

(** The part of the input contract the solvers rely on: no quantity is
    negative, the capacities leave room for one more order below [2^63], and
    the payouts of all orders together fit an [int64]. *)
Definition order_nonneg (o : Order) : Prop :=
  0 <= Payout o /\ 0 <= WeightLbs o /\ 0 <= VolumeCuft o.

Definition bounded_input (truck : Truck) (orders : list Order) : Prop :=
  0 <= MaxWeightLbs truck < 2 ^ 62
  /\ 0 <= MaxVolumeCuft truck < 2 ^ 62
  /\ Forall order_nonneg orders
  /\ sumPayout orders <= max_int64.

(** The bounds the input layer enforces (section 6 of the specification). *)
Definition valid_truck (t : Truck) : Prop :=
  0 < MaxWeightLbs t <= 1000000 /\ 0 < MaxVolumeCuft t <= 100000.

Definition valid_order (o : Order) : Prop :=
  0 < Payout o <= 100000000000
  /\ 0 < WeightLbs o <= 1000000
  /\ 0 < VolumeCuft o <= 100000.

Section masks.

Variable cc : Order -> Order -> bool.
Variable truck : Truck.
Variable orders : list Order.

Definition maskPayout (m : nat) : Z := sumPayout (extractOrders m orders).
Definition maskWeight (m : nat) : Z := sumWeight (extractOrders m orders).
Definition maskVolume (m : nat) : Z := sumVolume (extractOrders m orders).

(** Order [i] may be inserted into the subset [m]. *)
Definition insertable (m i : nat) : Prop :=
  (i < length orders)%nat
  /\ Nat.testbit m i = false
  /\ (forall j, (j < length orders)%nat -> Nat.testbit m j = true ->
                cc (orders !!! i) (orders !!! j) = true)
  /\ maskWeight m + WeightLbs (orders !!! i) <= MaxWeightLbs truck
  /\ maskVolume m + VolumeCuft (orders !!! i) <= MaxVolumeCuft truck.

(** The subsets reached from the empty one by insertions that respect
    compatibility and capacity. *)
Inductive reachable : nat -> Prop :=
  | reachable_empty : reachable 0%nat
  | reachable_insert (m i : nat) :
      reachable m -> insertable m i -> reachable (Nat.lor m (2 ^ i)%nat).

End masks.

(** [bm] is the least among the reachable subsets of greatest payout. *)
Definition best_reachable (truck : Truck) (orders : list Order) (bm : nat) : Prop :=
  reachable DefaultConstraintChecker.CanCombine truck orders bm
  /\ (forall m, reachable DefaultConstraintChecker.CanCombine truck orders m ->
                maskPayout orders m <= maskPayout orders bm)
  /\ (forall m, reachable DefaultConstraintChecker.CanCombine truck orders m ->
                maskPayout orders m = maskPayout orders bm -> (bm <= m)%nat).

(** [p] is the greatest payout of a selection from [orders] that respects
    capacity and compatibility. *)
Definition is_max_payout (truck : Truck) (orders : list Order) (p : Z) : Prop :=
  (exists s, s `sublist_of` orders /\ feasible truck s /\ sumPayout s = p)
  /\ (forall s, s `sublist_of` orders -> feasible truck s -> sumPayout s <= p).

(** The reported totals stay within the truck and the selection passes
    [ValidateOrderSet]. *)
Definition respects (truck : Truck) (r : OptimizationResult) : Prop :=
  TotalWeight r <= MaxWeightLbs truck
  /\ TotalVolume r <= MaxVolumeCuft truck
  /\ ValidateOrderSet NewConstraintChecker (SelectedOrders r) = true.

(** Calendar days, and an order whose pickup is midnight of day [d]. *)
Definition day : Duration := 86400000000000.

Definition on_day (o : Order) (d : Z) : Order :=
  {| ID := ID o; Payout := Payout o; WeightLbs := WeightLbs o; VolumeCuft := VolumeCuft o;
     Origin := Origin o; Destination := Destination o; PickupDate := d * day;
     DeliveryDate := DeliveryDate o; IsHazmat := IsHazmat o |}.

(** The test the strict checker applies to the time between two pickups. *)
Definition within_one_day (d : Duration) : bool :=
  let daysDiff := (Duration_Hours d / 24)%float in
  let daysDiff := if (daysDiff <? 0)%float then (- daysDiff)%float else daysDiff in
  (daysDiff <=? 1)%float.

(** What the test computes for a duration of [k] whole days: [24 * k] hours
    and no nanoseconds left over. *)
Definition whole_days_test (k : Z) : bool :=
  let hours := (float64_of_int (24 * k) + float64_of_int 0 / 3600000000000)%float in
  let daysDiff := (hours / 24)%float in
  let daysDiff := if (daysDiff <? 0)%float then (- daysDiff)%float else daysDiff in
  (daysDiff <=? 1)%float.

(** The test agrees with [|k| <= 1] on the [fuel] day counts from [k] on. *)
Fixpoint agree_from (k : Z) (fuel : nat) : bool :=
  match fuel with
  | O => true
  | S fuel' =>
      if Bool.eqb (whole_days_test k) (Z.abs k <=? 1)
      then agree_from (k + 1) fuel'
      else false
  end.

(** Dominance in the words of the specification: [A] is at least [B] on
    payout and on both utilization percentages, and greater on one of them. *)
Definition Dominates (A B : ParetoSolution) : Prop :=
  (TotalPayoutCents A >= TotalPayoutCents B
   /\ (UtilizationWeightPercent B <=? UtilizationWeightPercent A)%float = true
   /\ (UtilizationVolumePercent B <=? UtilizationVolumePercent A)%float = true)
  /\ (TotalPayoutCents A > TotalPayoutCents B
      \/ (UtilizationWeightPercent B <? UtilizationWeightPercent A)%float = true
      \/ (UtilizationVolumePercent B <? UtilizationVolumePercent A)%float = true).

(** The scalarized solve at each weight vector of [ws], in order. *)
Fixpoint solveAll_from (s : OptimizerService) (truck : Truck) (orders : list Order)
    (ws : list (float * float)) : option (list ((float * float) * OptimizationResult)) :=
  match ws with
  | [] => Some []
  | w :: ws' =>
      match optimizeWithWeights s truck orders (fst w) (snd w) with
      | None => None
      | Some result =>
          match solveAll_from s truck orders ws' with
          | None => None
          | Some rest => Some ((w, result) :: rest)
          end
      end
  end.

Definition solveAll (s : OptimizerService) (truck : Truck) (orders : list Order)
    : option (list ((float * float) * OptimizationResult)) :=
  solveAll_from s truck orders weights.

(** The first result of every key, the key being the comma-joined ids. *)
Fixpoint dedupByKey (seen : gset string) (l : list ((float * float) * OptimizationResult))
    : list ((float * float) * OptimizationResult) :=
  match l with
  | [] => []
  | wr :: rest =>
      if bool_decide (solutionKey (snd wr) ∈ seen) then dedupByKey seen rest
      else wr :: dedupByKey ({[ solutionKey (snd wr) ]} ∪ seen) rest
  end.

Definition candidateSolutions (truck : Truck) (l : list ((float * float) * OptimizationResult))
    : list ParetoSolution :=
  map (fun wr => mkParetoSolution truck (fst wr) (snd wr)) (dedupByKey ∅ l).

(** The key of a list of ids, and ids that hold no comma. *)
Definition joinKey (ids : list string) : string :=
  foldr (fun id acc => ((id ++ ",") ++ acc)%string) ""%string ids.

Fixpoint comma_free (s : string) : bool :=
  match s with
  | EmptyString => true
  | String c s' => negb (Ascii.eqb c ","%char) && comma_free s'
  end.

(** The Pareto list in the words of the specification: solve at the five
    weight vectors, keep the first result of every set of selected order
    ids, filter by dominance, truncate to the maximum count. *)
Definition idSet (r : OptimizationResult) : gset string :=
  list_to_set (map ID (SelectedOrders r)).

Fixpoint dedupByIdSet (seen : gset (gset string))
    (l : list ((float * float) * OptimizationResult))
    : list ((float * float) * OptimizationResult) :=
  match l with
  | [] => []
  | wr :: rest =>
      if bool_decide (idSet (snd wr) ∈ seen) then dedupByIdSet seen rest
      else wr :: dedupByIdSet ({[ idSet (snd wr) ]} ∪ seen) rest
  end.

Definition paretoSpec (s : OptimizerService) (truck : Truck) (orders : list Order)
    (maxSolutions : Z) : option (list ParetoSolution) :=
  match solveAll s truck orders with
  | None => None
  | Some l =>
      Some (take (Z.to_nat maxSolutions)
              (filterParetoOptimal
                 (map (fun wr => mkParetoSolution truck (fst wr) (snd wr))
                    (dedupByIdSet ∅ l))))
  end.


(** The orders of route [r], and a group as the map of
    [GroupOrdersByRoute] holds it: a route without orders is no key. *)
Definition onRoute (r : string) (orders : list Order) : list Order :=
  List.filter (fun o => String.eqb (Route o) r) orders.

Definition group_of (l : list Order) : option (list Order) :=
  match l with [] => None | group => Some group end.

(** The text [->] occurs in [s]. *)
Fixpoint contains_arrow (s : string) : bool :=
  match s with
  | EmptyString => false
  | String c s' =>
      (Ascii.eqb c "-"%char
       && match s' with String d _ => Ascii.eqb d ">"%char | EmptyString => false end)
      || contains_arrow s'
  end.

(** The rank of a float in the order of [SFcompare]: the class, then the
    exponent, then the mantissa, the last two negated below zero. *)
Definition SFkey (f : spec_float) : Z * Z * Z :=
  match f with
  | S754_nan => (0, 0, 0)
  | S754_infinity true => (-2, 0, 0)
  | S754_infinity false => (2, 0, 0)
  | S754_zero _ => (0, 0, 0)
  | S754_finite true m e => (-1, - e, - Zpos m)
  | S754_finite false m e => (1, e, Zpos m)
  end.

Definition SFis_nan (f : spec_float) : bool :=
  match f with S754_nan => true | _ => false end.

Definition key_lt (a b : Z * Z * Z) : Prop :=
  let '(a1, a2, a3) := a in
  let '(b1, b2, b3) := b in
  a1 < b1 \/ (a1 = b1 /\ (a2 < b2 \/ (a2 = b2 /\ a3 < b3))).

Definition key_le (a b : Z * Z * Z) : Prop :=
  let '(a1, a2, a3) := a in
  let '(b1, b2, b3) := b in
  a1 < b1 \/ (a1 = b1 /\ (a2 < b2 \/ (a2 = b2 /\ a3 <= b3))).

(** Nothing more can be done with [o]: it is selected, or it no longer fits
    beside the selection, or it cannot be combined with a selected order. *)
Definition settled (truck : Truck) (r : OptimizationResult) (o : Order) : Prop :=
  o ∈ SelectedOrders r
  \/ MaxWeightLbs truck < TotalWeight r + WeightLbs o
  \/ MaxVolumeCuft truck < TotalVolume r + VolumeCuft o
  \/ exists s, s ∈ SelectedOrders r /\ CanCombine NewConstraintChecker o s = false.

(** A result that is consistent, feasible, drawn from [orders] and of the
    greatest payout a feasible selection from [orders] can have. *)
Definition optimal_result (truck : Truck) (orders : list Order) (r : OptimizationResult) : Prop :=
  consistent r
  /\ feasible truck (SelectedOrders r)
  /\ SelectedOrders r ⊆+ orders
  /\ is_max_payout truck orders (TotalPayout r).

(** The revenue path of [OptimizeLoad]: no configuration, or weights 1 and
    0; and a configuration that names the greedy solver. *)
Definition revenue_path (config : option OptimizationConfig) : bool :=
  match config with
  | None => true
  | Some c => (RevenueWeight c =? 1)%float && (UtilizationWeight c =? 0)%float
  end.

Definition asks_greedy (config : option OptimizationConfig) : bool :=
  match config with
  | None => false
  | Some c => String.eqb (Algorithm c) "greedy"
  end.

(** The conditions [OrderInput.Validate] puts on an order. *)
Definition acceptable_order (o : Order) : Prop :=
  ID o <> ""%string /\ (String.length (ID o) <= 100)%nat
  /\ 0 < Payout o <= 100000000000
  /\ 0 < WeightLbs o <= 1000000
  /\ 0 < VolumeCuft o <= 100000
  /\ Origin o <> ""%string /\ Destination o <> ""%string
  /\ (String.length (Origin o) <= 200)%nat /\ (String.length (Destination o) <= 200)%nat
  /\ PickupDate o <= DeliveryDate o.

End props.
Import props.

(** ** Invariants of the loops *)

Module invariants.

(** The greedy walk: the totals are those of the selection, which fits the
    truck and is pairwise compatible. *)
Definition greedy_inv (truck : Truck) (acc : OptimizationResult) : Prop :=
  consistent acc
  /\ sumWeight (SelectedOrders acc) <= MaxWeightLbs truck
  /\ sumVolume (SelectedOrders acc) <= MaxVolumeCuft truck
  /\ pairwise DefaultConstraintChecker.CanCombine (SelectedOrders acc) = true.

(** The best solution the backtracking search holds. *)
Definition best_inv (truck : Truck) (all : list Order) (b : BacktrackingOptimizer) : Prop :=
  b_checker b = NewConstraintChecker
  /\ bestPayout b = sumPayout (bestOrders b)
  /\ bestWeight b = sumWeight (bestOrders b)
  /\ bestVolume b = sumVolume (bestOrders b)
  /\ sumWeight (bestOrders b) <= MaxWeightLbs truck
  /\ sumVolume (bestOrders b) <= MaxVolumeCuft truck
  /\ pairwise DefaultConstraintChecker.CanCombine (bestOrders b) = true
  /\ bestOrders b ⊆+ all.

(** The node the backtracking search stands at: the running totals are those
    of the current selection, [rest] is still to be considered. *)
Definition cur_inv (truck : Truck) (all : list Order) (cur rest : list Order)
    (cp cw cv : Z) : Prop :=
  cp = sumPayout cur /\ cw = sumWeight cur /\ cv = sumVolume cur
  /\ sumWeight cur <= MaxWeightLbs truck
  /\ sumVolume cur <= MaxVolumeCuft truck
  /\ pairwise DefaultConstraintChecker.CanCombine cur = true
  /\ cur ++ rest ⊆+ all.

(** The tables of the bitmask solver: every entry marked valid belongs to a
    reachable subset and holds its sums. *)
Definition tables_ok (truck : Truck) (all : list Order) (t : DPTables) : Prop :=
  length (dpPayout t) = (2 ^ length all)%nat
  /\ length (dpWeight t) = (2 ^ length all)%nat
  /\ length (dpVolume t) = (2 ^ length all)%nat
  /\ length (dpValid t) = (2 ^ length all)%nat
  /\ forall m, (m < 2 ^ length all)%nat -> dpValid t !!! m = true ->
       reachable DefaultConstraintChecker.CanCombine truck all m
       /\ dpPayout t !!! m = maskPayout all m
       /\ dpWeight t !!! m = maskWeight all m
       /\ dpVolume t !!! m = maskVolume all m.

(** The state of the sweep once every mask below [k] has been visited. *)
Definition sweep_inv (truck : Truck) (all : list Order) (k : nat) (t : DPTables) : Prop :=
  tables_ok truck all t
  /\ dpValid t !!! 0%nat = true
  /\ forall m i, (m < k)%nat ->
       reachable DefaultConstraintChecker.CanCombine truck all m ->
       insertable DefaultConstraintChecker.CanCombine truck all m i ->
       dpValid t !!! Nat.lor m (2 ^ i) = true.

(** The density ranking: no order from position [a] on has a greater density
    than the one at [a]; and the state of the two loops of
    [sortByValueDensity] at positions [i] and [J]. *)
Definition heads (l : list Order) (a : nat) : Prop :=
  forall k, (a < k < length l)%nat -> (density (l !!! a) <? density (l !!! k))%float = false.

Definition sort_inv (len i J : nat) (l : list Order) : Prop :=
  length l = len
  /\ (forall a, (a < i)%nat -> heads l a)
  /\ (forall k, (i < k < J)%nat -> (density (l !!! i) <? density (l !!! k))%float = false).

End invariants.
Import invariants.

(** ** Concrete inputs *)

Module scenarios.

Definition mkOrder (id : string) (payout weight volume : Z) (origin destination : string)
    (hazmat : bool) : Order :=
  {| ID := id; Payout := payout; WeightLbs := weight; VolumeCuft := volume;
     Origin := origin; Destination := destination;
     PickupDate := 0; DeliveryDate := 0; IsHazmat := hazmat |}.

(** Scenario A of the specification: both orders travel together. *)
Definition truckA : Truck :=
  {| Truck_ID := "truck-A"; MaxWeightLbs := 44000; MaxVolumeCuft := 3000 |}.
Definition ordersA : list Order :=
  [ mkOrder "O1" 250000 18000 1200 "LA" "NYC" false;
    mkOrder "O2" 180000 12000 900 "LA" "NYC" false ].

(** Scenario C: same route, one hazmat order and one that is not. *)
Definition ordersC : list Order :=
  [ mkOrder "O1" 100000 18000 1200 "LA" "NYC" true;
    mkOrder "O2" 150000 12000 900 "LA" "NYC" false ].

(** The densest order blocks the better pair. *)
Definition truckD : Truck :=
  {| Truck_ID := "truck-D"; MaxWeightLbs := 10; MaxVolumeCuft := 10 |}.
Definition ordersD : list Order :=
  [ mkOrder "A" 60 6 1 "LA" "NYC" false;
    mkOrder "B" 45 5 1 "LA" "NYC" false;
    mkOrder "C" 45 5 1 "LA" "NYC" false ].

(** Scenario D: 23 orders, twenty of them too heavy for the truck. *)
Definition orders23 : list Order :=
  ordersD ++ replicate 20 (mkOrder "H" 10 11 1 "LA" "NYC" false).

(** A light order of high payout and a heavy one that fills the truck, on
    different routes. *)
Definition ordersP : list Order :=
  [ mkOrder "A" 1000 1 1 "LA" "NYC" false;
    mkOrder "B" 900 10 10 "SF" "SEA" false ].

Definition ordersQ : list Order :=
  [ mkOrder "A" 100000 1 1 "LA" "NYC" false;
    mkOrder "B" 90000 10 10 "SF" "SEA" false ].

(** A request with the balanced objective for one order that fits. *)
Definition truckW : Truck :=
  {| Truck_ID := "truck-W"; MaxWeightLbs := 4; MaxVolumeCuft := 4 |}.
Definition ordersW : list Order := [ mkOrder "O1" 100 2 2 "LA" "NYC" false ].
Definition balanced : OptimizationConfig :=
  {| Objective := "balanced"; RevenueWeight := 0; UtilizationWeight := 0; Algorithm := "" |}.
Definition requestW : OptimizeRequest :=
  {| Truck_of := truckW; Orders := ordersW; Config := Some balanced |}.

(** The same request as [Validate] hands it on, and the two with the greedy
    solver asked for. *)
Definition requestW' : OptimizeRequest :=
  {| Truck_of := truckW; Orders := ordersW;
     Config := Some {| Objective := "balanced"; RevenueWeight := 0.5;
                       UtilizationWeight := 0.5; Algorithm := "auto" |} |}.

Definition requestG : OptimizeRequest :=
  {| Truck_of := truckW; Orders := ordersW;
     Config := Some {| Objective := "balanced"; RevenueWeight := 0;
                       UtilizationWeight := 0; Algorithm := "greedy" |} |}.

Definition requestG' : OptimizeRequest :=
  {| Truck_of := truckW; Orders := ordersW;
     Config := Some {| Objective := "balanced"; RevenueWeight := 0.5;
                       UtilizationWeight := 0.5; Algorithm := "greedy" |} |}.


(** Scenario A as a request without configuration. *)
Definition requestA : OptimizeRequest :=
  {| Truck_of := truckA; Orders := ordersA; Config := None |}.

End scenarios.
Import scenarios.

(** * Properties *)

(** ** Machine arithmetic within range *)

Lemma wrap64_id (z : Z) : min_int64 <= z <= max_int64 -> wrap64 z = z.
Proof.
  unfold wrap64, min_int64, max_int64. intros H.
  rewrite Z.mod_small; lia.
Qed.

Lemma add64_id (a b : Z) : min_int64 <= a + b <= max_int64 -> add64 a b = a + b.
Proof. apply wrap64_id. Qed.

Ltac int64_lia := unfold max_int64, min_int64 in *; lia.

(** ** Sums over selections *)

Section sums.

Variable f : Order -> Z.
Let sumf (l : list Order) : Z := foldr (fun o s => f o + s) 0 l.

Lemma sumf_app l1 l2 : sumf (l1 ++ l2) = sumf l1 + sumf l2.
Proof. induction l1 as [|o l1 IH]; simpl; [reflexivity|]. rewrite IH. lia. Qed.

Lemma sumf_perm l1 l2 : l1 ≡ₚ l2 -> sumf l1 = sumf l2.
Proof. induction 1; simpl; lia. Qed.

Lemma sumf_nonneg l : Forall (fun o => 0 <= f o) l -> 0 <= sumf l.
Proof. induction 1; simpl; lia. Qed.

Lemma sumf_sublist l1 l2 :
  Forall (fun o => 0 <= f o) l2 -> l1 `sublist_of` l2 -> sumf l1 <= sumf l2.
Proof.
  intros Hf Hs. induction Hs as [|x l1 l2 Hs IH|x l1 l2 Hs IH]; simpl.
  - lia.
  - inversion Hf; subst. specialize (IH ltac:(assumption)). lia.
  - inversion Hf; subst. specialize (IH ltac:(assumption)). lia.
Qed.

Lemma sumf_submseteq l1 l2 :
  Forall (fun o => 0 <= f o) l2 -> l1 ⊆+ l2 -> sumf l1 <= sumf l2.
Proof.
  intros Hf Hs. apply submseteq_sublist_r in Hs as (l & Hp & Hl).
  rewrite (sumf_perm _ _ Hp). apply sumf_sublist; assumption.
Qed.

End sums.

Lemma sumPayout_app l1 l2 : sumPayout (l1 ++ l2) = sumPayout l1 + sumPayout l2.
Proof. apply (sumf_app Payout). Qed.
Lemma sumWeight_app l1 l2 : sumWeight (l1 ++ l2) = sumWeight l1 + sumWeight l2.
Proof. apply (sumf_app WeightLbs). Qed.
Lemma sumVolume_app l1 l2 : sumVolume (l1 ++ l2) = sumVolume l1 + sumVolume l2.
Proof. apply (sumf_app VolumeCuft). Qed.

Lemma sumPayout_perm l1 l2 : l1 ≡ₚ l2 -> sumPayout l1 = sumPayout l2.
Proof. apply (sumf_perm Payout). Qed.
Lemma sumWeight_perm l1 l2 : l1 ≡ₚ l2 -> sumWeight l1 = sumWeight l2.
Proof. apply (sumf_perm WeightLbs). Qed.
Lemma sumVolume_perm l1 l2 : l1 ≡ₚ l2 -> sumVolume l1 = sumVolume l2.
Proof. apply (sumf_perm VolumeCuft). Qed.

Lemma nonneg_payouts l : Forall order_nonneg l -> Forall (fun o => 0 <= Payout o) l.
Proof. intros H. eapply Forall_impl; [exact H|]. intros o Ho. apply Ho. Qed.
Lemma nonneg_weights l : Forall order_nonneg l -> Forall (fun o => 0 <= WeightLbs o) l.
Proof. intros H. eapply Forall_impl; [exact H|]. intros o Ho. apply Ho. Qed.
Lemma nonneg_volumes l : Forall order_nonneg l -> Forall (fun o => 0 <= VolumeCuft o) l.
Proof. intros H. eapply Forall_impl; [exact H|]. intros o Ho. apply Ho. Qed.

Lemma sumPayout_nonneg l : Forall order_nonneg l -> 0 <= sumPayout l.
Proof. intros H. apply (sumf_nonneg Payout), nonneg_payouts, H. Qed.
Lemma sumWeight_nonneg l : Forall order_nonneg l -> 0 <= sumWeight l.
Proof. intros H. apply (sumf_nonneg WeightLbs), nonneg_weights, H. Qed.
Lemma sumVolume_nonneg l : Forall order_nonneg l -> 0 <= sumVolume l.
Proof. intros H. apply (sumf_nonneg VolumeCuft), nonneg_volumes, H. Qed.

Lemma sumPayout_submseteq l1 l2 :
  Forall order_nonneg l2 -> l1 ⊆+ l2 -> sumPayout l1 <= sumPayout l2.
Proof. intros H. apply (sumf_submseteq Payout), nonneg_payouts, H. Qed.
Lemma sumWeight_submseteq l1 l2 :
  Forall order_nonneg l2 -> l1 ⊆+ l2 -> sumWeight l1 <= sumWeight l2.
Proof. intros H. apply (sumf_submseteq WeightLbs), nonneg_weights, H. Qed.
Lemma sumVolume_submseteq l1 l2 :
  Forall order_nonneg l2 -> l1 ⊆+ l2 -> sumVolume l1 <= sumVolume l2.
Proof. intros H. apply (sumf_submseteq VolumeCuft), nonneg_volumes, H. Qed.

Lemma Forall_submseteq {A} (P : A -> Prop) (l1 l2 : list A) :
  Forall P l2 -> l1 ⊆+ l2 -> Forall P l1.
Proof.
  rewrite !Forall_forall. intros H Hs x Hx. apply H.
  eapply elem_of_submseteq; eassumption.
Qed.

(** ** Pairwise compatibility *)

Section pairwise_facts.

Variable cc : Order -> Order -> bool.
Hypothesis cc_sym : forall a b, cc a b = cc b a.

Lemma forallb_perm (p : Order -> bool) l1 l2 : l1 ≡ₚ l2 -> forallb p l1 = forallb p l2.
Proof.
  induction 1 as [|x l1 l2 _ IH|x y l|l1 l2 l3 _ IH1 _ IH2]; simpl.
  - reflexivity.
  - rewrite IH. reflexivity.
  - destruct (p x), (p y); reflexivity.
  - congruence.
Qed.

Lemma forallb_sublist (p : Order -> bool) l1 l2 :
  l1 `sublist_of` l2 -> forallb p l2 = true -> forallb p l1 = true.
Proof.
  induction 1 as [|x l1 l2 _ IH|x l1 l2 _ IH]; simpl; intros H.
  - reflexivity.
  - apply andb_true_iff in H as [-> H]. simpl. auto.
  - apply andb_true_iff in H as [_ H]. auto.
Qed.

Lemma pairwise_perm l1 l2 : l1 ≡ₚ l2 -> pairwise cc l1 = pairwise cc l2.
Proof.
  induction 1 as [|x l1 l2 Hp IH|x y l|l1 l2 l3 _ IH1 _ IH2]; simpl.
  - reflexivity.
  - rewrite IH, (forallb_perm _ _ _ Hp). reflexivity.
  - rewrite (cc_sym y x).
    destruct (cc x y), (forallb (cc y) l), (forallb (cc x) l); reflexivity.
  - congruence.
Qed.

Lemma pairwise_sublist l1 l2 :
  l1 `sublist_of` l2 -> pairwise cc l2 = true -> pairwise cc l1 = true.
Proof.
  induction 1 as [|x l1 l2 Hs IH|x l1 l2 _ IH]; simpl; intros H.
  - reflexivity.
  - apply andb_true_iff in H as [H1 H2].
    rewrite (forallb_sublist _ _ _ Hs H1). simpl. auto.
  - apply andb_true_iff in H as [_ H]. auto.
Qed.

Lemma pairwise_submseteq l1 l2 :
  l1 ⊆+ l2 -> pairwise cc l2 = true -> pairwise cc l1 = true.
Proof.
  intros Hs H. apply submseteq_sublist_r in Hs as (l & Hp & Hl).
  rewrite (pairwise_perm _ _ Hp). eapply pairwise_sublist; eassumption.
Qed.

Lemma pairwise_snoc l o :
  pairwise cc (l ++ [o]) = pairwise cc l && forallb (fun s => cc o s) l.
Proof.
  rewrite (pairwise_perm (l ++ [o]) (o :: l)).
  - simpl. apply andb_comm.
  - symmetry. apply Permutation_cons_append.
Qed.

End pairwise_facts.

Lemma DefaultCanCombine_sym a b :
  DefaultConstraintChecker.CanCombine a b = DefaultConstraintChecker.CanCombine b a.
Proof.
  unfold DefaultConstraintChecker.CanCombine.
  rewrite (String.eqb_sym (Route a)).
  destruct (IsHazmat a), (IsHazmat b); reflexivity.
Qed.

Lemma ValidateOrderSet_from_pairwise l :
  DefaultConstraintChecker.ValidateOrderSet_from l
  = pairwise DefaultConstraintChecker.CanCombine l.
Proof. induction l as [|x r IH]; simpl; [reflexivity|]. rewrite IH. reflexivity. Qed.

Lemma ValidateOrderSet_pairwise l :
  ValidateOrderSet NewConstraintChecker l = pairwise DefaultConstraintChecker.CanCombine l.
Proof.
  simpl. unfold DefaultConstraintChecker.ValidateOrderSet.
  destruct l as [|o l]; [reflexivity|]. apply ValidateOrderSet_from_pairwise.
Qed.

(** ** FilterFeasibleOrders *)

Lemma Filter_sublist truck orders : FilterFeasibleOrders truck orders `sublist_of` orders.
Proof.
  unfold FilterFeasibleOrders. induction orders as [|o l IH]; simpl.
  - constructor.
  - destruct (negb _); [apply sublist_skip|apply sublist_cons]; assumption.
Qed.

Lemma Filter_fits truck orders :
  Forall (fun o => WeightLbs o <= MaxWeightLbs truck /\ VolumeCuft o <= MaxVolumeCuft truck)
    (FilterFeasibleOrders truck orders).
Proof.
  unfold FilterFeasibleOrders. rewrite Forall_forall. intros o Ho.
  apply list_elem_of_In, filter_In in Ho as [_ Ho].
  apply negb_true_iff, orb_false_iff in Ho as [H1 H2]. lia.
Qed.


Lemma bounded_input_Filter truck orders :
  bounded_input truck orders -> bounded_input truck (FilterFeasibleOrders truck orders).
Proof.
  intros (HW & HV & Hn & Hp). pose proof (Filter_sublist truck orders) as Hs.
  repeat split; try lia.
  - eapply Forall_submseteq; [exact Hn|]. apply sublist_submseteq, Hs.
  - etransitivity; [|exact Hp]. apply sumPayout_submseteq; [exact Hn|].
    apply sublist_submseteq, Hs.
Qed.

(** ** Loops as folds *)

Lemma fold_left_inv {A B} (P : A -> Prop) (f : A -> B -> A) (l : list B) (a : A) :
  P a -> (forall a x, In x l -> P a -> P (f a x)) -> P (fold_left f l a).
Proof.
  revert a. induction l as [|x l IH]; simpl; intros a Ha Hstep; [exact Ha|].
  apply IH; [apply Hstep; auto|]. intros a' y Hy. apply Hstep. auto.
Qed.

Lemma fold_left_seq_inv {A} (P : nat -> A -> Prop) (f : A -> nat -> A) (n : nat) (a : A) :
  P 0%nat a ->
  (forall k a, (k < n)%nat -> P k a -> P (S k) (f a k)) ->
  P n (fold_left f (seq 0 n) a).
Proof.
  intros H0 Hstep. induction n as [|n IH]; [exact H0|].
  rewrite seq_S, fold_left_app. simpl. apply Hstep; [lia|].
  apply IH. intros k a' Hk. apply Hstep. lia.
Qed.

Arguments DefaultConstraintChecker.CanCombine : simpl never.

(** ** GreedyOptimizer *)

Lemma swap_perm (l : list Order) (i j : nat) :
  (i < length l)%nat -> (j < length l)%nat -> swap l i j ≡ₚ l.
Proof.
  intros Hi Hj. unfold swap.
  apply Permutation_insert_swap; apply list_lookup_lookup_total_lt; assumption.
Qed.

Lemma sortByValueDensity_perm (orders : list Order) : sortByValueDensity orders ≡ₚ orders.
Proof.
  unfold sortByValueDensity.
  apply (fold_left_inv (fun sorted => sorted ≡ₚ orders)); [reflexivity|].
  intros sorted i Hi Hs. apply in_seq in Hi.
  apply (fold_left_inv (fun sorted => sorted ≡ₚ orders)); [exact Hs|].
  intros sorted' j Hj Hs'. apply in_seq in Hj.
  unfold sort_step. destruct (_ <? _)%float; [|exact Hs'].
  pose proof (Permutation_length Hs') as Hlen.
  rewrite swap_perm; [exact Hs'|lia|lia].
Qed.

Section greedy.

Variable truck : Truck.
Variable all : list Order.
Hypothesis Hbound : bounded_input truck all.
Hypothesis Hfits :
  Forall (fun o => WeightLbs o <= MaxWeightLbs truck /\ VolumeCuft o <= MaxVolumeCuft truck) all.

Let g := NewGreedyOptimizer.

Lemma greedy_step_inv acc order rest :
  greedy_inv truck acc -> SelectedOrders acc ++ order :: rest ⊆+ all ->
  greedy_inv truck (greedy_step g truck acc order)
  /\ SelectedOrders (greedy_step g truck acc order) ++ rest ⊆+ all.
Proof.
  intros ((HP & HW & HV) & HcW & HcV & Hpw) Hsub.
  destruct Hbound as (HbW & HbV & Hnn & Hsum).
  assert (Hskip : SelectedOrders acc ++ rest ⊆+ all).
  { etransitivity; [|exact Hsub]. apply submseteq_app; [reflexivity|].
    apply submseteq_cons. reflexivity. }
  assert (Hin : order ∈ all).
  { eapply elem_of_submseteq; [|exact Hsub]. apply elem_of_app. right. left. }
  assert (Hsel : SelectedOrders acc ⊆+ all).
  { etransitivity; [|exact Hskip]. apply submseteq_inserts_r. reflexivity. }
  assert (Hsel' : SelectedOrders acc ++ [order] ⊆+ all).
  { etransitivity; [|exact Hsub]. apply submseteq_app; [reflexivity|].
    apply submseteq_skip, submseteq_nil_l. }
  pose proof (proj1 (Forall_forall _ _) Hnn _ Hin) as (Hp0 & Hw0 & Hv0).
  pose proof (proj1 (Forall_forall _ _) Hfits _ Hin) as (Hw1 & Hv1).
  pose proof (sumWeight_nonneg _ (Forall_submseteq _ _ _ Hnn Hsel)) as HsW.
  pose proof (sumVolume_nonneg _ (Forall_submseteq _ _ _ Hnn Hsel)) as HsV.
  pose proof (sumPayout_nonneg _ (Forall_submseteq _ _ _ Hnn Hsel)) as HsP.
  pose proof (sumPayout_submseteq _ _ Hnn Hsel') as HsP'.
  rewrite sumPayout_app in HsP'. simpl in HsP'.
  unfold greedy_step. simpl. unfold DefaultConstraintChecker.CanFit.
  rewrite HW, HV, !add64_id by int64_lia.
  destruct (_ && _) eqn:Hfit; simpl; [|split; [repeat split; assumption|exact Hskip]].
  destruct (forallb _ _) eqn:Hcomp; [|split; [repeat split; assumption|exact Hskip]].
  apply andb_true_iff in Hfit as [Hf1 Hf2].
  split.
  - unfold greedy_inv, consistent. simpl. unfold Money_Add.
    rewrite sumPayout_app, sumWeight_app, sumVolume_app. simpl.
    rewrite HP.
    rewrite (pairwise_snoc _ DefaultCanCombine_sym), Hpw, Hcomp.
    repeat split; lia.
  - simpl. rewrite <- app_assoc. exact Hsub.
Qed.

Lemma greedy_fold_inv rest acc :
  greedy_inv truck acc -> SelectedOrders acc ++ rest ⊆+ all ->
  greedy_inv truck (fold_left (greedy_step g truck) rest acc)
  /\ SelectedOrders (fold_left (greedy_step g truck) rest acc) ⊆+ all.
Proof.
  revert acc. induction rest as [|order rest IH]; simpl; intros acc Hinv Hsub.
  - rewrite app_nil_r in Hsub. auto.
  - destruct (greedy_step_inv acc order rest Hinv Hsub) as [Hinv' Hsub'].
    apply IH; assumption.
Qed.

End greedy.

Lemma greedy_inv_empty truck :
  0 <= MaxWeightLbs truck -> 0 <= MaxVolumeCuft truck -> greedy_inv truck emptyResult.
Proof. intros. repeat split; simpl; auto. Qed.

(** What the greedy solver returns: a consistent result whose selection fits
    the truck, is pairwise compatible and is drawn from the feasible orders. *)
Lemma Greedy_sound truck orders :
  bounded_input truck orders ->
  let r := GreedyOptimizer_Optimize NewGreedyOptimizer truck orders in
  consistent r /\ feasible truck (SelectedOrders r)
  /\ SelectedOrders r ⊆+ FilterFeasibleOrders truck orders.
Proof.
  intros Hb. pose proof (bounded_input_Filter _ _ Hb) as Hb'.
  destruct (greedy_fold_inv truck (FilterFeasibleOrders truck orders) Hb'
              (Filter_fits truck orders)
              (sortByValueDensity (FilterFeasibleOrders truck orders)) emptyResult)
    as [(Hc & HW & HV & Hpw) Hsub].
  - apply greedy_inv_empty; destruct Hb as (? & ? & _); lia.
  - simpl. rewrite sortByValueDensity_perm. reflexivity.
  - simpl. unfold GreedyOptimizer_Optimize. repeat split; try apply Hc; try assumption.
    rewrite ValidateOrderSet_pairwise. exact Hpw.
Qed.

(** ** BacktrackingOptimizer *)

Lemma pairwise_app_elim cc l1 l2 :
  pairwise cc (l1 ++ l2) = true -> forall a b, In a l1 -> In b l2 -> cc a b = true.
Proof.
  induction l1 as [|x l1 IH]; simpl; intros H a b Ha Hb; [contradiction|].
  apply andb_true_iff in H as [H1 H2]. destruct Ha as [->|Ha].
  - rewrite forallb_forall in H1. apply H1, in_or_app. auto.
  - eapply IH; eassumption.
Qed.

Lemma remainingPayout_from (rest : list Order) (a : Z) :
  Forall order_nonneg rest -> 0 <= a -> a + sumPayout rest <= max_int64 ->
  fold_left (fun r o => add64 r (Payout o)) rest a = a + sumPayout rest.
Proof.
  revert a. induction rest as [|o rest IH]; simpl; intros a Hn Ha Hs; [lia|].
  inversion Hn as [|? ? (Hp & _) Hn']; subst.
  pose proof (sumPayout_nonneg _ Hn').
  rewrite add64_id by int64_lia. rewrite IH; [lia|assumption|lia|lia].
Qed.

Lemma remainingPayout_sum (rest : list Order) :
  Forall order_nonneg rest -> sumPayout rest <= max_int64 ->
  remainingPayout rest = sumPayout rest.
Proof. intros Hn Hs. unfold remainingPayout. rewrite remainingPayout_from; [lia|assumption|lia|lia]. Qed.

Lemma update_best_ge b cur cp cw cv :
  bestPayout b <= bestPayout (update_best b cur cp cw cv)
  /\ cp <= bestPayout (update_best b cur cp cw cv).
Proof. unfold update_best. destruct (cp >? bestPayout b) eqn:E; simpl; lia. Qed.

Lemma update_best_checker b cur cp cw cv :
  b_checker (update_best b cur cp cw cv) = b_checker b.
Proof. unfold update_best. destruct (_ >? _); reflexivity. Qed.

Lemma backtrack_from_mono rest : forall b truck cur cp cw cv,
  bestPayout b <= bestPayout (backtrack_from b truck rest cur cp cw cv).
Proof.
  induction rest as [|o rest IH]; intros b truck cur cp cw cv; simpl.
  - apply update_best_ge.
  - pose proof (update_best_ge b cur cp cw cv) as [Hge _].
    destruct (_ <=? _); [exact Hge|].
    etransitivity; [|apply IH].
    destruct (_ && _); [|exact Hge].
    destruct (forallb _ _); [|exact Hge].
    etransitivity; [exact Hge|apply IH].
Qed.

Section backtracking.

Variable truck : Truck.
Variable all : list Order.
Hypothesis Hbound : bounded_input truck all.
Hypothesis Hfits :
  Forall (fun o => WeightLbs o <= MaxWeightLbs truck /\ VolumeCuft o <= MaxVolumeCuft truck) all.

Lemma update_best_inv b cur rest cp cw cv :
  best_inv truck all b -> cur_inv truck all cur rest cp cw cv -> best_inv truck all (update_best b cur cp cw cv).
Proof.
  intros Hb (-> & -> & -> & HW & HV & Hpw & Hsub). unfold update_best.
  destruct (_ >? _); [|exact Hb]. destruct Hb as (Hc & _).
  repeat split; simpl; try assumption.
  etransitivity; [|exact Hsub]. apply submseteq_inserts_r. reflexivity.
Qed.

(** The facts about one more order [o] that keep the sums within range. *)
Lemma cur_step_bounds cur o rest cp cw cv :
  cur_inv truck all cur (o :: rest) cp cw cv ->
  0 <= Payout o /\ 0 <= WeightLbs o <= MaxWeightLbs truck
  /\ 0 <= VolumeCuft o <= MaxVolumeCuft truck
  /\ 0 <= cp /\ 0 <= cw <= MaxWeightLbs truck /\ 0 <= cv <= MaxVolumeCuft truck
  /\ Forall order_nonneg (o :: rest)
  /\ 0 <= sumPayout rest
  /\ cp + sumPayout (o :: rest) <= max_int64
  /\ cp + Payout o + sumPayout rest <= max_int64.
Proof.
  intros (-> & -> & -> & HW & HV & Hpw & Hsub).
  destruct Hbound as (HbW & HbV & Hnn & Hsum).
  pose proof (Forall_submseteq _ _ _ Hnn Hsub) as Hnn'.
  apply Forall_app in Hnn' as [Hn1 Hn2].
  assert (Hin : o ∈ all).
  { eapply elem_of_submseteq; [|exact Hsub]. apply elem_of_app. right. left. }
  pose proof (proj1 (Forall_forall _ _) Hfits _ Hin) as (Hw1 & Hv1).
  inversion Hn2 as [|? ? (Hp0 & Hw0 & Hv0) _]; subst.
  pose proof (sumPayout_submseteq _ _ Hnn Hsub) as Hs. rewrite sumPayout_app in Hs.
  pose proof (sumPayout_nonneg _ Hn1). pose proof (sumWeight_nonneg _ Hn1).
  pose proof (sumVolume_nonneg _ Hn1).
  pose proof (sumPayout_nonneg _ (Forall_inv_tail Hn2)).
  simpl in Hs |- *.
  repeat split; try assumption; lia.
Qed.

Lemma cur_inv_exclude cur o rest cp cw cv :
  cur_inv truck all cur (o :: rest) cp cw cv -> cur_inv truck all cur rest cp cw cv.
Proof.
  intros (-> & -> & -> & HW & HV & Hpw & Hsub). repeat split; try assumption.
  etransitivity; [|exact Hsub]. apply submseteq_app; [reflexivity|].
  apply submseteq_cons. reflexivity.
Qed.

Lemma cur_inv_include cur o rest cp cw cv :
  cur_inv truck all cur (o :: rest) cp cw cv ->
  cw + WeightLbs o <= MaxWeightLbs truck ->
  cv + VolumeCuft o <= MaxVolumeCuft truck ->
  forallb (fun selected => DefaultConstraintChecker.CanCombine o selected) cur = true ->
  cur_inv truck all (cur ++ [o]) rest (cp + Payout o) (cw + WeightLbs o) (cv + VolumeCuft o).
Proof.
  intros (-> & -> & -> & HW & HV & Hpw & Hsub) Hw Hv Hc.
  unfold cur_inv. rewrite sumPayout_app, sumWeight_app, sumVolume_app. simpl.
  rewrite (pairwise_snoc _ DefaultCanCombine_sym), Hpw, Hc, <- app_assoc.
  repeat split; try lia. exact Hsub.
Qed.

Lemma backtrack_from_inv rest : forall b cur cp cw cv,
  best_inv truck all b -> cur_inv truck all cur rest cp cw cv ->
  best_inv truck all (backtrack_from b truck rest cur cp cw cv).
Proof.
  induction rest as [|o rest IH]; intros b cur cp cw cv Hb Hc; simpl.
  - eapply update_best_inv; eassumption.
  - pose proof (update_best_inv _ _ _ _ _ _ Hb Hc) as Hb1.
    pose proof (cur_step_bounds _ _ _ _ _ _ Hc)
      as (Hp0 & Hw & Hv & Hcp & Hcw & Hcv & Hnn & Hrest0 & Hsum & Hsum').
    destruct Hbound as (HbW & HbV & _).
    destruct (_ <=? bestPayout _); [exact Hb1|].
    apply IH; [|eapply cur_inv_exclude; exact Hc].
    rewrite !add64_id by int64_lia.
    destruct (_ && _) eqn:Hfit; [|exact Hb1].
    apply andb_true_iff in Hfit as [Hf1 Hf2].
    rewrite update_best_checker, (proj1 Hb). simpl.
    destruct (forallb _ cur) eqn:Hcomp; [|exact Hb1].
    apply IH; [exact Hb1|]. apply cur_inv_include; try assumption; lia.
Qed.

Lemma backtrack_from_complete rest : forall b cur cp cw cv s,
  best_inv truck all b -> cur_inv truck all cur rest cp cw cv ->
  s `sublist_of` rest ->
  sumWeight (cur ++ s) <= MaxWeightLbs truck ->
  sumVolume (cur ++ s) <= MaxVolumeCuft truck ->
  pairwise DefaultConstraintChecker.CanCombine (cur ++ s) = true ->
  sumPayout (cur ++ s) <= bestPayout (backtrack_from b truck rest cur cp cw cv).
Proof.
  induction rest as [|o rest IH]; intros b cur cp cw cv s Hb Hc Hs HW HV Hpw; simpl.
  - apply sublist_nil_r in Hs as ->. rewrite app_nil_r.
    destruct Hc as (<- & _). apply update_best_ge.
  - pose proof (update_best_inv _ _ _ _ _ _ Hb Hc) as Hb1.
    pose proof (update_best_ge b cur cp cw cv) as [_ Hge].
    pose proof (cur_step_bounds _ _ _ _ _ _ Hc)
      as (Hp0 & Hw & Hv & Hcp & Hcw & Hcv & Hnn & Hrest0 & Hsum & Hsum').
    destruct Hbound as (HbW & HbV & _).
    assert (Hrem : remainingPayout (o :: rest) = sumPayout (o :: rest)).
    { apply remainingPayout_sum; [exact Hnn|lia]. }
    assert (Hall0 : 0 <= sumPayout (o :: rest)) by (simpl; lia).
    rewrite Hrem, !add64_id by int64_lia.
    destruct (_ <=? bestPayout _) eqn:Hprune.
    + apply Z.leb_le in Hprune. etransitivity; [|exact Hprune].
      rewrite sumPayout_app. destruct Hc as (<- & _).
      pose proof (sumPayout_submseteq _ _ Hnn (sublist_submseteq _ _ Hs)) as Hle. lia.
    + apply sublist_cons_r in Hs as [Hs|(s' & -> & Hs)].
      * apply IH; try assumption; [|eapply cur_inv_exclude; exact Hc].
        destruct (_ && _) eqn:Hfit; [|exact Hb1].
        apply andb_true_iff in Hfit as [Hf1 Hf2].
        rewrite update_best_checker, (proj1 Hb). simpl.
        destruct (forallb _ cur) eqn:Hcomp; [|exact Hb1].
        apply backtrack_from_inv; [exact Hb1|].
        apply cur_inv_include; try assumption; lia.
      * etransitivity; [|apply backtrack_from_mono].
        assert (Hs0 : Forall order_nonneg s').
        { eapply Forall_submseteq; [exact (Forall_inv_tail Hnn)|].
          apply sublist_submseteq, Hs. }
        pose proof (sumWeight_nonneg _ Hs0). pose proof (sumVolume_nonneg _ Hs0).
        rewrite sumWeight_app in HW. rewrite sumVolume_app in HV. simpl in HW, HV.
        assert (Hcw' : cw = sumWeight cur) by apply Hc.
        assert (Hcv' : cv = sumVolume cur) by apply Hc.
        assert (Hf1 : (cw + WeightLbs o <=? MaxWeightLbs truck) = true)
          by (apply Z.leb_le; lia).
        assert (Hf2 : (cv + VolumeCuft o <=? MaxVolumeCuft truck) = true)
          by (apply Z.leb_le; lia).
        rewrite Hf1, Hf2. simpl.
        rewrite update_best_checker, (proj1 Hb). simpl.
        assert (Hcomp : forallb (fun selected =>
                  DefaultConstraintChecker.CanCombine o selected) cur = true).
        { apply forallb_forall. intros x Hx. rewrite DefaultCanCombine_sym.
          eapply pairwise_app_elim; [exact Hpw|exact Hx|left; reflexivity]. }
        rewrite Hcomp.
        replace (cur ++ o :: s') with ((cur ++ [o]) ++ s')
          in * by (rewrite <- app_assoc; reflexivity).
        apply IH; try assumption.
        -- apply cur_inv_include; try assumption; lia.
        -- rewrite sumWeight_app, sumWeight_app. simpl. lia.
        -- rewrite sumVolume_app, sumVolume_app. simpl. lia.
Qed.

End backtracking.

(** What the backtracking solver returns, and that no feasible selection
    pays more. *)
Lemma Backtracking_sound truck orders :
  bounded_input truck orders ->
  let r := BacktrackingOptimizer_Optimize NewBacktrackingOptimizer truck orders in
  consistent r /\ feasible truck (SelectedOrders r)
  /\ SelectedOrders r ⊆+ FilterFeasibleOrders truck orders.
Proof.
  intros Hb. pose proof (bounded_input_Filter _ _ Hb) as Hb'.
  unfold BacktrackingOptimizer_Optimize, backtrack. rewrite drop_0.
  match goal with |- context [backtrack_from ?b _ _ _ _ _ _] =>
    pose proof (backtrack_from_inv truck _ Hb' (Filter_fits truck orders)
                  (FilterFeasibleOrders truck orders) b [] 0 0 0) as H end.
  destruct Hb as (? & ? & _).
  destruct H as (_ & HP & HW & HV & HcW & HcV & Hpw & Hsub).
  - repeat split; simpl; try lia. apply submseteq_nil_l.
  - repeat split; simpl; try lia. reflexivity.
  - simpl. repeat split; try assumption.
    rewrite ValidateOrderSet_pairwise. exact Hpw.
Qed.

Lemma Backtracking_optimal truck orders s :
  bounded_input truck orders ->
  s ⊆+ FilterFeasibleOrders truck orders -> feasible truck s ->
  sumPayout s <=
  TotalPayout (BacktrackingOptimizer_Optimize NewBacktrackingOptimizer truck orders).
Proof.
  intros Hb Hs (HW & HV & Hpw). pose proof (bounded_input_Filter _ _ Hb) as Hb'.
  rewrite ValidateOrderSet_pairwise in Hpw.
  apply submseteq_sublist_r in Hs as (s' & Hp & Hs').
  rewrite (sumPayout_perm _ _ Hp). rewrite (sumWeight_perm _ _ Hp) in HW.
  rewrite (sumVolume_perm _ _ Hp) in HV.
  rewrite (pairwise_perm _ DefaultCanCombine_sym _ _ Hp) in Hpw.
  unfold BacktrackingOptimizer_Optimize, backtrack. rewrite drop_0. simpl.
  destruct Hb as (? & ? & _).
  apply (backtrack_from_complete truck _ Hb' (Filter_fits truck orders)
           (FilterFeasibleOrders truck orders) _ [] 0 0 0 s'); try assumption.
  - repeat split; simpl; try lia. apply submseteq_nil_l.
  - repeat split; simpl; try lia. reflexivity.
Qed.

(** ** Bit masks *)

Arguments bit_set : simpl never.

Lemma bit_set_testbit (m i : nat) : bit_set m i = Nat.testbit m i.
Proof.
  unfold bit_set. rewrite Nat.shiftl_1_l.
  destruct (Nat.testbit m i) eqn:E.
  - apply negb_true_iff, Nat.eqb_neq. intros H0.
    assert (Hb : Nat.testbit (Nat.land m (2 ^ i)) i = true)
      by (rewrite Nat.land_spec, E, Nat.pow2_bits_true; reflexivity).
    rewrite H0, Nat.bits_0 in Hb. discriminate.
  - apply negb_false_iff, Nat.eqb_eq, Nat.bits_inj. intros k.
    rewrite Nat.land_spec, Nat.bits_0, Nat.pow2_bits_eqb.
    destruct (Nat.eqb_spec i k) as [->|_]; [rewrite E|]; auto using andb_false_r.
Qed.

Lemma land_zero_iff (a b : nat) :
  Nat.land a b = 0%nat <-> forall k, Nat.testbit a k = true -> Nat.testbit b k = false.
Proof.
  split.
  - intros H k Ha. assert (Hk : Nat.testbit (Nat.land a b) k = false)
      by (rewrite H; apply Nat.bits_0).
    rewrite Nat.land_spec, Ha in Hk. exact Hk.
  - intros H. apply Nat.bits_inj. intros k. rewrite Nat.land_spec, Nat.bits_0.
    destruct (Nat.testbit a k) eqn:Ha; [rewrite (H k Ha)|]; reflexivity.
Qed.

Lemma testbit_above (m n k : nat) : (m < 2 ^ n)%nat -> (n <= k)%nat -> Nat.testbit m k = false.
Proof.
  intros Hm Hk. destruct (Nat.eq_dec m 0%nat) as [->|Hm0]; [apply Nat.bits_0|].
  apply Nat.bits_above_log2. apply Nat.log2_lt_pow2 in Hm; lia.
Qed.

Lemma lor_pow_lt (m n i : nat) : (m < 2 ^ n)%nat -> (i < n)%nat -> (Nat.lor m (2 ^ i) < 2 ^ n)%nat.
Proof.
  intros Hm Hi.
  assert (Hpos : (0 < Nat.lor m (2 ^ i))%nat).
  { destruct (Nat.eq_dec (Nat.lor m (2 ^ i)) 0%nat) as [H0|]; [|lia].
    assert (Hb : Nat.testbit (Nat.lor m (2 ^ i)) i = true)
      by (rewrite Nat.lor_spec, Nat.pow2_bits_true; apply orb_true_r).
    rewrite H0, Nat.bits_0 in Hb. discriminate. }
  apply Nat.log2_lt_pow2; [exact Hpos|].
  rewrite Nat.log2_lor, Nat.log2_pow2 by lia.
  destruct (Nat.eq_dec m 0%nat) as [->|Hm0]; [simpl; lia|].
  apply Nat.log2_lt_pow2 in Hm; lia.
Qed.

Lemma lor_pow_add (m i : nat) :
  Nat.testbit m i = false -> Nat.lor m (2 ^ i) = (m + 2 ^ i)%nat.
Proof.
  intros Hb. assert (H0 : Nat.land m (2 ^ i) = 0%nat).
  { apply land_zero_iff. intros k Hk. rewrite Nat.pow2_bits_eqb.
    destruct (Nat.eqb_spec i k) as [->|]; congruence. }
  rewrite <- (Nat.lxor_lor _ _ H0). symmetry. apply Nat.add_nocarry_lxor, H0.
Qed.

Lemma lor_pow_gt (m i : nat) : Nat.testbit m i = false -> (m < Nat.lor m (2 ^ i))%nat.
Proof.
  intros Hb. rewrite (lor_pow_add _ _ Hb).
  pose proof (Nat.pow_nonzero 2 i). lia.
Qed.

(** Every table access of the sweep stays in range: for a state [mask] of
    the table and an order index [i], [mask | (1 << i)] is again a state. *)
Lemma newMask_in_range (mask n i : nat) :
  (mask < Nat.shiftl 1 n)%nat -> (i < n)%nat ->
  (Nat.lor mask (Nat.shiftl 1 i) < Nat.shiftl 1 n)%nat.
Proof. rewrite !Nat.shiftl_1_l. apply lor_pow_lt. Qed.

Lemma testbit_lor_pow (m i k : nat) :
  Nat.testbit (Nat.lor m (2 ^ i)) k = Nat.testbit m k || (i =? k)%nat.
Proof. rewrite Nat.lor_spec, Nat.pow2_bits_eqb. reflexivity. Qed.

(** ** extractOrders *)

Lemma extractOrders_from_ext (l : list Order) : forall i m m',
  (forall k, (i <= k < i + length l)%nat -> Nat.testbit m k = Nat.testbit m' k) ->
  extractOrders_from i m l = extractOrders_from i m' l.
Proof.
  induction l as [|x l IH]; intros i m m' H; simpl; [reflexivity|].
  rewrite !bit_set_testbit, (H i) by (simpl; lia).
  rewrite (IH (S i) m m') by (intros k Hk; apply H; simpl; lia). reflexivity.
Qed.

Lemma extractOrders_from_zero (l : list Order) : forall i, extractOrders_from i 0 l = [].
Proof.
  induction l as [|x l IH]; intros i; cbn [extractOrders_from]; [reflexivity|].
  rewrite bit_set_testbit, Nat.bits_0. apply IH.
Qed.

Lemma extractOrders_from_sublist (l : list Order) : forall i m,
  extractOrders_from i m l `sublist_of` l.
Proof.
  induction l as [|x l IH]; intros i m; simpl; [constructor|].
  destruct (bit_set m i); [apply sublist_skip|apply sublist_cons]; apply IH.
Qed.

Lemma extractOrders_from_In (l : list Order) : forall i m x,
  In x (extractOrders_from i m l) <->
  exists j, l !! j = Some x /\ Nat.testbit m (i + j) = true.
Proof.
  induction l as [|y l IH]; intros i m x; simpl.
  - split; [contradiction|]. intros (j & Hj & _). discriminate.
  - rewrite bit_set_testbit. split.
    + destruct (Nat.testbit m i) eqn:E.
      * intros [->|Hx].
        -- exists 0%nat. rewrite Nat.add_0_r. auto.
        -- apply IH in Hx as (j & Hj & Hb). exists (S j).
           rewrite Nat.add_succ_r. auto.
      * intros Hx. apply IH in Hx as (j & Hj & Hb). exists (S j).
        rewrite Nat.add_succ_r. auto.
    + intros ([|j] & Hj & Hb).
      * rewrite Nat.add_0_r in Hb. rewrite Hb. simpl in Hj. left. congruence.
      * rewrite Nat.add_succ_r in Hb. simpl in Hj.
        assert (Hx : In x (extractOrders_from (S i) m l)) by (apply IH; eauto).
        destruct (Nat.testbit m i); [right|]; exact Hx.
Qed.

Lemma extractOrders_from_setbit (l : list Order) : forall i m j o,
  l !! j = Some o -> Nat.testbit m (i + j) = false ->
  extractOrders_from i (Nat.lor m (2 ^ (i + j))) l ≡ₚ o :: extractOrders_from i m l.
Proof.
  induction l as [|x l IH]; intros i m j o Hj Hb; [discriminate|]. simpl.
  rewrite !bit_set_testbit, testbit_lor_pow. destruct j as [|j]; simpl in Hj.
  - injection Hj as ->. rewrite Nat.add_0_r in *. rewrite Hb, Nat.eqb_refl. simpl.
    rewrite (extractOrders_from_ext l (S i) _ m); [reflexivity|].
    intros k Hk. rewrite testbit_lor_pow.
    destruct (Nat.eqb_spec i k); [lia|apply orb_false_r].
  - rewrite Nat.add_succ_r in *.
    destruct (Nat.eqb_spec (S (i + j)) i); [lia|]. rewrite orb_false_r.
    specialize (IH (S i) m j o Hj Hb). simpl in IH.
    destruct (Nat.testbit m i); rewrite IH; [apply perm_swap|reflexivity].
Qed.

Lemma extractOrders_setbit (l : list Order) m i :
  (i < length l)%nat -> Nat.testbit m i = false ->
  extractOrders (Nat.lor m (2 ^ i)) l ≡ₚ (l !!! i) :: extractOrders m l.
Proof.
  intros Hi Hb. apply (extractOrders_from_setbit l 0 m i); [|exact Hb].
  apply list_lookup_lookup_total_lt, Hi.
Qed.

Lemma extractOrders_In (l : list Order) m j :
  (j < length l)%nat -> Nat.testbit m j = true -> In (l !!! j) (extractOrders m l).
Proof.
  intros Hj Hb. apply extractOrders_from_In. exists j.
  split; [apply list_lookup_lookup_total_lt, Hj|exact Hb].
Qed.

Lemma In_extractOrders (l : list Order) m x :
  In x (extractOrders m l) ->
  exists j, (j < length l)%nat /\ l !!! j = x /\ Nat.testbit m j = true.
Proof.
  intros Hx. apply extractOrders_from_In in Hx as (j & Hj & Hb).
  exists j. repeat split; [eapply lookup_lt_Some; exact Hj| |exact Hb].
  apply list_lookup_total_correct, Hj.
Qed.

(** ** DPOptimizer: the incompatibility masks *)

Lemma existsb_eqb_seq (k n : nat) : existsb (Nat.eqb k) (seq 0 n) = (k <? n)%nat.
Proof.
  destruct (Nat.ltb_spec k n) as [H|H].
  - apply existsb_exists. exists k. split; [apply in_seq; lia|apply Nat.eqb_refl].
  - apply not_true_is_false. intros He. apply existsb_exists in He as (x & Hx & Hk).
    apply in_seq in Hx. apply Nat.eqb_eq in Hk. lia.
Qed.

Lemma fold_lor_testbit (c : nat -> bool) (l : list nat) : forall acc k,
  Nat.testbit
    (fold_left (fun acc j => if c j then Nat.lor acc (Nat.shiftl 1 j) else acc) l acc) k
  = Nat.testbit acc k || (c k && existsb (Nat.eqb k) l).
Proof.
  induction l as [|j l IH]; intros acc k; simpl.
  - rewrite andb_false_r, orb_false_r. reflexivity.
  - rewrite IH. destruct (c j) eqn:Hj.
    + rewrite Nat.shiftl_1_l, testbit_lor_pow, (Nat.eqb_sym k j).
      destruct (Nat.eqb_spec j k) as [->|_].
      * rewrite Hj. simpl. rewrite !orb_true_r. reflexivity.
      * simpl. rewrite orb_false_r. reflexivity.
    + destruct (Nat.eqb_spec k j) as [->|_]; [rewrite Hj|]; reflexivity.
Qed.

Lemma incompatibleRow_testbit dp (orders : list Order) (n i k : nat) :
  Nat.testbit (incompatibleRow dp orders n i) k
  = negb (i =? k)%nat
    && negb (CanCombine (dp_checker dp) (orders !!! i) (orders !!! k))
    && (k <? n)%nat.
Proof.
  unfold incompatibleRow.
  rewrite (fold_lor_testbit
             (fun j => negb (i =? j)%nat
                       && negb (CanCombine (dp_checker dp) (orders !!! i) (orders !!! j)))).
  rewrite Nat.bits_0, existsb_eqb_seq. reflexivity.
Qed.

Lemma incompatibleMasks_lookup dp (orders : list Order) (n i : nat) :
  (i < n)%nat -> incompatibleMasks dp orders n !!! i = incompatibleRow dp orders n i.
Proof.
  intros Hi. unfold incompatibleMasks.
  rewrite list_lookup_total_alt, list_lookup_fmap, lookup_seq_lt by exact Hi.
  reflexivity.
Qed.

Lemma compat_check dp (orders : list Order) (n m i : nat) :
  (i < n)%nat ->
  Nat.land m (incompatibleMasks dp orders n !!! i) = 0%nat <->
  forall j, (j < n)%nat -> j <> i -> Nat.testbit m j = true ->
            CanCombine (dp_checker dp) (orders !!! i) (orders !!! j) = true.
Proof.
  intros Hi. rewrite incompatibleMasks_lookup by exact Hi. rewrite land_zero_iff.
  split.
  - intros H j Hj Hne Hb. specialize (H j Hb).
    rewrite incompatibleRow_testbit in H.
    destruct (Nat.eqb_spec i j); [congruence|].
    destruct (Nat.ltb_spec j n); [|lia].
    destruct (CanCombine _ _ _); [reflexivity|discriminate].
  - intros H k Hb. rewrite incompatibleRow_testbit.
    destruct (Nat.eqb_spec i k) as [->|Hne]; [reflexivity|].
    destruct (Nat.ltb_spec k n) as [Hk|Hk]; [|apply andb_false_r].
    rewrite (H k Hk) by (auto; congruence). reflexivity.
Qed.

(** ** DPOptimizer: reachable subsets *)

Section dp.

Variable truck : Truck.
Variable all : list Order.
Hypothesis Hbound : bounded_input truck all.
Hypothesis Hfits :
  Forall (fun o => WeightLbs o <= MaxWeightLbs truck /\ VolumeCuft o <= MaxVolumeCuft truck) all.

Local Abbreviation n := (length all).
Local Abbreviation cc := DefaultConstraintChecker.CanCombine.
Local Abbreviation reach := (reachable DefaultConstraintChecker.CanCombine truck all).

Lemma mask_sums_bounds m :
  0 <= maskPayout all m <= sumPayout all
  /\ 0 <= maskWeight all m /\ 0 <= maskVolume all m.
Proof.
  destruct Hbound as (_ & _ & Hnn & _).
  pose proof (sublist_submseteq _ _ (extractOrders_from_sublist all 0 m)) as Hs.
  pose proof (Forall_submseteq _ _ _ Hnn Hs) as Hn'.
  unfold maskPayout, maskWeight, maskVolume, extractOrders.
  pose proof (sumPayout_nonneg _ Hn'). pose proof (sumWeight_nonneg _ Hn').
  pose proof (sumVolume_nonneg _ Hn').
  pose proof (sumPayout_submseteq _ _ Hnn Hs). lia.
Qed.

Lemma mask_insert_sums m i :
  (i < n)%nat -> Nat.testbit m i = false ->
  maskPayout all (Nat.lor m (2 ^ i)) = maskPayout all m + Payout (all !!! i)
  /\ maskWeight all (Nat.lor m (2 ^ i)) = maskWeight all m + WeightLbs (all !!! i)
  /\ maskVolume all (Nat.lor m (2 ^ i)) = maskVolume all m + VolumeCuft (all !!! i).
Proof.
  intros Hi Hb. pose proof (extractOrders_setbit all m i Hi Hb) as Hp.
  unfold maskPayout, maskWeight, maskVolume.
  rewrite (sumPayout_perm _ _ Hp), (sumWeight_perm _ _ Hp), (sumVolume_perm _ _ Hp).
  simpl. lia.
Qed.

Lemma order_bounds i :
  (i < n)%nat ->
  0 <= Payout (all !!! i)
  /\ 0 <= WeightLbs (all !!! i) <= MaxWeightLbs truck
  /\ 0 <= VolumeCuft (all !!! i) <= MaxVolumeCuft truck.
Proof.
  intros Hi. destruct Hbound as (_ & _ & Hnn & _).
  assert (Hin : all !!! i ∈ all).
  { apply list_elem_of_lookup. exists i. apply list_lookup_lookup_total_lt, Hi. }
  pose proof (proj1 (Forall_forall _ _) Hnn _ Hin) as (? & ? & ?).
  pose proof (proj1 (Forall_forall _ _) Hfits _ Hin) as (? & ?). lia.
Qed.

Lemma reachable_lt m : reach m -> (m < 2 ^ n)%nat.
Proof.
  induction 1 as [|m i _ IH (Hi & _)].
  - pose proof (Nat.pow_nonzero 2 n). lia.
  - apply lor_pow_lt; assumption.
Qed.

Lemma reachable_good m :
  reach m ->
  maskWeight all m <= MaxWeightLbs truck
  /\ maskVolume all m <= MaxVolumeCuft truck
  /\ pairwise cc (extractOrders m all) = true.
Proof.
  induction 1 as [|m i _ (IHW & IHV & IHp) (Hi & Hb & Hc & HW & HV)].
  - destruct Hbound as (? & ? & _).
    unfold maskWeight, maskVolume, extractOrders.
    rewrite extractOrders_from_zero. simpl. repeat split; try lia.
  - destruct (mask_insert_sums m i Hi Hb) as (_ & -> & ->).
    repeat split; try assumption.
    rewrite (pairwise_perm _ DefaultCanCombine_sym _ _ (extractOrders_setbit all m i Hi Hb)).
    simpl. rewrite IHp, andb_true_r. apply forallb_forall. intros x Hx.
    apply In_extractOrders in Hx as (j & Hj & <- & Hbj). apply Hc; assumption.
Qed.

(** *** The tables of the sweep *)

Local Abbreviation M := (2 ^ length all)%nat.
Let im : list nat := incompatibleMasks NewDPOptimizer all n.

Lemma dp_relax_cases t m i cw cv :
  dp_relax truck all im m cw cv t i = t
  \/ (Nat.testbit m i = false
      /\ Nat.land m (im !!! i) = 0%nat
      /\ add64 cw (WeightLbs (all !!! i)) <= MaxWeightLbs truck
      /\ add64 cv (VolumeCuft (all !!! i)) <= MaxVolumeCuft truck
      /\ dp_relax truck all im m cw cv t i
         = {| dpPayout := <[Nat.lor m (2 ^ i) := add64 (dpPayout t !!! m) (Payout (all !!! i))]>
                            (dpPayout t);
              dpWeight := <[Nat.lor m (2 ^ i) := add64 cw (WeightLbs (all !!! i))]> (dpWeight t);
              dpVolume := <[Nat.lor m (2 ^ i) := add64 cv (VolumeCuft (all !!! i))]> (dpVolume t);
              dpValid := <[Nat.lor m (2 ^ i) := true]> (dpValid t) |}).
Proof.
  unfold dp_relax. rewrite bit_set_testbit, Nat.shiftl_1_l.
  destruct (Nat.testbit m i) eqn:Hb; [left; reflexivity|].
  destruct (Nat.eqb_spec (Nat.land m (im !!! i)) 0) as [H0|_]; [|left; reflexivity].
  simpl negb. cbv iota.
  destruct (add64 cw _ >? _) eqn:HW; [left; reflexivity|].
  destruct (add64 cv _ >? _) eqn:HV; [left; reflexivity|].
  simpl orb. cbv iota.
  destruct (negb _ || _); [|left; reflexivity].
  right. repeat split; try assumption; lia.
Qed.

Lemma insertable_of_checks m i :
  reach m -> (i < n)%nat -> Nat.testbit m i = false ->
  Nat.land m (im !!! i) = 0%nat ->
  add64 (maskWeight all m) (WeightLbs (all !!! i)) <= MaxWeightLbs truck ->
  add64 (maskVolume all m) (VolumeCuft (all !!! i)) <= MaxVolumeCuft truck ->
  insertable cc truck all m i.
Proof.
  intros Hr Hi Hb H0 HW HV.
  destruct (reachable_good m Hr) as (HmW & HmV & _).
  destruct (mask_sums_bounds m) as (_ & HW0 & HV0).
  destruct (order_bounds i Hi) as (_ & Hw & Hv).
  destruct Hbound as (HbW & HbV & _).
  rewrite add64_id in HW, HV by int64_lia.
  repeat split; try assumption.
  intros j Hj Hbj. apply (proj1 (compat_check NewDPOptimizer all n m i Hi) H0 j Hj);
    [congruence|exact Hbj].
Qed.

Lemma dp_relax_ok t m i :
  tables_ok truck all t -> (m < M)%nat -> dpValid t !!! m = true -> (i < n)%nat ->
  tables_ok truck all (dp_relax truck all im m (maskWeight all m) (maskVolume all m) t i).
Proof.
  intros Ht Hm Hv Hi.
  destruct (dp_relax_cases t m i (maskWeight all m) (maskVolume all m))
    as [->|(Hb & H0 & HW & HV & ->)]; [exact Ht|].
  destruct Ht as (L1 & L2 & L3 & L4 & Ht).
  destruct (Ht m Hm Hv) as (Hr & HP & _).
  pose proof (insertable_of_checks m i Hr Hi Hb H0 HW HV) as Hins.
  assert (Hr' : reach (Nat.lor m (2 ^ i))) by (constructor; assumption).
  pose proof (reachable_lt _ Hr') as Hlt.
  destruct (mask_insert_sums m i Hi Hb) as (EP & EW & EV).
  destruct (mask_sums_bounds (Nat.lor m (2 ^ i))) as (HP' & HW' & HV').
  destruct (mask_sums_bounds m) as (HP0 & HW0 & HV0).
  destruct (reachable_good _ Hr') as (HgW & HgV & _).
  destruct Hbound as (HbW & HbV & _ & Hsum).
  unfold tables_ok. cbn [dpPayout dpWeight dpVolume dpValid].
  rewrite !length_insert.
  split; [exact L1|]. split; [exact L2|]. split; [exact L3|]. split; [exact L4|].
  intros m0 Hm0 Hv0.
  destruct (Nat.eq_dec (Nat.lor m (2 ^ i)) m0) as [<-|Hne].
  - rewrite !list_lookup_total_insert_eq by lia.
    rewrite HP, !add64_id by int64_lia.
    repeat split; [exact Hr'|lia|lia|lia].
  - rewrite list_lookup_total_insert_ne in Hv0 by exact Hne.
    rewrite !list_lookup_total_insert_ne by exact Hne.
    apply Ht; assumption.
Qed.

Lemma dp_relax_valid_mono t m i cw cv m' :
  dpValid t !!! m' = true -> dpValid (dp_relax truck all im m cw cv t i) !!! m' = true.
Proof.
  intros Hv. destruct (dp_relax_cases t m i cw cv) as [->|(_ & _ & _ & _ & ->)]; [exact Hv|].
  cbn [dpValid]. rewrite list_lookup_total_insert. destruct (decide _); [reflexivity|exact Hv].
Qed.

Lemma dp_relax_hit t m i :
  tables_ok truck all t -> (m < M)%nat -> dpValid t !!! m = true ->
  insertable cc truck all m i ->
  dpValid (dp_relax truck all im m (maskWeight all m) (maskVolume all m) t i)
    !!! Nat.lor m (2 ^ i) = true.
Proof.
  intros Ht Hm Hv Hins. pose proof Hins as (Hi & Hb & Hc & HW & HV).
  destruct Ht as (L1 & L2 & L3 & L4 & Ht).
  destruct (Ht m Hm Hv) as (Hr & _).
  assert (Hr' : reach (Nat.lor m (2 ^ i))) by (constructor; assumption).
  pose proof (reachable_lt _ Hr') as Hlt.
  destruct (mask_sums_bounds m) as (_ & HW0 & HV0).
  destruct (order_bounds i Hi) as (_ & Hw & Hv').
  destruct Hbound as (HbW & HbV & _).
  unfold dp_relax. rewrite bit_set_testbit, Nat.shiftl_1_l, Hb.
  assert (H0 : Nat.land m (im !!! i) = 0%nat).
  { apply compat_check; [exact Hi|]. intros j Hj _ Hbj. apply Hc; assumption. }
  rewrite H0. simpl negb. cbv iota.
  rewrite !add64_id by int64_lia.
  destruct (Z.gtb_spec (maskWeight all m + WeightLbs (all !!! i)) (MaxWeightLbs truck)); [lia|].
  destruct (Z.gtb_spec (maskVolume all m + VolumeCuft (all !!! i)) (MaxVolumeCuft truck)); [lia|].
  simpl orb. cbv iota.
  destruct (dpValid t !!! Nat.lor m (2 ^ i)) eqn:Hv2.
  - simpl negb. destruct (false || _); [|exact Hv2].
    cbn [dpValid]. apply list_lookup_total_insert_eq. lia.
  - simpl. apply list_lookup_total_insert_eq. lia.
Qed.

Lemma dp_visit_ok t m :
  tables_ok truck all t -> (m < M)%nat -> tables_ok truck all (dp_visit truck all im n t m).
Proof.
  intros Ht Hm. unfold dp_visit. destruct (dpValid t !!! m) eqn:Hv; [|exact Ht].
  simpl negb. cbv iota.
  destruct (proj2 (proj2 (proj2 (proj2 Ht))) m Hm Hv) as (_ & _ & -> & ->).
  apply (fold_left_inv (fun t' => tables_ok truck all t' /\ dpValid t' !!! m = true)); [auto|].
  intros t' i Hi [Ht' Hv']. apply in_seq in Hi. split.
  - apply dp_relax_ok; [assumption..|lia].
  - apply dp_relax_valid_mono, Hv'.
Qed.

Lemma dp_visit_valid_mono t m m' :
  dpValid t !!! m' = true -> dpValid (dp_visit truck all im n t m) !!! m' = true.
Proof.
  intros Hv. unfold dp_visit. destruct (negb _); [exact Hv|].
  apply (fold_left_inv (fun t' => dpValid t' !!! m' = true)); [exact Hv|].
  intros t' i _ Hv'. apply dp_relax_valid_mono, Hv'.
Qed.

Lemma dp_visit_hit t m i :
  tables_ok truck all t -> (m < M)%nat -> dpValid t !!! m = true ->
  insertable cc truck all m i ->
  dpValid (dp_visit truck all im n t m) !!! Nat.lor m (2 ^ i) = true.
Proof.
  intros Ht Hm Hv Hins. unfold dp_visit. rewrite Hv. simpl negb. cbv iota.
  destruct (proj2 (proj2 (proj2 (proj2 Ht))) m Hm Hv) as (_ & _ & -> & ->).
  pose proof (fold_left_seq_inv
    (fun j t' => tables_ok truck all t' /\ dpValid t' !!! m = true
                 /\ ((i < j)%nat -> dpValid t' !!! Nat.lor m (2 ^ i) = true))
    (dp_relax truck all im m (maskWeight all m) (maskVolume all m)) n t) as H.
  destruct H as (_ & _ & Hfin).
  - split; [exact Ht|]. split; [exact Hv|]. lia.
  - intros k t' Hk (Ht' & Hv' & Hhit).
    split; [apply dp_relax_ok; assumption|].
    split; [apply dp_relax_valid_mono, Hv'|].
    intros Hik. destruct (Nat.eq_dec i k) as [->|Hne].
    + apply dp_relax_hit; assumption.
    + apply dp_relax_valid_mono, Hhit. lia.
  - apply Hfin, Hins.
Qed.

Lemma M_pos : (0 < M)%nat.
Proof. pose proof (Nat.pow_nonzero 2 n). lia. Qed.

Lemma dp_init_inv : sweep_inv truck all 0 (dp_init M).
Proof.
  pose proof M_pos as HM. unfold sweep_inv, tables_ok, dp_init.
  cbn [dpPayout dpWeight dpVolume dpValid].
  rewrite length_insert, !length_replicate.
  split; [|split].
  - do 4 (split; [reflexivity|]). intros m Hm Hv.
    destruct (Nat.eq_dec m 0%nat) as [->|Hne].
    + rewrite !lookup_total_replicate_2 by lia.
      unfold maskPayout, maskWeight, maskVolume, extractOrders.
      rewrite extractOrders_from_zero. repeat split. constructor.
    + rewrite list_lookup_total_insert_ne, lookup_total_replicate_2 in Hv by lia.
      discriminate.
  - apply list_lookup_total_insert_eq. rewrite length_replicate. lia.
  - intros m i Hm. lia.
Qed.

Lemma reach_valid_at k t : sweep_inv truck all k t -> reach k -> dpValid t !!! k = true.
Proof.
  intros (_ & H0 & Hprev) Hr. inversion Hr as [|m i Hm Hins]; subst.
  - exact H0.
  - apply Hprev; try assumption. apply lor_pow_gt, Hins.
Qed.

Lemma dp_visit_inv k t :
  (k < M)%nat -> sweep_inv truck all k t -> sweep_inv truck all (S k) (dp_visit truck all im n t k).
Proof.
  intros Hk Hinv. pose proof Hinv as (Ht & H0 & Hprev). split; [|split].
  - apply dp_visit_ok; assumption.
  - apply dp_visit_valid_mono, H0.
  - intros m i Hm Hr Hins. destruct (Nat.eq_dec m k) as [->|Hne].
    + apply dp_visit_hit; try assumption. apply reach_valid_at; assumption.
    + apply dp_visit_valid_mono, Hprev; try assumption. lia.
Qed.

Lemma dp_sweep_inv : sweep_inv truck all M (dp_sweep truck all im n M).
Proof.
  unfold dp_sweep. apply (fold_left_seq_inv (sweep_inv truck all)); [exact dp_init_inv|].
  intros k t Hk Hinv. apply dp_visit_inv; assumption.
Qed.

Lemma dp_sweep_complete m : reach m -> dpValid (dp_sweep truck all im n M) !!! m = true.
Proof.
  intros Hr. pose proof dp_sweep_inv as (_ & H0 & Hall).
  pose proof Hr as Hr'.
  inversion Hr' as [|m' i Hm Hins]; subst; [exact H0|].
  apply Hall; try assumption. apply reachable_lt, Hm.
Qed.

(** *** The final scan *)

Lemma dp_best_spec t :
  tables_ok truck all t -> dpValid t !!! 0%nat = true ->
  let best := dp_best t M in
  (snd best < M)%nat
  /\ dpValid t !!! snd best = true
  /\ fst best = dpPayout t !!! snd best
  /\ (forall m, (m < M)%nat -> dpValid t !!! m = true -> dpPayout t !!! m <= fst best)
  /\ (forall m, (m < M)%nat -> dpValid t !!! m = true ->
                dpPayout t !!! m = fst best -> (snd best <= m)%nat).
Proof.
  intros Ht H0. pose proof M_pos as HM. unfold dp_best.
  match goal with |- context [fold_left ?f _ ?a] =>
    pose proof (fold_left_seq_inv
      (fun k best =>
         (snd best < M)%nat /\ (snd best <= k)%nat
         /\ dpValid t !!! snd best = true
         /\ fst best = dpPayout t !!! snd best
         /\ (forall m, (m < k)%nat -> dpValid t !!! m = true -> dpPayout t !!! m <= fst best)
         /\ (forall m, (m < k)%nat -> dpValid t !!! m = true ->
                       dpPayout t !!! m = fst best -> (snd best <= m)%nat))
      f M a) as H end.
  destruct H as (H1 & _ & H3 & H4 & H5 & H6).
  - simpl. repeat split; try lia; try assumption.
    destruct (proj2 (proj2 (proj2 (proj2 Ht))) 0%nat HM H0) as (_ & -> & _).
    unfold maskPayout, extractOrders. rewrite extractOrders_from_zero. reflexivity.
  - intros k [bp bm] Hk (I1 & I2 & I3 & I4 & I5 & I6). simpl in *.
    destruct (dpValid t !!! k) eqn:Hv; simpl.
    + destruct (Z.gtb_spec (dpPayout t !!! k) bp) as [Hgt|Hle]; simpl.
      * repeat split; try lia; try assumption.
        -- intros m Hm Hvm. destruct (Nat.eq_dec m k) as [->|]; [lia|].
           specialize (I5 m ltac:(lia) Hvm). lia.
        -- intros m Hm Hvm Heq. destruct (Nat.eq_dec m k) as [->|]; [lia|].
           specialize (I5 m ltac:(lia) Hvm). lia.
      * repeat split; try lia; try assumption.
        -- intros m Hm Hvm. destruct (Nat.eq_dec m k) as [->|]; [lia|].
           apply I5; [lia|assumption].
        -- intros m Hm Hvm Heq. destruct (Nat.eq_dec m k) as [->|]; [lia|].
           apply I6; [lia|assumption..].
    + repeat split; try lia; try assumption.
      * intros m Hm Hvm. destruct (Nat.eq_dec m k) as [->|]; [congruence|].
        apply I5; [lia|assumption].
      * intros m Hm Hvm Heq. destruct (Nat.eq_dec m k) as [->|]; [congruence|].
        apply I6; [lia|assumption..].
  - repeat split; assumption.
Qed.

(** The outcome of sweep and scan: the least reachable mask of greatest
    payout, with the sums of its subset. *)
Lemma dp_core_spec :
  let t := dp_sweep truck all im n M in
  let best := dp_best t M in
  reach (snd best)
  /\ fst best = maskPayout all (snd best)
  /\ dpWeight t !!! snd best = maskWeight all (snd best)
  /\ dpVolume t !!! snd best = maskVolume all (snd best)
  /\ (forall m, reach m -> maskPayout all m <= fst best)
  /\ (forall m, reach m -> maskPayout all m = fst best -> (snd best <= m)%nat).
Proof.
  intros t best. pose proof dp_sweep_inv as (Ht & H0 & _).
  destruct (dp_best_spec t Ht H0) as (B1 & B2 & B3 & B4 & B5). fold best in B1, B2, B3, B4, B5.
  pose proof (proj2 (proj2 (proj2 (proj2 Ht)))) as Hok.
  destruct (Hok _ B1 B2) as (Hr & HP & HW & HV).
  split; [exact Hr|]. split; [rewrite B3; exact HP|].
  split; [exact HW|]. split; [exact HV|]. split.
  - intros m Hr'. pose proof (reachable_lt m Hr') as Hlt.
    pose proof (dp_sweep_complete m Hr') as Hv. fold t in Hv.
    destruct (Hok m Hlt Hv) as (_ & <- & _). apply B4; assumption.
  - intros m Hr' Heq. pose proof (reachable_lt m Hr') as Hlt.
    pose proof (dp_sweep_complete m Hr') as Hv. fold t in Hv.
    destruct (Hok m Hlt Hv) as (_ & HPm & _). apply B5; try assumption.
    rewrite <- Heq. exact HPm.
Qed.

(** *** Every feasible selection is a reachable subset *)

Lemma feasible_reachable (k : nat) : forall s,
  (k <= n)%nat -> s `sublist_of` take k all ->
  sumWeight s <= MaxWeightLbs truck -> sumVolume s <= MaxVolumeCuft truck ->
  pairwise cc s = true ->
  exists m, (m < 2 ^ k)%nat /\ reach m /\ extractOrders m all ≡ₚ s.
Proof.
  induction k as [|k IH]; intros s Hk Hs HW HV Hpw.
  - rewrite take_0 in Hs. apply sublist_nil_r in Hs as ->.
    exists 0%nat. split; [simpl; lia|]. split; [constructor|].
    unfold extractOrders. rewrite extractOrders_from_zero. reflexivity.
  - destruct (lookup_lt_is_Some_2 all k ltac:(lia)) as [o Ho].
    rewrite (take_S_r _ _ _ Ho) in Hs.
    apply sublist_app_r in Hs as (s1 & s2 & -> & Hs1 & Hs2).
    apply sublist_cons_r in Hs2 as [Hs2|(s2' & -> & Hs2)];
      apply sublist_nil_r in Hs2 as ->.
    + rewrite app_nil_r in *. destruct (IH s1) as (m & Hm & Hr & Hp); try assumption; [lia|].
      exists m. split; [|auto]. rewrite Nat.pow_succ_r'. lia.
    + pose proof (list_lookup_total_correct _ _ _ Ho) as Eo.
      destruct (order_bounds k ltac:(lia)) as (_ & Hw & Hv). rewrite Eo in Hw, Hv.
      rewrite sumWeight_app in HW. rewrite sumVolume_app in HV. simpl in HW, HV.
      rewrite (pairwise_snoc _ DefaultCanCombine_sym) in Hpw.
      apply andb_true_iff in Hpw as [Hpw1 Hpw2].
      destruct (IH s1) as (m & Hm & Hr & Hp); try assumption; try lia.
      pose proof (testbit_above m k k Hm ltac:(lia)) as Hb.
      assert (Hins : insertable cc truck all m k).
      { split; [lia|]. split; [exact Hb|]. split; [|split].
        - intros j Hj Hbj. rewrite Eo. rewrite forallb_forall in Hpw2. apply Hpw2.
          eapply Permutation_in; [exact Hp|]. apply extractOrders_In; assumption.
        - unfold maskWeight. rewrite (sumWeight_perm _ _ Hp), Eo. lia.
        - unfold maskVolume. rewrite (sumVolume_perm _ _ Hp), Eo. lia. }
      exists (Nat.lor m (2 ^ k)). split; [|split].
      * apply lor_pow_lt; [rewrite Nat.pow_succ_r'; lia|lia].
      * constructor; assumption.
      * rewrite (extractOrders_setbit all m k ltac:(lia) Hb), Eo, Hp.
        apply Permutation_cons_append.
Qed.

Lemma dp_best_dominates s :
  s ⊆+ all ->
  sumWeight s <= MaxWeightLbs truck -> sumVolume s <= MaxVolumeCuft truck ->
  pairwise cc s = true ->
  sumPayout s <= fst (dp_best (dp_sweep truck all im n M) M).
Proof.
  intros Hs HW HV Hpw. apply submseteq_sublist_r in Hs as (s' & Hp & Hs').
  rewrite (sumPayout_perm _ _ Hp). rewrite (sumWeight_perm _ _ Hp) in HW.
  rewrite (sumVolume_perm _ _ Hp) in HV.
  rewrite (pairwise_perm _ DefaultCanCombine_sym _ _ Hp) in Hpw.
  destruct (feasible_reachable n s') as (m & _ & Hr & Hpm); try assumption; [lia| |].
  - rewrite take_ge by lia. exact Hs'.
  - destruct dp_core_spec as (_ & _ & _ & _ & Hmax & _).
    rewrite <- (sumPayout_perm _ _ Hpm). apply Hmax, Hr.
Qed.

End dp.

(** ** DPOptimizer.Optimize *)

Lemma reachable_nil cc truck m : reachable cc truck [] m -> m = 0%nat.
Proof. induction 1 as [|m i _ _ (Hi & _)]; [reflexivity|simpl in Hi; lia]. Qed.

Lemma best_reachable_nil truck : best_reachable truck [] 0.
Proof.
  split; [constructor|]. split; intros m Hm; apply reachable_nil in Hm as ->; [lia|].
  intros _. lia.
Qed.

(** For fewer than 63 feasible orders [Optimize] returns, and what it
    returns is decoded from the least reachable mask of greatest payout. *)
Lemma DP_result truck orders :
  bounded_input truck orders ->
  (length (FilterFeasibleOrders truck orders) < 63)%nat ->
  exists bm,
    best_reachable truck (FilterFeasibleOrders truck orders) bm
    /\ DPOptimizer_Optimize NewDPOptimizer truck orders
       = Some {| SelectedOrders := extractOrders bm (FilterFeasibleOrders truck orders);
                 TotalPayout := maskPayout (FilterFeasibleOrders truck orders) bm;
                 TotalWeight := maskWeight (FilterFeasibleOrders truck orders) bm;
                 TotalVolume := maskVolume (FilterFeasibleOrders truck orders) bm |}.
Proof.
  intros Hb Hn. unfold DPOptimizer_Optimize.
  destruct orders as [|o orders]; [exists 0%nat; split; [apply best_reachable_nil|reflexivity]|].
  cbn [length Nat.eqb].
  destruct (Nat.eqb_spec (length (FilterFeasibleOrders truck (o :: orders))) 0) as [E0|_].
  { apply nil_length_inv in E0. rewrite E0.
    exists 0%nat; split; [apply best_reachable_nil|reflexivity]. }
  destruct (Nat.leb_spec 63 (length (FilterFeasibleOrders truck (o :: orders)))); [lia|].
  pose proof (dp_core_spec truck _ (bounded_input_Filter _ _ Hb) (Filter_fits truck (o :: orders)))
    as Hspec.
  cbv zeta in Hspec. rewrite Nat.shiftl_1_l.
  destruct (dp_best _ _) as [bp bm]. cbn [fst snd] in Hspec.
  destruct Hspec as (Hr & -> & -> & -> & Hmax & Hmin).
  exists bm. split; [|reflexivity]. split; [exact Hr|]. split; assumption.
Qed.

Lemma DP_panics truck orders :
  (63 <= length (FilterFeasibleOrders truck orders))%nat ->
  DPOptimizer_Optimize NewDPOptimizer truck orders = None.
Proof.
  intros Hn. unfold DPOptimizer_Optimize.
  destruct orders as [|o orders]; [simpl in Hn; lia|]. cbn [length Nat.eqb].
  destruct (Nat.eqb_spec (length (FilterFeasibleOrders truck (o :: orders))) 0) as [E0|_];
    [lia|].
  destruct (Nat.leb_spec 63 (length (FilterFeasibleOrders truck (o :: orders)))); [reflexivity|lia].
Qed.

Lemma Filter_length truck orders :
  (length (FilterFeasibleOrders truck orders) <= length orders)%nat.
Proof. apply sublist_length, Filter_sublist. Qed.

(** What the bitmask solver returns: a consistent result whose selection
    fits the truck, is pairwise compatible and is drawn from the feasible
    orders; no feasible selection pays more. *)
Lemma DP_sound truck orders r :
  bounded_input truck orders ->
  DPOptimizer_Optimize NewDPOptimizer truck orders = Some r ->
  consistent r /\ feasible truck (SelectedOrders r)
  /\ SelectedOrders r `sublist_of` FilterFeasibleOrders truck orders.
Proof.
  intros Hb Hr.
  destruct (Nat.le_gt_cases 63 (length (FilterFeasibleOrders truck orders))) as [Hn|Hn].
  - rewrite (DP_panics _ _ Hn) in Hr. discriminate.
  - destruct (DP_result truck orders Hb Hn) as (bm & (Hreach & _) & E).
    rewrite E in Hr. injection Hr as <-.
    destruct (reachable_good truck _ (bounded_input_Filter _ _ Hb) bm Hreach) as (HW & HV & Hp).
    split; [repeat split|]. split.
    + repeat split; try assumption. rewrite ValidateOrderSet_pairwise. exact Hp.
    + apply extractOrders_from_sublist.
Qed.

Lemma DP_optimal truck orders r s :
  bounded_input truck orders ->
  DPOptimizer_Optimize NewDPOptimizer truck orders = Some r ->
  s ⊆+ FilterFeasibleOrders truck orders -> feasible truck s ->
  sumPayout s <= TotalPayout r.
Proof.
  intros Hb Hr Hs (HW & HV & Hpw). rewrite ValidateOrderSet_pairwise in Hpw.
  pose proof (dp_best_dominates truck _ (bounded_input_Filter _ _ Hb)
                (Filter_fits truck orders) s Hs HW HV Hpw) as Hdom.
  destruct (Nat.le_gt_cases 63 (length (FilterFeasibleOrders truck orders))) as [Hn|Hn].
  - rewrite (DP_panics _ _ Hn) in Hr. discriminate.
  - revert Hr. unfold DPOptimizer_Optimize.
    destruct orders as [|o orders].
    { intros [= <-]. simpl. apply submseteq_nil_r in Hs as ->. simpl. lia. }
    cbn [length Nat.eqb].
    destruct (Nat.eqb_spec (length (FilterFeasibleOrders truck (o :: orders))) 0) as [E0|_].
    { apply nil_length_inv in E0. rewrite E0 in Hs.
      intros [= <-]. simpl. apply submseteq_nil_r in Hs as ->. simpl. lia. }
    destruct (Nat.leb_spec 63 (length (FilterFeasibleOrders truck (o :: orders)))); [lia|].
    rewrite Nat.shiftl_1_l. destruct (dp_best _ _) as [bp bm]. intros [= <-]. exact Hdom.
Qed.

(** ** Selections drawn from the input *)

Lemma sumWeight_ge_elem (s : list Order) x :
  Forall order_nonneg s -> In x s -> WeightLbs x <= sumWeight s.
Proof.
  induction 1 as [|y s (_ & Hy & _) Hs IH]; simpl; [contradiction|].
  pose proof (sumWeight_nonneg _ Hs). intros [->|Hx]; [lia|]. specialize (IH Hx). lia.
Qed.

Lemma sumVolume_ge_elem (s : list Order) x :
  Forall order_nonneg s -> In x s -> VolumeCuft x <= sumVolume s.
Proof.
  induction 1 as [|y s (_ & _ & Hy) Hs IH]; simpl; [contradiction|].
  pose proof (sumVolume_nonneg _ Hs). intros [->|Hx]; [lia|]. specialize (IH Hx). lia.
Qed.

Lemma sublist_filter (p : Order -> bool) (s l : list Order) :
  s `sublist_of` l -> forallb p s = true -> s `sublist_of` List.filter p l.
Proof.
  induction 1 as [|x s l _ IH|x s l _ IH]; simpl; intros Hp.
  - constructor.
  - apply andb_true_iff in Hp as [-> Hp]. apply sublist_skip, IH, Hp.
  - destruct (p x); [apply sublist_cons|]; apply IH, Hp.
Qed.

Lemma feasible_sublist_Filter truck orders s :
  bounded_input truck orders -> s `sublist_of` orders -> feasible truck s ->
  s `sublist_of` FilterFeasibleOrders truck orders.
Proof.
  intros (_ & _ & Hnn & _) Hs (HW & HV & _). apply sublist_filter; [exact Hs|].
  pose proof (Forall_submseteq _ _ _ Hnn (sublist_submseteq _ _ Hs)) as Hn.
  apply forallb_forall. intros x Hx.
  pose proof (sumWeight_ge_elem s x Hn Hx). pose proof (sumVolume_ge_elem s x Hn Hx).
  apply negb_true_iff, orb_false_iff. split; rewrite Z.gtb_ltb; apply Z.ltb_ge; lia.
Qed.

Ltac solve_bounded :=
  repeat split; simpl; try int64_lia;
  repeat (constructor; [repeat split; simpl; lia|]); try constructor.

(** ** The claims about the solvers *)

(** C2. For every truck and every order list of at most 22 orders within
    the input bounds, the greedy total payout is at most the bitmask
    solver's, which is at most the backtracking solver's; the latter two are
    equal, and their common value is the greatest payout of a selection that
    respects capacity and pairwise compatibility. *)
Theorem C2_optimality_chain (truck : Truck) (orders : list Order) :
  bounded_input truck orders -> (length orders <= 22)%nat ->
  exists d,
    DPOptimizer_Optimize NewDPOptimizer truck orders = Some d
    /\ TotalPayout (GreedyOptimizer_Optimize NewGreedyOptimizer truck orders) <= TotalPayout d
    /\ TotalPayout d
       <= TotalPayout (BacktrackingOptimizer_Optimize NewBacktrackingOptimizer truck orders)
    /\ TotalPayout d
       = TotalPayout (BacktrackingOptimizer_Optimize NewBacktrackingOptimizer truck orders)
    /\ is_max_payout truck orders (TotalPayout d).
Proof.
  intros Hb Hlen. pose proof (Filter_length truck orders) as Hfl.
  destruct (DP_result truck orders Hb ltac:(lia)) as (bm & _ & E).
  eexists. split; [exact E|].
  destruct (DP_sound _ _ _ Hb E) as ((HdP & _) & Hdf & Hds).
  destruct (Greedy_sound truck orders Hb) as ((HgP & _) & Hgf & Hgs).
  destruct (Backtracking_sound truck orders Hb) as ((HbP & _) & Hbf & Hbs).
  assert (Hle : TotalPayout (BacktrackingOptimizer_Optimize NewBacktrackingOptimizer truck orders)
                <= maskPayout (FilterFeasibleOrders truck orders) bm).
  { rewrite HbP. apply (DP_optimal _ _ _ _ Hb E); assumption. }
  assert (Hge : maskPayout (FilterFeasibleOrders truck orders) bm
                <= TotalPayout (BacktrackingOptimizer_Optimize NewBacktrackingOptimizer
                                  truck orders)).
  { apply (Backtracking_optimal truck orders _ Hb); [|exact Hdf].
    apply sublist_submseteq, Hds. }
  cbn [TotalPayout] in *. repeat split; try lia.
  - rewrite HgP. apply (DP_optimal _ _ _ _ Hb E); assumption.
  - exists (extractOrders bm (FilterFeasibleOrders truck orders)).
    split; [|split; [exact Hdf|reflexivity]].
    etransitivity; [exact Hds|apply Filter_sublist].
  - intros s Hs Hf. apply (DP_optimal _ _ _ _ Hb E); [|exact Hf].
    apply sublist_submseteq, feasible_sublist_Filter; assumption.
Qed.

Lemma C2_witness :
  exists d,
    DPOptimizer_Optimize NewDPOptimizer truckD ordersD = Some d
    /\ TotalPayout (GreedyOptimizer_Optimize NewGreedyOptimizer truckD ordersD) <= TotalPayout d
    /\ TotalPayout d
       <= TotalPayout (BacktrackingOptimizer_Optimize NewBacktrackingOptimizer truckD ordersD)
    /\ TotalPayout d
       = TotalPayout (BacktrackingOptimizer_Optimize NewBacktrackingOptimizer truckD ordersD)
    /\ is_max_payout truckD ordersD (TotalPayout d).
Proof. apply (C2_optimality_chain truckD ordersD); [solve_bounded|simpl; lia]. Defined.

(** C3. For every truck and order list within the input bounds, the
    selection each solver returns keeps the total weight and the total
    volume within the truck and passes [ValidateOrderSet].  For the bitmask
    solver this is stated of the result it returns, and it returns one for
    at most 22 orders. *)
Theorem C3_feasibility (truck : Truck) (orders : list Order) :
  bounded_input truck orders ->
  (forall r, DPOptimizer_Optimize NewDPOptimizer truck orders = Some r -> respects truck r)
  /\ ((length orders <= 22)%nat ->
      exists r, DPOptimizer_Optimize NewDPOptimizer truck orders = Some r)
  /\ respects truck (BacktrackingOptimizer_Optimize NewBacktrackingOptimizer truck orders)
  /\ respects truck (GreedyOptimizer_Optimize NewGreedyOptimizer truck orders).
Proof.
  intros Hb. split; [|split; [|split]].
  - intros r E.
    destruct (DP_sound _ _ _ Hb E) as ((_ & HW & HV) & (HfW & HfV & Hv) & _).
    unfold respects. rewrite HW, HV. auto.
  - intros Hlen. pose proof (Filter_length truck orders) as Hfl.
    destruct (DP_result truck orders Hb ltac:(lia)) as (bm & _ & E).
    eexists. exact E.
  - destruct (Backtracking_sound truck orders Hb) as ((_ & HW & HV) & (HfW & HfV & Hv) & _).
    unfold respects. rewrite HW, HV. auto.
  - destruct (Greedy_sound truck orders Hb) as ((_ & HW & HV) & (HfW & HfV & Hv) & _).
    unfold respects. rewrite HW, HV. auto.
Qed.

Lemma C3_witness :
  (forall r, DPOptimizer_Optimize NewDPOptimizer truckA ordersA = Some r -> respects truckA r)
  /\ ((length ordersA <= 22)%nat ->
      exists r, DPOptimizer_Optimize NewDPOptimizer truckA ordersA = Some r)
  /\ respects truckA (BacktrackingOptimizer_Optimize NewBacktrackingOptimizer truckA ordersA)
  /\ respects truckA (GreedyOptimizer_Optimize NewGreedyOptimizer truckA ordersA).
Proof. apply (C3_feasibility truckA ordersA). solve_bounded. Defined.

(** C6. For every truck and every order list of at most 22 orders within
    the input bounds, the bitmask solver returns the greatest payout over
    all reachable subset masks, and its selection is decoded from the least
    mask that attains this payout. *)
Theorem C6_lowest_best_mask (truck : Truck) (orders : list Order) :
  bounded_input truck orders -> (length orders <= 22)%nat ->
  exists r bm,
    DPOptimizer_Optimize NewDPOptimizer truck orders = Some r
    /\ best_reachable truck (FilterFeasibleOrders truck orders) bm
    /\ SelectedOrders r = extractOrders bm (FilterFeasibleOrders truck orders)
    /\ TotalPayout r = maskPayout (FilterFeasibleOrders truck orders) bm.
Proof.
  intros Hb Hlen. pose proof (Filter_length truck orders) as Hfl.
  destruct (DP_result truck orders Hb ltac:(lia)) as (bm & Hbest & E).
  eexists. exists bm. split; [exact E|]. split; [exact Hbest|]. split; reflexivity.
Qed.

Lemma C6_witness :
  exists r bm,
    DPOptimizer_Optimize NewDPOptimizer truckD ordersD = Some r
    /\ best_reachable truckD (FilterFeasibleOrders truckD ordersD) bm
    /\ SelectedOrders r = extractOrders bm (FilterFeasibleOrders truckD ordersD)
    /\ TotalPayout r = maskPayout (FilterFeasibleOrders truckD ordersD) bm.
Proof. apply (C6_lowest_best_mask truckD ordersD); [solve_bounded|simpl; lia]. Defined.

(** C10. For every truck and order list within the input bounds, the result
    of each solver is consistent: its total payout, weight and volume are the
    sums over its selected orders, and every selected order is one of the
    input orders.  For the bitmask solver this is stated of the result it
    returns, and it returns one for at most 22 orders. *)
Theorem C10_consistent_results (truck : Truck) (orders : list Order) :
  bounded_input truck orders ->
  (forall r, DPOptimizer_Optimize NewDPOptimizer truck orders = Some r ->
             consistent r /\ (forall o, In o (SelectedOrders r) -> In o orders))
  /\ ((length orders <= 22)%nat ->
      exists r, DPOptimizer_Optimize NewDPOptimizer truck orders = Some r)
  /\ (let r := BacktrackingOptimizer_Optimize NewBacktrackingOptimizer truck orders in
      consistent r /\ (forall o, In o (SelectedOrders r) -> In o orders))
  /\ (let r := GreedyOptimizer_Optimize NewGreedyOptimizer truck orders in
      consistent r /\ (forall o, In o (SelectedOrders r) -> In o orders)).
Proof.
  intros Hb.
  assert (Hin : forall sel, sel ⊆+ FilterFeasibleOrders truck orders ->
                            forall o, In o sel -> In o orders).
  { intros sel Hs o Ho. apply list_elem_of_In. apply list_elem_of_In in Ho.
    eapply elem_of_submseteq; [exact Ho|]. etransitivity; [exact Hs|].
    apply sublist_submseteq, Filter_sublist. }
  split; [|split; [|split]].
  - intros r E. destruct (DP_sound _ _ _ Hb E) as (Hc & _ & Hs). split; [exact Hc|].
    apply Hin, sublist_submseteq, Hs.
  - intros Hlen. pose proof (Filter_length truck orders) as Hfl.
    destruct (DP_result truck orders Hb ltac:(lia)) as (bm & _ & E).
    eexists. exact E.
  - destruct (Backtracking_sound truck orders Hb) as (Hc & _ & Hs). split; [exact Hc|].
    apply Hin, Hs.
  - destruct (Greedy_sound truck orders Hb) as (Hc & _ & Hs). split; [exact Hc|].
    apply Hin, Hs.
Qed.

Lemma C10_witness :
  (forall r, DPOptimizer_Optimize NewDPOptimizer truckA ordersA = Some r ->
             consistent r /\ (forall o, In o (SelectedOrders r) -> In o ordersA))
  /\ ((length ordersA <= 22)%nat ->
      exists r, DPOptimizer_Optimize NewDPOptimizer truckA ordersA = Some r)
  /\ (let r := BacktrackingOptimizer_Optimize NewBacktrackingOptimizer truckA ordersA in
      consistent r /\ (forall o, In o (SelectedOrders r) -> In o ordersA))
  /\ (let r := GreedyOptimizer_Optimize NewGreedyOptimizer truckA ordersA in
      consistent r /\ (forall o, In o (SelectedOrders r) -> In o ordersA)).
Proof. apply (C10_consistent_results truckA ordersA). solve_bounded. Defined.

(** ** Degenerate inputs *)



(** The greedy walk leaves no order undecided. *)

Section greedy_maximal.

Variable truck : Truck.
Variable all : list Order.
Hypothesis Hbound : bounded_input truck all.
Hypothesis Hfits :
  Forall (fun o => WeightLbs o <= MaxWeightLbs truck /\ VolumeCuft o <= MaxVolumeCuft truck) all.

Lemma greedy_step_settled acc order rest o :
  greedy_inv truck acc -> SelectedOrders acc ++ order :: rest ⊆+ all ->
  settled truck acc o \/ o = order ->
  settled truck (greedy_step NewGreedyOptimizer truck acc order) o.
Proof.
  intros ((HP & HW & HV) & HcW & HcV & Hpw) Hsub Ho.
  destruct Hbound as (HbW & HbV & Hnn & Hsum).
  assert (Hin : order ∈ all).
  { eapply elem_of_submseteq; [|exact Hsub]. apply elem_of_app. right. left. }
  assert (Hsel : SelectedOrders acc ⊆+ all).
  { etransitivity; [|exact Hsub]. apply submseteq_inserts_r. reflexivity. }
  pose proof (proj1 (Forall_forall _ _) Hnn _ Hin) as (Hp0 & Hw0 & Hv0).
  pose proof (proj1 (Forall_forall _ _) Hfits _ Hin) as (Hw1 & Hv1).
  pose proof (sumWeight_nonneg _ (Forall_submseteq _ _ _ Hnn Hsel)) as HsW.
  pose proof (sumVolume_nonneg _ (Forall_submseteq _ _ _ Hnn Hsel)) as HsV.
  unfold greedy_step. cbn [CanFit CanCombine g_checker NewGreedyOptimizer NewConstraintChecker].
  unfold DefaultConstraintChecker.CanFit.
  rewrite !add64_id by (rewrite ?HW, ?HV; int64_lia).
  destruct (_ && _) eqn:Hfit; cbn [negb].
  - destruct (forallb _ _) eqn:Hcomp.
    + unfold settled. cbn [SelectedOrders TotalWeight TotalVolume].
      destruct Ho as [[Ho|[Ho|[Ho|(s & Hs & Hc)]]]| ->].
      * left. apply elem_of_app. left. exact Ho.
      * right. left. lia.
      * right. right. left. lia.
      * right. right. right. exists s. split; [apply elem_of_app; left; exact Hs|exact Hc].
      * left. apply elem_of_app. right. left.
    + destruct Ho as [Ho| ->]; [exact Ho|].
      right. right. right.
      apply not_true_iff_false in Hcomp. rewrite forallb_forall in Hcomp.
      destruct (forallb (fun s => DefaultConstraintChecker.CanCombine order s)
                  (SelectedOrders acc)) eqn:E.
      * exfalso. apply Hcomp. intros x Hx. rewrite forallb_forall in E. apply E, Hx.
      * apply not_true_iff_false in E.
        assert (Hex : existsb (fun s => negb (DefaultConstraintChecker.CanCombine order s))
                        (SelectedOrders acc) = true).
        { destruct (existsb _ _) eqn:Ee; [reflexivity|]. exfalso. apply E.
          apply forallb_forall. intros x Hx.
          destruct (DefaultConstraintChecker.CanCombine order x) eqn:Ex; [reflexivity|].
          assert (Ht : existsb (fun s => negb (DefaultConstraintChecker.CanCombine order s))
                         (SelectedOrders acc) = true)
            by (apply existsb_exists; exists x; rewrite Ex; auto).
          congruence. }
        apply existsb_exists in Hex as (s & Hs & Hc). exists s.
        split; [apply list_elem_of_In, Hs|]. apply negb_true_iff in Hc. exact Hc.
  - destruct Ho as [Ho| ->]; [exact Ho|].
    apply andb_false_iff in Hfit as [Hf|Hf]; apply Z.leb_gt in Hf.
    + right. left. lia.
    + right. right. left. lia.
Qed.

Lemma greedy_fold_settled rest : forall acc o,
  greedy_inv truck acc -> SelectedOrders acc ++ rest ⊆+ all ->
  settled truck acc o \/ o ∈ rest ->
  settled truck (fold_left (greedy_step NewGreedyOptimizer truck) rest acc) o.
Proof.
  induction rest as [|order rest IH]; intros acc o Hinv Hsub Ho; cbn [fold_left].
  - destruct Ho as [Ho|Ho]; [exact Ho|]. apply not_elem_of_nil in Ho. contradiction.
  - destruct (greedy_step_inv truck all Hbound Hfits acc order rest Hinv Hsub) as [Hinv' Hsub'].
    apply IH; [exact Hinv'|exact Hsub'|].
    destruct Ho as [Ho|Ho].
    + left. eapply greedy_step_settled; eauto.
    + apply elem_of_cons in Ho as [->|Ho]; [|right; exact Ho].
      left. eapply greedy_step_settled; eauto.
Qed.

End greedy_maximal.






(** ** HybridOptimizer *)

(** C8. [HybridOptimizer.Optimize] is the bitmask solver for at most 22
    orders and the greedy solver otherwise.  With the 23 orders of scenario D
    it returns the greedy result, of payout 60, where the bitmask solver
    finds 90. *)
Theorem C8_hybrid_dispatch :
  (forall truck orders,
     HybridOptimizer_Optimize NewHybridOptimizer truck orders
     = if (length orders <=? 22)%nat
       then DPOptimizer_Optimize NewDPOptimizer truck orders
       else Some (GreedyOptimizer_Optimize NewGreedyOptimizer truck orders))
  /\ length orders23 = 23%nat
  /\ HybridOptimizer_Optimize NewHybridOptimizer truckD orders23
     = Some (GreedyOptimizer_Optimize NewGreedyOptimizer truckD orders23)
  /\ TotalPayout (GreedyOptimizer_Optimize NewGreedyOptimizer truckD orders23) = 60
  /\ (TotalPayout <$> DPOptimizer_Optimize NewDPOptimizer truckD orders23) = Some 90.
Proof.
  split.
  - intros truck orders. unfold HybridOptimizer_Optimize. simpl.
    destruct (Z.leb_spec (Z.of_nat (length orders)) 22),
      (Nat.leb_spec (length orders) 22); try reflexivity; lia.
  - repeat split; vm_compute; reflexivity.
Qed.

(** ** Strings and route keys *)

Lemma string_app_cons (c : ascii) (a b : string) :
  (String c a ++ b)%string = String c (a ++ b)%string.
Proof. reflexivity. Qed.

Lemma string_app_nil_l (b : string) : (""%string ++ b)%string = b.
Proof. reflexivity. Qed.

Lemma string_app_nil_r (a : string) : (a ++ "")%string = a.
Proof.
  induction a as [|ch a IH]; [reflexivity|]. rewrite string_app_cons, IH. reflexivity.
Qed.

Lemma string_app_assoc (a b c : string) : ((a ++ b) ++ c = a ++ (b ++ c))%string.
Proof.
  induction a as [|ch a IH]; [reflexivity|]. rewrite !string_app_cons, IH. reflexivity.
Qed.

Ltac string_app_norm E :=
  repeat first [rewrite string_app_nil_l in E | rewrite string_app_cons in E].

Lemma arrow_split (a : string) : forall x b y,
  contains_arrow a = false -> contains_arrow x = false ->
  (a ++ "->" ++ b = x ++ "->" ++ y)%string -> a = x /\ b = y.
Proof.
  induction a as [|c a IH]; intros [|d x] b y Ha Hx E; string_app_norm E.
  - injection E as ->. auto.
  - injection E as <- E. exfalso. destruct x as [|e x]; string_app_norm E.
    + discriminate E.
    + injection E as <- _. simpl in Hx. discriminate.
  - injection E as -> E. exfalso. destruct a as [|e a]; string_app_norm E.
    + discriminate E.
    + injection E as -> _. simpl in Ha. discriminate.
  - injection E as -> E. cbn [contains_arrow] in Ha, Hx.
    apply orb_false_iff in Ha as [_ Ha]. apply orb_false_iff in Hx as [_ Hx].
    destruct (IH x b y Ha Hx E) as [-> ->]. auto.
Qed.

(** ** Constraint checkers *)

Lemma agree_from_spec (fuel : nat) : forall k,
  agree_from k fuel = true ->
  forall j, k <= j < k + Z.of_nat fuel -> whole_days_test j = (Z.abs j <=? 1).
Proof.
  induction fuel as [|fuel IH]; intros k H j Hj; [lia|].
  cbn [agree_from] in H.
  destruct (Bool.eqb _ _) eqn:E; [|discriminate].
  destruct (Z.eq_dec j k) as [->|Hne]; [apply Bool.eqb_prop, E|].
  apply (IH (k + 1) H). lia.
Qed.

(** Every count of days whose duration [time.Duration] can hold. *)
Lemma agree_all_representable : agree_from (-106751) (Z.to_nat 213503) = true.
Proof. vm_compute. reflexivity. Qed.

Lemma within_whole_days (k : Z) :
  -106751 <= k <= 106751 -> within_one_day (Time_Sub (k * day) 0) = whole_days_test k.
Proof.
  intros Hk. unfold Time_Sub, within_one_day, whole_days_test, Duration_Hours.
  rewrite Z.sub_0_r.
  destruct (Z.ltb_spec (k * day) min_int64) as [H|_]; [unfold day in H; int64_lia|].
  destruct (Z.ltb_spec max_int64 (k * day)) as [H|_]; [unfold day in H; int64_lia|].
  replace (k * day) with (24 * k * Hour) by (unfold day, Hour; lia).
  rewrite Z.quot_mul, Z.rem_mul by (unfold Hour; lia). reflexivity.
Qed.

Lemma within_one_day_spec (k : Z) :
  within_one_day (Time_Sub (k * day) 0) = (Z.abs k <=? 1).
Proof.
  destruct (Z_lt_le_dec k (-106751)) as [Hlo|Hlo].
  - unfold Time_Sub. rewrite Z.sub_0_r.
    destruct (Z.ltb_spec (k * day) min_int64) as [_|H]; [|unfold day in H; int64_lia].
    destruct (Z.leb_spec (Z.abs k) 1); [lia|]. vm_compute. reflexivity.
  - destruct (Z_lt_le_dec 106751 k) as [Hhi|Hhi].
    + unfold Time_Sub. rewrite Z.sub_0_r.
      destruct (Z.ltb_spec (k * day) min_int64) as [H|_]; [unfold day in H; int64_lia|].
      destruct (Z.ltb_spec max_int64 (k * day)) as [_|H]; [|unfold day in H; int64_lia].
      destruct (Z.leb_spec (Z.abs k) 1); [lia|]. vm_compute. reflexivity.
    + rewrite within_whole_days by lia.
      apply (agree_from_spec _ _ agree_all_representable). lia.
Qed.

Lemma Time_Sub_days (da db : Z) :
  Time_Sub (da * day) (db * day) = Time_Sub ((da - db) * day) 0.
Proof. unfold Time_Sub. replace (da * day - db * day) with ((da - db) * day - 0) by lia. reflexivity. Qed.

Lemma Strict_CanCombine_unfold (a b : Order) :
  StrictConstraintChecker.CanCombine a b
  = DefaultConstraintChecker.CanCombine a b
    && within_one_day (Time_Sub (PickupDate a) (PickupDate b)).
Proof.
  unfold StrictConstraintChecker.CanCombine, within_one_day.
  destruct (DefaultConstraintChecker.CanCombine a b); reflexivity.
Qed.



(** ** The Pareto layer *)

Lemma dominates_iff (A B : ParetoSolution) : dominates A B = true <-> Dominates A B.
Proof.
  unfold dominates, Dominates.
  rewrite !andb_true_iff, !orb_true_iff, Z.geb_le, Z.gtb_lt. intuition lia.
Qed.

Lemma List_filter_sublist {A} (p : A -> bool) (l : list A) : List.filter p l `sublist_of` l.
Proof.
  induction l as [|x l IH]; simpl; [constructor|].
  destruct (p x); [apply sublist_skip|apply sublist_cons]; exact IH.
Qed.

Lemma filterParetoOptimal_no_domination (solutions : list ParetoSolution) i j A B :
  i <> j ->
  filterParetoOptimal solutions !! i = Some A ->
  filterParetoOptimal solutions !! j = Some B ->
  dominates A B = false.
Proof.
  unfold filterParetoOptimal. intros Hij Hi Hj.
  set (L := zip (seq 0 (length solutions)) solutions) in *.
  set (F := List.filter _ L) in *.
  change (map snd F) with (snd <$> F) in Hi, Hj.
  apply list_lookup_fmap_Some in Hi as ([i' a] & Ha & HFa).
  apply list_lookup_fmap_Some in Hj as ([j' b] & Hb & HFb).
  simpl in Ha, Hb. subst a b.
  assert (Hnd : NoDup (fst <$> F)).
  { apply (sublist_NoDup _ (fst <$> L)); [|apply fmap_sublist, List_filter_sublist].
    unfold L. rewrite fst_zip by (rewrite length_seq; lia). apply NoDup_seq. }
  assert (Hne : j' <> i').
  { intros ->. apply Hij. apply (NoDup_lookup _ _ _ i' Hnd);
      rewrite list_lookup_fmap; [rewrite HFa|rewrite HFb]; reflexivity. }
  apply list_elem_of_lookup_2, list_elem_of_In, filter_In in HFa as [HLa _].
  apply list_elem_of_lookup_2, list_elem_of_In, filter_In in HFb as [_ Hpb].
  simpl in Hpb. apply negb_true_iff in Hpb. unfold dominatedAt in Hpb. fold L in Hpb.
  destruct (dominates A B) eqn:E; [|reflexivity].
  assert (Hex : existsb (fun q => negb (j' =? fst q)%nat && dominates (snd q) B) L = true).
  { apply existsb_exists. exists (i', A). split; [exact HLa|]. simpl.
    rewrite E. destruct (Nat.eqb_spec j' i'); [contradiction|reflexivity]. }
  congruence.
Qed.

(** C7. No solution of the list [GetParetoOptimalSolutions] returns
    dominates another one of the list, dominance being at least as good on
    payout and on both utilization percentages and better on one of them. *)
Theorem C7_no_domination (s : OptimizerService) (truck : Truck) (orders : list Order)
    (maxSolutions : Z) (sols : list ParetoSolution) (i j : nat) (A B : ParetoSolution) :
  GetParetoOptimalSolutions s truck orders maxSolutions = Some sols ->
  i <> j -> sols !! i = Some A -> sols !! j = Some B ->
  ~ Dominates A B.
Proof.
  unfold GetParetoOptimalSolutions. intros Hs Hij Hi Hj HD.
  destruct (paretoCandidates _ _ _ _ _ _ _) as [cands|]; [|discriminate].
  injection Hs as <-. apply dominates_iff in HD.
  rewrite (filterParetoOptimal_no_domination cands i j A B Hij Hi Hj) in HD. discriminate.
Qed.

Lemma C7_witness :
  match GetParetoOptimalSolutions NewOptimizerService truckD ordersQ 5 with
  | Some [A; B] => ~ Dominates A B
  | _ => False
  end.
Proof.
  destruct (GetParetoOptimalSolutions NewOptimizerService truckD ordersQ 5)
    as [[|A [|B [|C l]]]|] eqn:E; try (vm_compute in E; discriminate E).
  apply (C7_no_domination _ _ _ _ _ 0%nat 1%nat A B E); [lia|reflexivity|reflexivity].
Defined.

(** The loop of [GetParetoOptimalSolutions] keeps the first result of every
    key and stops once [max 1 maxSolutions] candidates are kept. *)
Lemma paretoCandidates_spec (s : OptimizerService) (truck : Truck) (orders : list Order)
    (maxSolutions : Z) (ws : list (float * float)) :
  forall l solutions seen,
    solveAll_from s truck orders ws = Some l ->
    (length solutions < Z.to_nat (Z.max 1 maxSolutions))%nat ->
    paretoCandidates s truck orders maxSolutions ws solutions seen
    = Some (solutions
            ++ take (Z.to_nat (Z.max 1 maxSolutions) - length solutions)
                 (map (fun wr => mkParetoSolution truck (fst wr) (snd wr))
                    (dedupByKey seen l))).
Proof.
  induction ws as [|w ws IH]; intros l solutions seen Hl Hlen; simpl in Hl |- *.
  - injection Hl as <-. simpl. rewrite take_nil, app_nil_r. reflexivity.
  - destruct (optimizeWithWeights s truck orders (fst w) (snd w)) as [result|]; [|discriminate].
    destruct (solveAll_from s truck orders ws) as [rest|] eqn:Hrest; [|discriminate].
    injection Hl as <-. cbn [dedupByKey snd fst].
    destruct (bool_decide (solutionKey result ∈ seen)); [apply IH; auto|].
    rewrite length_app. cbn [length].
    destruct (Z.geb_spec (Z.of_nat (length solutions + 1)) maxSolutions) as [Hge|Hlt].
    + replace (Z.to_nat (Z.max 1 maxSolutions) - length solutions)%nat with 1%nat by lia.
      cbn [map take]. rewrite take_0. reflexivity.
    + rewrite (IH rest _ _ eq_refl) by (rewrite length_app; simpl; lia).
      rewrite length_app. cbn [length].
      replace (Z.to_nat (Z.max 1 maxSolutions) - length solutions)%nat
        with (S (Z.to_nat (Z.max 1 maxSolutions) - (length solutions + 1)))%nat by lia.
      cbn [map take fst snd]. rewrite <- app_assoc. reflexivity.
Qed.

(** For every service whose five solves return, the list returned is the
    dominance filter of the first [max 1 maxSolutions] candidates. *)
Lemma GetPareto_candidates (s : OptimizerService) (truck : Truck) (orders : list Order)
    (maxSolutions : Z) (l : list ((float * float) * OptimizationResult)) :
  solveAll s truck orders = Some l ->
  GetParetoOptimalSolutions s truck orders maxSolutions
  = Some (filterParetoOptimal
            (take (Z.to_nat (Z.max 1 maxSolutions)) (candidateSolutions truck l))).
Proof.
  intros Hl. unfold GetParetoOptimalSolutions.
  rewrite (paretoCandidates_spec s truck orders maxSolutions weights l [] ∅ Hl)
    by (simpl; lia).
  simpl length. rewrite Nat.sub_0_r. reflexivity.
Qed.

(** *** Keys and sets of ids *)

Lemma solutionKey_from (l : list Order) (acc : string) :
  fold_left (fun key order => (key ++ (ID order ++ ","))%string) l acc
  = (acc ++ joinKey (map ID l))%string.
Proof.
  revert acc. induction l as [|o l IH]; intros acc; cbn [fold_left map joinKey foldr].
  - rewrite string_app_nil_r. reflexivity.
  - rewrite IH, string_app_assoc. reflexivity.
Qed.

Lemma solutionKey_joinKey (r : OptimizationResult) :
  solutionKey r = joinKey (map ID (SelectedOrders r)).
Proof. unfold solutionKey. rewrite solutionKey_from. reflexivity. Qed.

Lemma comma_split (a : string) : forall b x y,
  comma_free a = true -> comma_free b = true ->
  (a ++ String ","%char x = b ++ String ","%char y)%string -> a = b /\ x = y.
Proof.
  induction a as [|c a IH]; intros [|d b] x y Ha Hb E;
    rewrite ?string_app_nil_l, ?string_app_cons in E.
  - injection E as ->. auto.
  - injection E as <- _. simpl in Hb. discriminate.
  - injection E as -> _. simpl in Ha. discriminate.
  - injection E as -> E. simpl in Ha, Hb. apply andb_true_iff in Ha as [_ Ha].
    apply andb_true_iff in Hb as [_ Hb].
    destruct (IH b x y Ha Hb E) as [-> ->]. auto.
Qed.

Lemma joinKey_inj (l1 : list string) : forall l2,
  Forall (fun id => comma_free id = true) l1 ->
  Forall (fun id => comma_free id = true) l2 ->
  joinKey l1 = joinKey l2 -> l1 = l2.
Proof.
  induction l1 as [|a l1 IH]; intros [|b l2] H1 H2 E; cbn [joinKey foldr] in E.
  - reflexivity.
  - rewrite string_app_assoc in E. destruct b; discriminate E.
  - rewrite string_app_assoc in E. destruct a; discriminate E.
  - rewrite !string_app_assoc in E.
    change (","%string ++ ?t)%string with (String ","%char t) in E.
    inversion H1; inversion H2; subst.
    destruct (comma_split a b _ _ ltac:(assumption) ltac:(assumption) E) as [-> E'].
    f_equal. apply IH; assumption.
Qed.

Lemma sublist_NoDup_same_elements {A} (l : list A) : forall l1 l2,
  NoDup l -> l1 `sublist_of` l -> l2 `sublist_of` l ->
  (forall x, x ∈ l1 <-> x ∈ l2) -> l1 = l2.
Proof.
  induction l as [|x l IH]; intros l1 l2 Hnd H1 H2 Heq.
  - apply sublist_nil_r in H1, H2. congruence.
  - apply NoDup_cons in Hnd as [Hx Hnd].
    assert (Hout : forall k, k `sublist_of` l -> x ∉ k).
    { intros k Hk Hin. apply Hx. eapply elem_of_sublist; eassumption. }
    apply sublist_cons_r in H1 as [H1|(l1' & -> & H1)];
      apply sublist_cons_r in H2 as [H2|(l2' & -> & H2)].
    + apply IH; assumption.
    + exfalso. apply (Hout l1 H1), Heq. left.
    + exfalso. apply (Hout l2 H2), Heq. left.
    + f_equal. apply IH; try assumption. intros y. split; intros Hy.
      * assert (Hy' : y ∈ x :: l2') by (apply Heq; right; exact Hy).
        apply elem_of_cons in Hy' as [->|Hy']; [exfalso; exact (Hout l1' H1 Hy)|exact Hy'].
      * assert (Hy' : y ∈ x :: l1') by (apply Heq; right; exact Hy).
        apply elem_of_cons in Hy' as [->|Hy']; [exfalso; exact (Hout l2' H2 Hy)|exact Hy'].
Qed.

Lemma key_iff_idSet (ids : list string) (r1 r2 : OptimizationResult) :
  NoDup ids -> Forall (fun id => comma_free id = true) ids ->
  map ID (SelectedOrders r1) `sublist_of` ids ->
  map ID (SelectedOrders r2) `sublist_of` ids ->
  solutionKey r1 = solutionKey r2 <-> idSet r1 = idSet r2.
Proof.
  intros Hnd Hcf H1 H2. rewrite !solutionKey_joinKey. unfold idSet. split.
  - intros E. apply joinKey_inj in E; [rewrite E; reflexivity| |].
    + eapply Forall_submseteq; [exact Hcf|apply sublist_submseteq, H1].
    + eapply Forall_submseteq; [exact Hcf|apply sublist_submseteq, H2].
  - intros E. f_equal. apply (sublist_NoDup_same_elements ids); try assumption.
    intros x. rewrite <- !(elem_of_list_to_set (C := gset string)), E. reflexivity.
Qed.

Lemma dedup_agree (l : list ((float * float) * OptimizationResult)) :
  forall (P : list ((float * float) * OptimizationResult)) (seenK : gset string)
         (seenS : gset (gset string)),
    (forall k, k ∈ seenK <-> exists y, y ∈ P /\ k = solutionKey (snd y)) ->
    (forall k, k ∈ seenS <-> exists y, y ∈ P /\ k = idSet (snd y)) ->
    (forall x y, x ∈ P ++ l -> y ∈ P ++ l ->
                 (solutionKey (snd x) = solutionKey (snd y) <-> idSet (snd x) = idSet (snd y))) ->
    dedupByKey seenK l = dedupByIdSet seenS l.
Proof.
  induction l as [|wr l IH]; intros P seenK seenS HK HS Heq; [reflexivity|].
  cbn [dedupByKey dedupByIdSet].
  assert (Hwr : wr ∈ P ++ wr :: l) by (apply elem_of_app; right; left).
  assert (Hiff : solutionKey (snd wr) ∈ seenK <-> idSet (snd wr) ∈ seenS).
  { rewrite HK, HS. split; intros (y & Hy & E); exists y; (split; [exact Hy|]);
      apply (Heq wr y Hwr); try exact E; apply elem_of_app; left; exact Hy. }
  rewrite (bool_decide_ext _ _ Hiff). destruct (bool_decide _).
  - apply (IH P); try assumption. intros x y Hx Hy. apply Heq.
    + apply elem_of_app in Hx as [Hx|Hx]; apply elem_of_app; [left|right; right]; exact Hx.
    + apply elem_of_app in Hy as [Hy|Hy]; apply elem_of_app; [left|right; right]; exact Hy.
  - f_equal. apply (IH (wr :: P)).
    + intros k. rewrite elem_of_union, elem_of_singleton, HK. split.
      * intros [->|(y & Hy & ->)]; [exists wr; split; [left|reflexivity]|].
        exists y. split; [right; exact Hy|reflexivity].
      * intros (y & Hy & ->). apply elem_of_cons in Hy as [->|Hy]; [left; reflexivity|].
        right. exists y. auto.
    + intros k. rewrite elem_of_union, elem_of_singleton, HS. split.
      * intros [->|(y & Hy & ->)]; [exists wr; split; [left|reflexivity]|].
        exists y. split; [right; exact Hy|reflexivity].
      * intros (y & Hy & ->). apply elem_of_cons in Hy as [->|Hy]; [left; reflexivity|].
        right. exists y. auto.
    + intros x y Hx Hy. apply Heq.
      * apply elem_of_cons in Hx as [->|Hx]; [exact Hwr|].
        apply elem_of_app in Hx as [Hx|Hx]; apply elem_of_app; [left|right; right]; exact Hx.
      * apply elem_of_cons in Hy as [->|Hy]; [exact Hwr|].
        apply elem_of_app in Hy as [Hy|Hy]; apply elem_of_app; [left|right; right]; exact Hy.
Qed.

(** *** The default service on at most 22 orders *)

Lemma DP_selected_sublist dp truck orders r :
  DPOptimizer_Optimize dp truck orders = Some r -> SelectedOrders r `sublist_of` orders.
Proof.
  unfold DPOptimizer_Optimize.
  destruct (length orders =? 0)%nat; [intros [= <-]; apply sublist_nil_l|].
  destruct (length (FilterFeasibleOrders truck orders) =? 0)%nat;
    [intros [= <-]; apply sublist_nil_l|].
  destruct (63 <=? _)%nat; [discriminate|].
  destruct (dp_best _ _) as [bp bm]. intros [= <-]. simpl.
  etransitivity; [apply extractOrders_from_sublist|apply Filter_sublist].
Qed.

Lemma DP_total dp truck orders :
  (length orders < 63)%nat -> is_Some (DPOptimizer_Optimize dp truck orders).
Proof.
  intros Hlen. pose proof (Filter_length truck orders) as Hfl. unfold DPOptimizer_Optimize.
  destruct (length orders =? 0)%nat; [eexists; reflexivity|].
  destruct (length (FilterFeasibleOrders truck orders) =? 0)%nat; [eexists; reflexivity|].
  destruct (Nat.leb_spec 63 (length (FilterFeasibleOrders truck orders))); [lia|].
  destruct (dp_best _ _) as [bp bm]. eexists; reflexivity.
Qed.

Lemma weighted_default_in_order truck orders rw uw :
  (length orders <= 22)%nat ->
  exists r, optimizeWithWeights NewOptimizerService truck orders rw uw = Some r
            /\ map ID (SelectedOrders r) `sublist_of` map ID orders.
Proof.
  intros Hlen. unfold optimizeWithWeights. cbn [optimizer NewOptimizerService].
  set (weighted := map _ orders).
  assert (Hw : length weighted = length orders) by apply length_map.
  assert (Hid : map ID weighted = map ID orders).
  { unfold weighted. rewrite map_map. reflexivity. }
  unfold Hybrid, HybridOptimizer_Optimize. cbn [maxDPSize NewHybridOptimizer dpOptimizer].
  destruct (Z.leb_spec (Z.of_nat (length weighted)) 22); [|lia].
  destruct (DP_total NewDPOptimizer truck weighted ltac:(lia)) as [r Hr].
  exists r. split; [exact Hr|]. rewrite <- Hid.
  apply fmap_sublist, (DP_selected_sublist _ _ _ _ Hr).
Qed.

Lemma solveAll_default truck orders (ws : list (float * float)) :
  (length orders <= 22)%nat ->
  exists l, solveAll_from NewOptimizerService truck orders ws = Some l
            /\ Forall (fun wr => map ID (SelectedOrders (snd wr)) `sublist_of` map ID orders) l.
Proof.
  intros Hlen. induction ws as [|w ws (l & Hl & Hall)]; cbn [solveAll_from].
  - exists []. split; [reflexivity|constructor].
  - destruct (weighted_default_in_order truck orders (fst w) (snd w) Hlen) as (r & -> & Hr).
    rewrite Hl. exists ((w, r) :: l). split; [reflexivity|]. constructor; assumption.
Qed.

(** C5, as the code has it by design.  For at most 22 orders with distinct,
    comma-free ids and a maximum count of at least 1, the default service
    solves at the five fixed weight vectors, keeps the first result of every
    set of selected order ids, cuts these candidates to the maximum count
    and returns the dominance filter of what is left: the truncation applies
    to the candidate list, before the dominance filter. *)
Theorem C5_pareto_truncation (truck : Truck) (orders : list Order) (maxSolutions : Z) :
  (length orders <= 22)%nat ->
  NoDup (map ID orders) ->
  Forall (fun id => comma_free id = true) (map ID orders) ->
  1 <= maxSolutions ->
  weights = [(1.0, 0.0); (0.8, 0.2); (0.6, 0.4); (0.4, 0.6); (0.2, 0.8)]%float
  /\ exists l,
       solveAll NewOptimizerService truck orders = Some l
       /\ GetParetoOptimalSolutions NewOptimizerService truck orders maxSolutions
          = Some (filterParetoOptimal
                    (take (Z.to_nat maxSolutions)
                       (map (fun wr => mkParetoSolution truck (fst wr) (snd wr))
                          (dedupByIdSet ∅ l)))).
Proof.
  intros Hlen Hnd Hcf Hmax. split; [reflexivity|].
  destruct (solveAll_default truck orders weights Hlen) as (l & Hl & Hall).
  exists l. split; [exact Hl|].
  rewrite (GetPareto_candidates _ _ _ _ l Hl), Z.max_r by lia.
  unfold candidateSolutions. rewrite (dedup_agree l [] ∅ ∅); [reflexivity| | |].
  - intros k. split; [intros Hk; apply not_elem_of_empty in Hk; contradiction|].
    intros (y & Hy & _). apply not_elem_of_nil in Hy. contradiction.
  - intros k. split; [intros Hk; apply not_elem_of_empty in Hk; contradiction|].
    intros (y & Hy & _). apply not_elem_of_nil in Hy. contradiction.
  - intros x y Hx Hy. rewrite Forall_forall in Hall.
    apply (key_iff_idSet (map ID orders)); auto.
Qed.

Lemma C5_witness :
  weights = [(1.0, 0.0); (0.8, 0.2); (0.6, 0.4); (0.4, 0.6); (0.2, 0.8)]%float
  /\ exists l,
       solveAll NewOptimizerService truckD ordersP = Some l
       /\ GetParetoOptimalSolutions NewOptimizerService truckD ordersP 1
          = Some (filterParetoOptimal
                    (take (Z.to_nat 1)
                       (map (fun wr => mkParetoSolution truckD (fst wr) (snd wr))
                          (dedupByIdSet ∅ l)))).
Proof.
  apply (C5_pareto_truncation truckD ordersP 1).
  - simpl. lia.
  - simpl. constructor; [|constructor; [apply not_elem_of_nil|constructor]].
    intros H. apply list_elem_of_singleton in H. discriminate H.
  - repeat constructor.
  - lia.
Defined.

(** C5 as stated fails: with a maximum count of 1 the code returns the
    solution of order A, the first candidate, while the dominance-filtered
    list of all five solves, truncated to one entry, holds the solution of
    order B. *)
Lemma C5_counterexample :
  (map OrderIDs <$> GetParetoOptimalSolutions NewOptimizerService truckD ordersP 1)
    = Some [["A"%string]]
  /\ (map OrderIDs <$> paretoSpec NewOptimizerService truckD ordersP 1)
    = Some [["B"%string]]
  /\ GetParetoOptimalSolutions NewOptimizerService truckD ordersP 1
     <> paretoSpec NewOptimizerService truckD ordersP 1.
Proof.
  assert (H1 : (map OrderIDs <$> GetParetoOptimalSolutions NewOptimizerService truckD ordersP 1)
               = Some [["A"%string]]) by (vm_compute; reflexivity).
  assert (H2 : (map OrderIDs <$> paretoSpec NewOptimizerService truckD ordersP 1)
               = Some [["B"%string]]) by (vm_compute; reflexivity).
  split; [exact H1|]. split; [exact H2|].
  intros E. rewrite E, H2 in H1. discriminate H1.
Qed.

(** ** Objective weights *)

(** C1 at a request the service accepts.  With the balanced objective the
    only order, of payout 100, is selected, and the response reports 2550 as
    its total payout: the relabeled payout 0.5 * 100 + 0.5 * 0.5 * 10000.
    The Pareto list does the same: order B of payout 90000 is reported
    with 42000. *)
Theorem C1_scalarized_total_reported :
  Validate requestW <> None
  /\ OptimizeLoad NewOptimizerService requestW
     = Ok {| TruckID := "truck-W"; SelectedOrderIDs := ["O1"%string];
             domain.TotalPayoutCents := 2550;
             domain.TotalWeightLbs := 2; domain.TotalVolumeCuft := 2;
             domain.UtilizationWeightPercent := 50;
             domain.UtilizationVolumePercent := 50 |}
  /\ sumPayout ordersW = 100
  /\ (map (fun p => (OrderIDs p, TotalPayoutCents p))
        <$> GetParetoOptimalSolutions NewOptimizerService truckD ordersQ 5)
     = Some [(["A"%string], 100000); (["B"%string], 42000)]
  /\ map (fun o => (ID o, Payout o)) ordersQ = [("A"%string, 100000); ("B"%string, 90000)].
Proof.
  split; [vm_compute; discriminate|].
  repeat split; vm_compute; reflexivity.
Qed.

(** ** The input contract *)

Lemma sumPayout_le_length (l : list Order) :
  Forall valid_order l -> sumPayout l <= 100000000000 * Z.of_nat (length l).
Proof. induction 1 as [|o l ((_ & Hp) & _) _ IH]; simpl length; simpl sumPayout; lia. Qed.

(** Orders and a truck within the bounds of the input layer are within the
    bounds the solvers rely on. *)
Lemma valid_bounded (truck : Truck) (orders : list Order) :
  valid_truck truck -> Forall valid_order orders -> (length orders <= 22)%nat ->
  bounded_input truck orders.
Proof.
  intros ((HW0 & HW1) & (HV0 & HV1)) Hv Hlen. pose proof (sumPayout_le_length _ Hv).
  repeat split; try int64_lia.
  eapply Forall_impl; [exact Hv|]. intros o ((? & _) & (? & _) & (? & _)).
  repeat split; lia.
Qed.

Lemma Order_Validate_valid (o : Order) : Order_Validate o = true -> valid_order o.
Proof.
  unfold Order_Validate, valid_order. rewrite !andb_true_iff.
  intros H. repeat match goal with H : _ /\ _ |- _ => destruct H end.
  repeat split; lia.
Qed.

Lemma Orders_Validate_valid (orders : list Order) : forall seen,
  Orders_Validate seen orders = true -> Forall valid_order orders.
Proof.
  induction orders as [|o l IH]; intros seen H; simpl in H; [constructor|].
  destruct (bool_decide _); [discriminate|].
  destruct (Order_Validate o) eqn:E; [|discriminate]. simpl in H.
  constructor; [apply Order_Validate_valid, E|eapply IH, H].
Qed.

(** Every request [Validate] lets through is within the bounds the solvers
    rely on, and holds at most 22 orders. *)
Lemma Validate_bounded (r r' : OptimizeRequest) :
  Validate r = Some r' ->
  Truck_of r' = Truck_of r /\ Orders r' = Orders r
  /\ bounded_input (Truck_of r) (Orders r) /\ (length (Orders r) <= 22)%nat.
Proof.
  unfold Validate. intros H.
  destruct (String.eqb _ _); [discriminate|].
  destruct (Z.leb_spec (MaxWeightLbs (Truck_of r)) 0); [discriminate|].
  destruct (Z.gtb_spec (MaxWeightLbs (Truck_of r)) 1000000); [discriminate|].
  destruct (Z.leb_spec (MaxVolumeCuft (Truck_of r)) 0); [discriminate|].
  destruct (Z.gtb_spec (MaxVolumeCuft (Truck_of r)) 100000); [discriminate|].
  destruct (length (Orders r) =? 0)%nat; [discriminate|].
  destruct (Nat.ltb_spec 22 (length (Orders r))); [discriminate|].
  destruct (Orders_Validate ∅ (Orders r)) eqn:E; [|discriminate]. simpl in H.
  assert (Hb : bounded_input (Truck_of r) (Orders r)).
  { apply valid_bounded; [repeat split; lia| |lia]. eapply Orders_Validate_valid, E. }
  destruct (Config r) as [c|].
  - destruct (OptimizationConfig_Validate c); [|discriminate].
    injection H as <-. simpl. auto.
  - injection H as <-. auto.
Qed.

(** * Further properties of the code *)

(** ** Package domain: constraints.go *)

Lemma Filter_idem truck orders :
  FilterFeasibleOrders truck (FilterFeasibleOrders truck orders)
  = FilterFeasibleOrders truck orders.
Proof.
  unfold FilterFeasibleOrders. induction orders as [|o l IH]; simpl; [reflexivity|].
  destruct (negb _) eqn:E; simpl; [rewrite E, IH|]; auto.
Qed.

Lemma DP_prefilter dp truck orders :
  DPOptimizer_Optimize dp truck (FilterFeasibleOrders truck orders)
  = DPOptimizer_Optimize dp truck orders.
Proof.
  unfold DPOptimizer_Optimize. rewrite Filter_idem.
  destruct orders as [|o l]; [reflexivity|].
  destruct (length (FilterFeasibleOrders truck (o :: l)) =? 0)%nat eqn:E; reflexivity.
Qed.

Lemma Greedy_prefilter g truck orders :
  GreedyOptimizer_Optimize g truck (FilterFeasibleOrders truck orders)
  = GreedyOptimizer_Optimize g truck orders.
Proof. unfold GreedyOptimizer_Optimize. rewrite Filter_idem. reflexivity. Qed.

Lemma Backtracking_prefilter b truck orders :
  BacktrackingOptimizer_Optimize b truck (FilterFeasibleOrders truck orders)
  = BacktrackingOptimizer_Optimize b truck orders.
Proof. unfold BacktrackingOptimizer_Optimize. rewrite Filter_idem. reflexivity. Qed.

(** X1. Dropping the orders that cannot fit the truck is idempotent, and
    every solver drops them itself: the filtering [preprocessOrders] does
    before the solve changes the result of none of the three solvers. *)
Theorem X1_prefilter_redundant (dp : DPOptimizer) (g : GreedyOptimizer)
    (b : BacktrackingOptimizer) (truck : Truck) (orders : list Order) :
  preprocessOrders truck (preprocessOrders truck orders) = preprocessOrders truck orders
  /\ DPOptimizer_Optimize dp truck (preprocessOrders truck orders)
     = DPOptimizer_Optimize dp truck orders
  /\ GreedyOptimizer_Optimize g truck (preprocessOrders truck orders)
     = GreedyOptimizer_Optimize g truck orders
  /\ BacktrackingOptimizer_Optimize b truck (preprocessOrders truck orders)
     = BacktrackingOptimizer_Optimize b truck orders.
Proof.
  unfold preprocessOrders. split; [apply Filter_idem|]. split; [apply DP_prefilter|].
  split; [apply Greedy_prefilter|apply Backtracking_prefilter].
Qed.

Lemma List_filter_partition {A} (p : A -> bool) (l : list A) :
  List.filter p l ++ List.filter (fun x => negb (p x)) l ≡ₚ l.
Proof.
  induction l as [|x l IH]; simpl; [reflexivity|].
  destruct (p x); simpl.
  - rewrite IH. reflexivity.
  - rewrite <- Permutation_middle, IH. reflexivity.
Qed.

(** X2. [SeparateHazmatOrders] splits the orders in two: the hazmat orders
    and the others, each in the order of the input; together they are the
    input again, and no order is lost or repeated. *)
Theorem X2_SeparateHazmatOrders_partition (orders : list Order) :
  let '(hazmat, nonHazmat) := SeparateHazmatOrders orders in
  hazmat ++ nonHazmat ≡ₚ orders
  /\ hazmat `sublist_of` orders
  /\ nonHazmat `sublist_of` orders
  /\ Forall (fun o => IsHazmat o = true) hazmat
  /\ Forall (fun o => IsHazmat o = false) nonHazmat
  /\ (length hazmat + length nonHazmat = length orders)%nat.
Proof.
  unfold SeparateHazmatOrders.
  pose proof (List_filter_partition IsHazmat orders) as Hp.
  split; [exact Hp|]. split; [apply List_filter_sublist|]. split; [apply List_filter_sublist|].
  split; [|split].
  - apply Forall_forall. intros o Ho. apply list_elem_of_In, filter_In in Ho. tauto.
  - apply Forall_forall. intros o Ho. apply list_elem_of_In, filter_In in Ho.
    destruct Ho as [_ Ho]. apply negb_true_iff in Ho. exact Ho.
  - rewrite <- length_app. apply Permutation_length, Hp.
Qed.

Lemma onRoute_app r l1 l2 : onRoute r (l1 ++ l2) = onRoute r l1 ++ onRoute r l2.
Proof. apply List.filter_app. Qed.

Lemma group_step (groups : gmap string (list Order)) (done : list Order) (o : Order) :
  (forall r, groups !! r = group_of (onRoute r done)) ->
  forall r, <[Route o := default [] (groups !! Route o) ++ [o]]> groups !! r
            = group_of (onRoute r (done ++ [o])).
Proof.
  intros H r. rewrite onRoute_app. unfold onRoute at 2. simpl.
  destruct (String.eqb_spec (Route o) r) as [<-|Hne].
  - rewrite lookup_insert_eq, H. 
    destruct (onRoute (Route o) done); reflexivity.
  - rewrite lookup_insert_ne by exact Hne. rewrite app_nil_r. apply H.
Qed.

Lemma group_fold (orders : list Order) : forall (groups : gmap string (list Order)) done,
  (forall r, groups !! r = group_of (onRoute r done)) ->
  forall r,
    fold_left (fun (groups : gmap string (list Order)) order =>
                 <[Route order := default [] (groups !! Route order) ++ [order]]> groups)
      orders groups !! r
    = group_of (onRoute r (done ++ orders)).
Proof.
  induction orders as [|o l IH]; intros groups done H r; simpl.
  - rewrite app_nil_r. apply H.
  - rewrite (IH _ (done ++ [o]) (group_step groups done o H) r).
    rewrite <- app_assoc. reflexivity.
Qed.

(** X3. The map [GroupOrdersByRoute] builds holds, under every route key,
    the orders of that route in the order of the input; a route no order
    travels is not a key, so no group is empty. *)
Theorem X3_GroupOrdersByRoute_lookup (orders : list Order) (r : string) :
  GroupOrdersByRoute orders !! r
  = match List.filter (fun o => String.eqb (Route o) r) orders with
    | [] => None
    | group => Some group
    end.
Proof.
  unfold GroupOrdersByRoute.
  rewrite (group_fold orders ∅ []) by (intros r'; apply lookup_empty).
  rewrite app_nil_l. unfold group_of, onRoute.
  destruct (List.filter _ orders); reflexivity.
Qed.

Lemma DefaultCanCombine_trans a b c :
  DefaultConstraintChecker.CanCombine a b = true ->
  DefaultConstraintChecker.CanCombine b c = true ->
  DefaultConstraintChecker.CanCombine a c = true.
Proof.
  unfold DefaultConstraintChecker.CanCombine.
  destruct (String.eqb_spec (Route a) (Route b)) as [->|]; [|discriminate].
  destruct (String.eqb (Route b) (Route c));
    [|destruct (IsHazmat a), (IsHazmat b); discriminate].
  destruct (IsHazmat a), (IsHazmat b), (IsHazmat c); simpl; congruence.
Qed.

(** X4. The default [CanCombine] is an equivalence relation on orders: every
    order can be combined with itself, the answer does not depend on the
    order of the two arguments, and it is transitive. *)
Theorem X4_CanCombine_equivalence :
  (forall a, CanCombine NewConstraintChecker a a = true)
  /\ (forall a b, CanCombine NewConstraintChecker a b = CanCombine NewConstraintChecker b a)
  /\ (forall a b c, CanCombine NewConstraintChecker a b = true ->
                    CanCombine NewConstraintChecker b c = true ->
                    CanCombine NewConstraintChecker a c = true).
Proof.
  cbn [CanCombine NewConstraintChecker]. split; [|split].
  - intros a. unfold DefaultConstraintChecker.CanCombine.
    rewrite String.eqb_refl, Bool.eqb_reflx. reflexivity.
  - apply DefaultCanCombine_sym.
  - apply DefaultCanCombine_trans.
Qed.

Lemma pairwise_head (o : Order) (l : list Order) :
  pairwise DefaultConstraintChecker.CanCombine (o :: l)
  = forallb (DefaultConstraintChecker.CanCombine o) l.
Proof.
  induction l as [|x l IH]; [reflexivity|].
  cbn [pairwise forallb] in *.
  destruct (DefaultConstraintChecker.CanCombine o x) eqn:Hox; [|reflexivity].
  cbn [andb]. destruct (forallb (DefaultConstraintChecker.CanCombine o) l) eqn:Hol.
  - apply andb_true_iff in IH as [_ IH]. rewrite IH, andb_true_r.
    cbn [andb]. apply forallb_forall. intros y Hy.
    rewrite forallb_forall in Hol. specialize (Hol y Hy).
    apply (DefaultCanCombine_trans x o y); [rewrite DefaultCanCombine_sym; exact Hox|exact Hol].
  - cbn [andb]. reflexivity.
Qed.

(** X5. The empty set of orders is valid, and a non-empty one passes
    [ValidateOrderSet] exactly when every order has the route key and the
    hazmat flag of the first one. *)
Theorem X5_ValidateOrderSet_by_head (o : Order) (orders : list Order) :
  ValidateOrderSet NewConstraintChecker [] = true
  /\ ValidateOrderSet NewConstraintChecker (o :: orders)
     = forallb (fun x => String.eqb (Route o) (Route x) && Bool.eqb (IsHazmat o) (IsHazmat x))
         orders.
Proof.
  split; [reflexivity|]. rewrite ValidateOrderSet_pairwise, pairwise_head.
  induction orders as [|x l IH]; [reflexivity|]. cbn [forallb]. rewrite IH. f_equal.
  unfold DefaultConstraintChecker.CanCombine.
  destruct (String.eqb (Route o) (Route x)); [|reflexivity].
  destruct (Bool.eqb (IsHazmat o) (IsHazmat x)); reflexivity.
Qed.

(** X6. [ValidateOrderSet] does not depend on the order of the list and is
    inherited by sub-selections: whatever is drawn from a valid set, in any
    order, is valid. *)
Theorem X6_ValidateOrderSet_hereditary (sel orders : list Order) :
  sel ⊆+ orders ->
  ValidateOrderSet NewConstraintChecker orders = true ->
  ValidateOrderSet NewConstraintChecker sel = true.
Proof.
  rewrite !ValidateOrderSet_pairwise. apply pairwise_submseteq, DefaultCanCombine_sym.
Qed.

Lemma X6_ValidateOrderSet_hereditary_witness :
  ValidateOrderSet NewConstraintChecker (rev ordersA) = true.
Proof.
  apply (X6_ValidateOrderSet_hereditary (rev ordersA) ordersA).
  - rewrite rev_alt; simpl. apply submseteq_swap.
  - vm_compute. reflexivity.
Defined.

(** X7. For two orders whose origins do not contain the text [->], the route
    keys are equal exactly when the origins and the destinations are equal;
    the default [CanCombine] then holds exactly for equal origin, equal
    destination and equal hazmat flag. *)
Theorem X7_Route_injective (a b : Order) :
  contains_arrow (Origin a) = false -> contains_arrow (Origin b) = false ->
  (Route a = Route b <-> Origin a = Origin b /\ Destination a = Destination b)
  /\ CanCombine NewConstraintChecker a b
     = String.eqb (Origin a) (Origin b) && String.eqb (Destination a) (Destination b)
       && Bool.eqb (IsHazmat a) (IsHazmat b).
Proof.
  intros Ha Hb.
  assert (Hr : Route a = Route b <-> Origin a = Origin b /\ Destination a = Destination b).
  { unfold Route. split.
    - apply arrow_split; assumption.
    - intros [-> ->]. reflexivity. }
  split; [exact Hr|].
  cbn [CanCombine NewConstraintChecker]. unfold DefaultConstraintChecker.CanCombine.
  unfold DefaultConstraintChecker.timeWindowsCompatible.
  destruct (String.eqb_spec (Route a) (Route b)) as [E|E].
  - apply Hr in E as [-> ->]. rewrite !String.eqb_refl.
    destruct (Bool.eqb _ _); reflexivity.
  - destruct (String.eqb_spec (Origin a) (Origin b)) as [Eo|]; [|reflexivity].
    destruct (String.eqb_spec (Destination a) (Destination b)) as [Ed|]; [|reflexivity].
    exfalso. apply E, Hr. auto.
Qed.

Lemma X7_Route_injective_witness :
  (Route (mkOrder "A" 1 1 1 "LA" "NYC" false) = Route (mkOrder "B" 1 1 1 "LA" "SEA" false)
   <-> "LA"%string = "LA"%string /\ "NYC"%string = "SEA"%string)
  /\ CanCombine NewConstraintChecker (mkOrder "A" 1 1 1 "LA" "NYC" false)
       (mkOrder "B" 1 1 1 "LA" "SEA" false)
     = String.eqb "LA" "LA" && String.eqb "NYC" "SEA" && Bool.eqb false false.
Proof.
  apply (X7_Route_injective (mkOrder "A" 1 1 1 "LA" "NYC" false)
           (mkOrder "B" 1 1 1 "LA" "SEA" false)); reflexivity.
Defined.

Lemma string_length_app (a b : string) :
  String.length (a ++ b) = (String.length a + String.length b)%nat.
Proof.
  induction a as [|c a IH]; [reflexivity|]. rewrite string_app_cons. simpl. rewrite IH.
  reflexivity.
Qed.

(** X8. The route key does not separate origin from destination: an order
    from [x->y] to [z] and an order from [x] to [y->z] have the same key, and
    the default [CanCombine] accepts the pair although the origins differ. *)
Theorem X8_Route_collision (o : Order) (x y z : string) :
  let a := {| ID := ID o; Payout := Payout o; WeightLbs := WeightLbs o;
              VolumeCuft := VolumeCuft o; Origin := (x ++ "->" ++ y)%string; Destination := z;
              PickupDate := PickupDate o; DeliveryDate := DeliveryDate o;
              IsHazmat := IsHazmat o |} in
  let b := {| ID := ID o; Payout := Payout o; WeightLbs := WeightLbs o;
              VolumeCuft := VolumeCuft o; Origin := x; Destination := (y ++ "->" ++ z)%string;
              PickupDate := PickupDate o; DeliveryDate := DeliveryDate o;
              IsHazmat := IsHazmat o |} in
  Origin a <> Origin b /\ CanCombine NewConstraintChecker a b = true.
Proof.
  intros a b. split.
  - cbn [Origin a b]. intros E.
    assert (H : String.length (x ++ "->" ++ y) = String.length x) by (rewrite E; reflexivity).
    rewrite !string_length_app in H. simpl in H. lia.
  - cbn [CanCombine NewConstraintChecker]. unfold DefaultConstraintChecker.CanCombine, Route.
    cbn [Origin Destination IsHazmat a b].
    rewrite !string_app_assoc, String.eqb_refl, Bool.eqb_reflx. reflexivity.
Qed.

(** X9. [ValidateOrderSet] of the strict checker is the method of the embedded
    default checker and calls the default [CanCombine]: two orders of one
    route and hazmat class whose pickups lie more than one day apart are
    refused by the strict [CanCombine] and still pass the strict checker's
    [ValidateOrderSet]. *)
Theorem X9_Strict_ValidateOrderSet_ignores_dates (a b : Order) (da db : Z) :
  CanCombine NewConstraintChecker a b = true ->
  1 < Z.abs (da - db) ->
  CanCombine StrictChecker (on_day a da) (on_day b db) = false
  /\ ValidateOrderSet StrictChecker [on_day a da; on_day b db] = true.
Proof.
  cbn [CanCombine NewConstraintChecker StrictChecker ValidateOrderSet]. intros Hc Hd. split.
  - rewrite Strict_CanCombine_unfold. cbn [PickupDate on_day].
    rewrite Time_Sub_days, within_one_day_spec.
    destruct (Z.leb_spec (Z.abs (da - db)) 1); [lia|]. apply andb_false_r.
  - unfold DefaultConstraintChecker.ValidateOrderSet.
    cbn [length Nat.eqb DefaultConstraintChecker.ValidateOrderSet_from forallb].
    rewrite !andb_true_r. exact Hc.
Qed.

Lemma X9_Strict_ValidateOrderSet_ignores_dates_witness :
  CanCombine StrictChecker (on_day (mkOrder "O1" 1 1 1 "LA" "NYC" false) 0)
    (on_day (mkOrder "O2" 1 1 1 "LA" "NYC" false) 2) = false
  /\ ValidateOrderSet StrictChecker
       [on_day (mkOrder "O1" 1 1 1 "LA" "NYC" false) 0;
        on_day (mkOrder "O2" 1 1 1 "LA" "NYC" false) 2] = true.
Proof.
  apply (X9_Strict_ValidateOrderSet_ignores_dates
           (mkOrder "O1" 1 1 1 "LA" "NYC" false) (mkOrder "O2" 1 1 1 "LA" "NYC" false) 0 2).
  - reflexivity.
  - simpl. lia.
Defined.

(** ** Package domain: State (models.go) *)

Lemma shl1_low (i : Z) : 0 <= i < 63 -> shl1 i = Some (2 ^ i).
Proof.
  intros Hi. unfold shl1. destruct (Z.ltb_spec i 0); [lia|].
  rewrite Z.shiftl_1_l, wrap64_id; [reflexivity|].
  assert (0 < 2 ^ i) by (apply Z.pow_pos_nonneg; lia).
  assert (2 ^ i < 2 ^ 63) by (apply Z.pow_lt_mono_r; lia).
  int64_lia.
Qed.

Lemma shl1_sign : shl1 63 = Some min_int64.
Proof. reflexivity. Qed.

Lemma shl1_high (i : Z) : 64 <= i -> shl1 i = Some 0.
Proof.
  intros Hi. unfold shl1. destruct (Z.ltb_spec i 0); [lia|].
  rewrite Z.shiftl_1_l. unfold wrap64.
  replace i with (64 + (i - 64)) by lia. rewrite Z.pow_add_r by lia.
  rewrite Z.add_comm, Z.mul_comm, Z_mod_plus_full. reflexivity.
Qed.

Lemma shl1_neg (i : Z) : i < 0 -> shl1 i = None.
Proof. intros Hi. unfold shl1. destruct (Z.ltb_spec i 0); [reflexivity|lia]. Qed.

(** The bits of [1 << i]. *)
Lemma shl1_testbit (i bit k : Z) :
  shl1 i = Some bit -> 0 <= k < 64 -> Z.testbit bit k = (i =? k).
Proof.
  intros H Hk. destruct (Z_lt_le_dec i 0) as [Hn|Hn]; [rewrite shl1_neg in H by lia; discriminate|].
  destruct (Z_lt_le_dec i 63) as [Hlo|Hlo].
  - rewrite shl1_low in H by lia. injection H as <-. rewrite Z.pow2_bits_eqb by lia. reflexivity.
  - destruct (Z.eq_dec i 63) as [->|Hne].
    + rewrite shl1_sign in H. injection H as <-.
      destruct (Z.eqb_spec 63 k) as [<-|Hk']; [reflexivity|].
      unfold min_int64. replace (- 2 ^ 63) with (Z.lnot (Z.ones 63)).
      * rewrite Z.lnot_spec, Z.ones_spec_low by lia. reflexivity.
      * reflexivity.
    + assert (Hi : 64 <= i) by lia. rewrite shl1_high in H by lia. injection H as <-.
      rewrite Z.bits_0. symmetry. apply Z.eqb_neq. lia.
Qed.
Lemma Z_land_pow2_eqb (m i : Z) : 0 <= i -> (Z.land m (2 ^ i) =? 0) = negb (Z.testbit m i).
Proof.
  intros Hi. destruct (Z.testbit m i) eqn:E; simpl.
  - apply Z.eqb_neq. intros H0.
    assert (Hb : Z.testbit (Z.land m (2 ^ i)) i = true)
      by (rewrite Z.land_spec, E, Z.pow2_bits_true by lia; reflexivity).
    rewrite H0, Z.bits_0 in Hb. discriminate.
  - apply Z.eqb_eq, Z.bits_inj'. intros k Hk.
    rewrite Z.land_spec, Z.bits_0, Z.pow2_bits_eqb by lia.
    destruct (Z.eqb_spec i k) as [->|_]; [rewrite E|]; auto using andb_false_r.
Qed.

Lemma min_int64_testbit (k : Z) : 0 <= k -> Z.testbit min_int64 k = (63 <=? k).
Proof.
  intros Hk. change min_int64 with (Z.lnot (Z.ones 63)). rewrite Z.lnot_spec by lia.
  destruct (Z.leb_spec 63 k).
  - rewrite Z.ones_spec_high by lia. reflexivity.
  - rewrite Z.ones_spec_low by lia. reflexivity.
Qed.

(** Two distinct shift counts give disjoint bits. *)
Lemma shl1_disjoint (i j bi bj : Z) :
  shl1 i = Some bi -> shl1 j = Some bj -> i <> j -> Z.land bi bj = 0.
Proof.
  intros Hi Hj Hne.
  destruct (Z_lt_le_dec i 0); [rewrite shl1_neg in Hi by lia; discriminate|].
  destruct (Z_lt_le_dec j 0); [rewrite shl1_neg in Hj by lia; discriminate|].
  destruct (Z_lt_le_dec 63 i) as [Hi'|Hi'];
    [rewrite shl1_high in Hi by lia; injection Hi as <-; apply Z.land_0_l|].
  destruct (Z_lt_le_dec 63 j) as [Hj'|Hj'];
    [rewrite shl1_high in Hj by lia; injection Hj as <-; apply Z.land_0_r|].
  apply Z.bits_inj'. intros k Hk. rewrite Z.land_spec, Z.bits_0.
  destruct (Z.eq_dec i 63) as [->|Hi63]; destruct (Z.eq_dec j 63) as [->|Hj63]; [lia| | |].
  - rewrite shl1_sign in Hi. rewrite shl1_low in Hj by lia.
    injection Hi as <-. injection Hj as <-.
    rewrite min_int64_testbit, Z.pow2_bits_eqb by lia.
    destruct (Z.leb_spec 63 k); [|reflexivity]. destruct (Z.eqb_spec j k); [lia|reflexivity].
  - rewrite shl1_sign in Hj. rewrite shl1_low in Hi by lia.
    injection Hi as <-. injection Hj as <-.
    rewrite min_int64_testbit, Z.pow2_bits_eqb by lia.
    destruct (Z.eqb_spec i k); [|reflexivity]. destruct (Z.leb_spec 63 k); [lia|reflexivity].
  - rewrite shl1_low in Hi, Hj by lia. injection Hi as <-. injection Hj as <-.
    rewrite !Z.pow2_bits_eqb by lia.
    destruct (Z.eqb_spec i k); [|reflexivity]. destruct (Z.eqb_spec j k); [lia|reflexivity].
Qed.

Lemma shl1_nonzero (i bit : Z) : shl1 i = Some bit -> i < 64 -> bit <> 0.
Proof.
  intros H Hi. destruct (Z_lt_le_dec i 0); [rewrite shl1_neg in H by lia; discriminate|].
  destruct (Z.eq_dec i 63) as [->|].
  - rewrite shl1_sign in H. injection H as <-. discriminate.
  - rewrite shl1_low in H by lia. injection H as <-.
    assert (0 < 2 ^ i) by (apply Z.pow_pos_nonneg; lia). lia.
Qed.

(** X10. For a position [i] from 0 to 63, [AddOrder] returns a valid state
    that has order [i], and has every other position [j >= 0] exactly when
    the state it started from has it. *)
Theorem X10_State_AddOrder_HasOrder (s : State) (order : Order) (i j : Z) :
  0 <= i < 64 -> 0 <= j -> j <> i ->
  exists s',
    State_AddOrder s order i = Some s'
    /\ State_HasOrder s' i = Some true
    /\ State_HasOrder s' j = State_HasOrder s j
    /\ Valid s' = true.
Proof.
  intros Hi Hj Hne. unfold State_AddOrder, State_HasOrder.
  destruct (shl1 i) as [bi|] eqn:Ei;
    [|unfold shl1 in Ei; destruct (Z.ltb_spec i 0); [lia|discriminate]].
  eexists. split; [reflexivity|]. cbn [Mask Valid]. split; [|split; [|reflexivity]].
  - f_equal. apply negb_true_iff, Z.eqb_neq.
    rewrite Z.land_lor_distr_l, Z.land_diag. intros H0.
    apply Z.lor_eq_0_iff in H0 as [_ H0]. apply (shl1_nonzero i bi Ei); lia.
  - destruct (shl1 j) as [bj|] eqn:Ej; [|reflexivity].
    rewrite Z.land_lor_distr_l, (shl1_disjoint i j bi bj Ei Ej) by lia.
    rewrite Z.lor_0_r. reflexivity.
Qed.

Lemma X10_State_AddOrder_HasOrder_witness :
  exists s',
    State_AddOrder NewState (mkOrder "O1" 5 1 1 "LA" "NYC" false) 63 = Some s'
    /\ State_HasOrder s' 63 = Some true
    /\ State_HasOrder s' 2 = State_HasOrder NewState 2
    /\ Valid s' = true.
Proof.
  apply (X10_State_AddOrder_HasOrder NewState (mkOrder "O1" 5 1 1 "LA" "NYC" false) 63 2); lia.
Defined.

(** X11. Positions outside 0..63.  A negative position makes [AddOrder] and
    [HasOrder] panic.  A position of 64 or more shifts the bit out: [HasOrder]
    answers false, and [AddOrder] returns a state with the mask unchanged,
    which still does not have the order. *)
Theorem X11_State_index_out_of_range (s : State) (order : Order) (i : Z) :
  (i < 0 -> State_AddOrder s order i = None /\ State_HasOrder s i = None)
  /\ (64 <= i ->
      State_HasOrder s i = Some false
      /\ exists s', State_AddOrder s order i = Some s' /\ Mask s' = Mask s
                    /\ State_HasOrder s' i = Some false).
Proof.
  unfold State_AddOrder, State_HasOrder. split; intros Hi.
  - rewrite shl1_neg by lia. auto.
  - rewrite shl1_high by lia. rewrite Z.land_0_r. split; [reflexivity|].
    eexists. split; [reflexivity|]. cbn [Mask]. rewrite Z.lor_0_r, Z.land_0_r. auto.
Qed.

Lemma Z_testbit_of_nat (m k : nat) : Z.testbit (Z.of_nat m) (Z.of_nat k) = Nat.testbit m k.
Proof.
  apply Z.b2z_inj. rewrite Z.testbit_spec' by lia.
  pose proof (Nat.testbit_spec' m k) as H.
  apply (f_equal Z.of_nat) in H.
  rewrite Nat2Z.inj_mod, Nat2Z.inj_div, Nat2Z.inj_pow in H.
  change (Z.of_nat 2) with 2 in H.
  rewrite <- H. destruct (Nat.testbit m k); reflexivity.
Qed.

Lemma Z_of_nat_lor_pow (m i : nat) :
  Z.of_nat (Nat.lor m (2 ^ i)) = Z.lor (Z.of_nat m) (2 ^ Z.of_nat i).
Proof.
  apply Z.bits_inj'. intros k Hk. rewrite <- (Z2Nat.id k) by lia.
  rewrite Z.lor_spec, !Z_testbit_of_nat, Nat.lor_spec, Nat.pow2_bits_eqb, Z.pow2_bits_eqb by lia.
  f_equal. destruct (Nat.eqb_spec i (Z.to_nat k)), (Z.eqb_spec (Z.of_nat i) (Z.of_nat (Z.to_nat k)));
    try reflexivity; lia.
Qed.

(** X12. [State] and the table sweep of [DPOptimizer.Optimize] read and write
    the same bits: on a subset mask below [2^63], [HasOrder] is the test
    [(mask & (1 << i)) != 0] of the sweep, and for [i < 63] [AddOrder] gives
    the mask [mask | (1 << i)] with the sums the sweep stores for it. *)
Theorem X12_State_agrees_with_sweep (s : State) (order : Order) (mask i : nat) :
  Mask s = Z.of_nat mask -> (mask < 2 ^ 63)%nat ->
  State_HasOrder s (Z.of_nat i) = Some (bit_set mask i)
  /\ ((i < 63)%nat ->
      State_AddOrder s order (Z.of_nat i)
      = Some {| Mask := Z.of_nat (Nat.lor mask (Nat.shiftl 1 i));
                State_Payout := add64 (State_Payout s) (Payout order);
                State_WeightLbs := add64 (State_WeightLbs s) (WeightLbs order);
                State_VolumeCuft := add64 (State_VolumeCuft s) (VolumeCuft order);
                Valid := true |}).
Proof.
  intros Hm Hlt. split.
  - unfold State_HasOrder. rewrite bit_set_testbit, Hm.
    destruct (Nat.lt_ge_cases i 63) as [Hi|Hi].
    + rewrite shl1_low by lia. rewrite Z_land_pow2_eqb by lia.
      rewrite negb_involutive, Z_testbit_of_nat. reflexivity.
    + rewrite (testbit_above mask 63 i) by lia.
      destruct (Nat.eq_dec i 63%nat) as [->|Hne].
      * change (shl1 (Z.of_nat 63%nat)) with (Some min_int64). cbv iota beta.
        f_equal. apply negb_false_iff, Z.eqb_eq.
        apply Z.bits_inj'. intros k Hk. rewrite Z.land_spec, Z.bits_0, min_int64_testbit by lia.
        destruct (Z.leb_spec 63 k); [|apply andb_false_r].
        rewrite <- (Z2Nat.id k) by lia. rewrite Z_testbit_of_nat.
        rewrite (testbit_above mask 63) by lia. reflexivity.
      * rewrite shl1_high by lia. rewrite Z.land_0_r. reflexivity.
  - intros Hi. unfold State_AddOrder. rewrite shl1_low by lia.
    rewrite Nat.shiftl_1_l, Z_of_nat_lor_pow, Hm. reflexivity.
Qed.

Lemma X12_State_agrees_with_sweep_witness :
  State_HasOrder NewState (Z.of_nat 3) = Some (bit_set 0 3)
  /\ ((3 < 63)%nat ->
      State_AddOrder NewState (mkOrder "O1" 5 1 1 "LA" "NYC" false) (Z.of_nat 3)
      = Some {| Mask := Z.of_nat (Nat.lor 0 (Nat.shiftl 1 3));
                State_Payout := add64 (State_Payout NewState) 5;
                State_WeightLbs := add64 (State_WeightLbs NewState) 1;
                State_VolumeCuft := add64 (State_VolumeCuft NewState) 1;
                Valid := true |}).
Proof.
  apply (X12_State_agrees_with_sweep NewState (mkOrder "O1" 5 1 1 "LA" "NYC" false) 0 3).
  - reflexivity.
  - apply Nat.neq_0_lt_0, Nat.pow_nonzero. lia.
Defined.

(** ** Package domain: request validation (models.go) *)

Lemma Orders_Validate_ids (orders : list Order) : forall seen,
  Orders_Validate seen orders = true ->
  NoDup (map ID orders)
  /\ Forall (fun o => ID o ∉ seen) orders
  /\ Forall (fun o => Order_Validate o = true) orders.
Proof.
  induction orders as [|o l IH]; intros seen H; cbn [Orders_Validate map] in *.
  - repeat split; constructor.
  - destruct (bool_decide (ID o ∈ seen)) eqn:Hseen; [discriminate|].
    apply bool_decide_eq_false in Hseen.
    destruct (Order_Validate o) eqn:Ho; [|discriminate]. cbn [negb] in H.
    destruct (IH _ H) as (Hnd & Hfresh & Hval). rewrite Forall_forall in Hfresh.
    split; [|split].
    + apply NoDup_cons. split; [|exact Hnd].
      intros Hin. apply list_elem_of_fmap in Hin as (x & Hx & Hin).
      apply (Hfresh x Hin). rewrite <- Hx. apply elem_of_union. left.
      apply elem_of_singleton. reflexivity.
    + constructor; [exact Hseen|]. apply Forall_forall. intros x Hx Hin.
      apply (Hfresh x Hx), elem_of_union. right. exact Hin.
    + constructor; assumption.
Qed.

Lemma Order_Validate_iff (o : Order) : Order_Validate o = true <-> acceptable_order o.
Proof.
  unfold Order_Validate, acceptable_order.
  rewrite !andb_true_iff, !negb_true_iff, !Z.ltb_lt, !Z.leb_le, !Nat.leb_le.
  destruct (String.eqb_spec (ID o) ""), (String.eqb_spec (Origin o) ""),
    (String.eqb_spec (Destination o) ""); intuition (try congruence; try lia).
Qed.

(** X13. What a request that passes [Validate] is known to satisfy: a named
    truck within the capacity caps, between 1 and 22 orders with pairwise
    distinct ids, and every order within the conditions of
    [OrderInput.Validate]; truck and orders are handed on unchanged. *)
Theorem X13_Validate_contract (r r' : OptimizeRequest) :
  Validate r = Some r' ->
  Truck_of r' = Truck_of r /\ Orders r' = Orders r
  /\ Truck_ID (Truck_of r) <> ""%string
  /\ valid_truck (Truck_of r)
  /\ (1 <= length (Orders r) <= 22)%nat
  /\ NoDup (map ID (Orders r))
  /\ Forall acceptable_order (Orders r)
  /\ (Config r = None <-> Config r' = None).
Proof.
  unfold Validate. intros H.
  destruct (String.eqb_spec (Truck_ID (Truck_of r)) "") as [|Hid]; [discriminate|].
  destruct (Z.leb_spec (MaxWeightLbs (Truck_of r)) 0); [discriminate|].
  destruct (Z.gtb_spec (MaxWeightLbs (Truck_of r)) 1000000); [discriminate|].
  destruct (Z.leb_spec (MaxVolumeCuft (Truck_of r)) 0); [discriminate|].
  destruct (Z.gtb_spec (MaxVolumeCuft (Truck_of r)) 100000); [discriminate|].
  destruct (Nat.eqb_spec (length (Orders r)) 0); [discriminate|].
  destruct (Nat.ltb_spec 22 (length (Orders r))); [discriminate|].
  destruct (Orders_Validate ∅ (Orders r)) eqn:E; [|discriminate]. cbn [negb] in H.
  destruct (Orders_Validate_ids _ _ E) as (Hnd & _ & Hval).
  assert (Hords : Forall acceptable_order (Orders r)).
  { eapply Forall_impl; [exact Hval|]. intros o Ho. apply Order_Validate_iff, Ho. }
  assert (Ht : valid_truck (Truck_of r)) by (repeat split; lia).
  destruct (Config r) as [c|] eqn:Ec.
  - destruct (OptimizationConfig_Validate c); [|discriminate].
    injection H as <-. cbn [Truck_of Orders Config].
    repeat split; auto; try lia; discriminate.
  - injection H as <-. rewrite Ec. repeat split; auto; lia.
Qed.

Lemma X13_Validate_contract_witness :
  Truck_of requestW' = Truck_of requestW /\ Orders requestW' = Orders requestW
  /\ Truck_ID (Truck_of requestW) <> ""%string
  /\ valid_truck (Truck_of requestW)
  /\ (1 <= length (Orders requestW) <= 22)%nat
  /\ NoDup (map ID (Orders requestW))
  /\ Forall acceptable_order (Orders requestW)
  /\ (Config requestW = None <-> Config requestW' = None).
Proof.
  apply (X13_Validate_contract requestW requestW'). vm_compute. reflexivity.
Defined.

Lemma Config_Validate_cases (c c' : OptimizationConfig) :
  OptimizationConfig_Validate c = Some c' ->
  (Objective c' = "revenue" \/ Objective c' = "utilization" \/ Objective c' = "balanced")%string
  /\ (Algorithm c' = "dp" \/ Algorithm c' = "backtracking" \/ Algorithm c' = "greedy"
      \/ Algorithm c' = "auto")%string
  /\ ((RevenueWeight c' <? 0) || (1 <? RevenueWeight c'))%float = false
  /\ ((UtilizationWeight c' <? 0) || (1 <? UtilizationWeight c'))%float = false
  /\ ((RevenueWeight c' =? 0) && (UtilizationWeight c' =? 0))%float = false.
Proof.
  unfold OptimizationConfig_Validate. intros H.
  set (objective := if String.eqb (Objective c) "" then "revenue"%string else Objective c) in *.
  set (algorithm := if String.eqb (Algorithm c) "" then "auto"%string else Algorithm c) in *.
  destruct (String.eqb_spec objective "revenue") as [Eo1|No1];
    [|destruct (String.eqb_spec objective "utilization") as [Eo2|No2];
      [|destruct (String.eqb_spec objective "balanced") as [Eo3|No3]; [|discriminate]]];
    cbn [orb negb] in H;
    (destruct ((RevenueWeight c <? 0) || (1 <? RevenueWeight c))%float eqn:Hrw; [discriminate|]);
    (destruct ((UtilizationWeight c <? 0) || (1 <? UtilizationWeight c))%float eqn:Huw;
       [discriminate|]);
    (destruct ((RevenueWeight c =? 0) && (UtilizationWeight c =? 0))%float eqn:Hz);
    (destruct (String.eqb_spec algorithm "dp") as [Ea1|Na1];
      [|destruct (String.eqb_spec algorithm "backtracking") as [Ea2|Na2];
        [|destruct (String.eqb_spec algorithm "greedy") as [Ea3|Na3];
          [|destruct (String.eqb_spec algorithm "auto") as [Ea4|Na4]; [|discriminate]]]]);
    cbn [orb negb] in H; injection H as <-; cbn [Objective Algorithm RevenueWeight UtilizationWeight];
    repeat split; auto.
Qed.
Lemma Config_Validate_idem (c c' : OptimizationConfig) :
  OptimizationConfig_Validate c = Some c' -> OptimizationConfig_Validate c' = Some c'.
Proof.
  intros H. destruct (Config_Validate_cases c c' H) as (Ho & Ha & Hrw & Huw & Hz).
  destruct c' as [obj rwt uwt alg]. cbn [Objective Algorithm RevenueWeight UtilizationWeight] in *.
  unfold OptimizationConfig_Validate.
  cbn [Objective Algorithm RevenueWeight UtilizationWeight].
  rewrite Hrw, Huw, Hz.
  destruct Ho as [-> | [-> | ->]]; destruct Ha as [-> | [-> | [-> | ->]]]; reflexivity.
Qed.

(** X14. [Validate] is idempotent: a request it has accepted, with the
    defaults it wrote into the configuration, is accepted again and left as
    it is. *)
Theorem X14_Validate_idempotent (r r' : OptimizeRequest) :
  Validate r = Some r' -> Validate r' = Some r'.
Proof.
  intros H. pose proof H as H0. unfold Validate in H |- *.
  destruct (String.eqb (Truck_ID (Truck_of r)) "") eqn:E1; [discriminate|].
  destruct (MaxWeightLbs (Truck_of r) <=? 0) eqn:E2; [discriminate|].
  destruct (MaxWeightLbs (Truck_of r) >? 1000000) eqn:E3; [discriminate|].
  destruct (MaxVolumeCuft (Truck_of r) <=? 0) eqn:E4; [discriminate|].
  destruct (MaxVolumeCuft (Truck_of r) >? 100000) eqn:E5; [discriminate|].
  destruct (length (Orders r) =? 0)%nat eqn:E6; [discriminate|].
  destruct (22 <? length (Orders r))%nat eqn:E7; [discriminate|].
  destruct (Orders_Validate ∅ (Orders r)) eqn:E8; [|discriminate]. cbn [negb] in H.
  destruct (Config r) as [c|] eqn:Ec.
  - destruct (OptimizationConfig_Validate c) as [c'|] eqn:Ev; [|discriminate].
    injection H as <-. cbn [Truck_of Orders Config].
    rewrite E1, E2, E3, E4, E5, E6, E7, E8, (Config_Validate_idem c c' Ev). reflexivity.
  - injection H as <-. rewrite E1, E2, E3, E4, E5, E6, E7, E8, Ec. reflexivity.
Qed.

Lemma X14_Validate_idempotent_witness : Validate requestW' = Some requestW'.
Proof. apply (X14_Validate_idempotent requestW requestW'). vm_compute. reflexivity. Defined.

(** X15. The configuration [OptimizationConfig.Validate] hands on names one of
    the three objectives and one of the four algorithms; its weights pass
    the range test and are not both zero.  A non-empty objective or
    algorithm and weights that are not both zero are kept as given. *)
Theorem X15_Config_normalised (c c' : OptimizationConfig) :
  OptimizationConfig_Validate c = Some c' ->
  (Objective c' = "revenue" \/ Objective c' = "utilization" \/ Objective c' = "balanced")%string
  /\ (Algorithm c' = "dp" \/ Algorithm c' = "backtracking" \/ Algorithm c' = "greedy"
      \/ Algorithm c' = "auto")%string
  /\ ((RevenueWeight c' <? 0) || (1 <? RevenueWeight c'))%float = false
  /\ ((UtilizationWeight c' <? 0) || (1 <? UtilizationWeight c'))%float = false
  /\ ((RevenueWeight c' =? 0) && (UtilizationWeight c' =? 0))%float = false
  /\ (Objective c <> ""%string -> Objective c' = Objective c)
  /\ (Algorithm c <> ""%string -> Algorithm c' = Algorithm c)
  /\ (((RevenueWeight c =? 0) && (UtilizationWeight c =? 0))%float = false ->
      RevenueWeight c' = RevenueWeight c /\ UtilizationWeight c' = UtilizationWeight c).
Proof.
  intros H. destruct (Config_Validate_cases c c' H) as (Ho & Ha & Hrw & Huw & Hz).
  repeat (split; [assumption|]).
  unfold OptimizationConfig_Validate in H.
  destruct (negb _); [discriminate|].
  destruct (_ || _)%float; [discriminate|]. destruct (_ || _)%float; [discriminate|].
  destruct ((RevenueWeight c =? 0) && (UtilizationWeight c =? 0))%float eqn:Hzero.
  - destruct (if String.eqb _ "revenue" then _ else _) as [rw uw].
    destruct (negb _); [discriminate|]. injection H as <-.
    cbn [Objective Algorithm RevenueWeight UtilizationWeight].
    split; [|split; [|discriminate]].
    + intros Hne. destruct (String.eqb_spec (Objective c) ""); [contradiction|reflexivity].
    + intros Hne. destruct (String.eqb_spec (Algorithm c) ""); [contradiction|reflexivity].
  - destruct (negb _); [discriminate|]. injection H as <-.
    cbn [Objective Algorithm RevenueWeight UtilizationWeight].
    split; [|split; [|auto]].
    + intros Hne. destruct (String.eqb_spec (Objective c) ""); [contradiction|reflexivity].
    + intros Hne. destruct (String.eqb_spec (Algorithm c) ""); [contradiction|reflexivity].
Qed.

Lemma X15_Config_normalised_witness :
  let c' := {| Objective := "balanced"; RevenueWeight := 0.5;
               UtilizationWeight := 0.5; Algorithm := "auto" |} in
  (Objective c' = "revenue" \/ Objective c' = "utilization" \/ Objective c' = "balanced")%string
  /\ (Algorithm c' = "dp" \/ Algorithm c' = "backtracking" \/ Algorithm c' = "greedy"
      \/ Algorithm c' = "auto")%string
  /\ ((RevenueWeight c' <? 0) || (1 <? RevenueWeight c'))%float = false
  /\ ((UtilizationWeight c' <? 0) || (1 <? UtilizationWeight c'))%float = false
  /\ ((RevenueWeight c' =? 0) && (UtilizationWeight c' =? 0))%float = false
  /\ (Objective balanced <> ""%string -> Objective c' = Objective balanced)
  /\ (Algorithm balanced <> ""%string -> Algorithm c' = Algorithm balanced)
  /\ (((RevenueWeight balanced =? 0) && (UtilizationWeight balanced =? 0))%float = false ->
      RevenueWeight c' = RevenueWeight balanced
      /\ UtilizationWeight c' = UtilizationWeight balanced).
Proof.
  apply (X15_Config_normalised balanced). vm_compute. reflexivity.
Defined.

Lemma Orders_Validate_complete (orders : list Order) : forall seen,
  NoDup (map ID orders) -> Forall (fun o => ID o ∉ seen) orders ->
  Forall acceptable_order orders -> Orders_Validate seen orders = true.
Proof.
  induction orders as [|o l IH]; intros seen Hnd Hfresh Hok; cbn [Orders_Validate]; [reflexivity|].
  cbn [map] in Hnd. apply NoDup_cons in Hnd as [Hno Hnd].
  inversion Hfresh as [|? ? Hf Hfresh']; subst. inversion Hok as [|? ? Ho Hok']; subst.
  rewrite bool_decide_eq_false_2 by exact Hf.
  rewrite (proj2 (Order_Validate_iff o) Ho). cbn [negb].
  apply IH; [exact Hnd| |exact Hok'].
  rewrite Forall_forall in Hfresh'. apply Forall_forall. intros x Hx Hin.
  apply elem_of_union in Hin as [Hin|Hin].
  - apply elem_of_singleton in Hin. apply Hno. rewrite <- Hin.
    apply list_elem_of_fmap. exists x. split; [reflexivity|exact Hx].
  - apply (Hfresh' x Hx Hin).
Qed.

(** X16. Conversely, [Validate] accepts every request with a named truck
    within the capacity caps and between 1 and 22 orders with pairwise
    distinct ids, each within the conditions of [OrderInput.Validate],
    provided the configuration, if there is one, is accepted; truck and
    orders are handed on unchanged. *)
Theorem X16_Validate_accepts (r : OptimizeRequest) :
  Truck_ID (Truck_of r) <> ""%string ->
  valid_truck (Truck_of r) ->
  (1 <= length (Orders r) <= 22)%nat ->
  NoDup (map ID (Orders r)) ->
  Forall acceptable_order (Orders r) ->
  (forall c, Config r = Some c -> OptimizationConfig_Validate c <> None) ->
  exists r', Validate r = Some r' /\ Truck_of r' = Truck_of r /\ Orders r' = Orders r.
Proof.
  intros Hid ((HW0 & HW1) & (HV0 & HV1)) Hlen Hnd Hok Hcfg. unfold Validate.
  destruct (String.eqb_spec (Truck_ID (Truck_of r)) ""); [contradiction|].
  destruct (Z.leb_spec (MaxWeightLbs (Truck_of r)) 0); [lia|].
  destruct (Z.gtb_spec (MaxWeightLbs (Truck_of r)) 1000000); [lia|].
  destruct (Z.leb_spec (MaxVolumeCuft (Truck_of r)) 0); [lia|].
  destruct (Z.gtb_spec (MaxVolumeCuft (Truck_of r)) 100000); [lia|].
  destruct (Nat.eqb_spec (length (Orders r)) 0); [lia|].
  destruct (Nat.ltb_spec 22 (length (Orders r))); [lia|].
  rewrite (Orders_Validate_complete (Orders r) ∅ Hnd); [|
    apply Forall_forall; intros x _; apply not_elem_of_empty|exact Hok].
  cbn [negb]. destruct (Config r) as [c|] eqn:Ec.
  - destruct (OptimizationConfig_Validate c) as [c'|] eqn:Ev.
    + eexists. split; [reflexivity|]. split; reflexivity.
    + exfalso. apply (Hcfg c eq_refl Ev).
  - exists r. auto.
Qed.

Lemma X16_Validate_accepts_witness :
  exists r', Validate requestA = Some r' /\ Truck_of r' = Truck_of requestA
             /\ Orders r' = Orders requestA.
Proof.
  apply (X16_Validate_accepts requestA).
  - discriminate.
  - vm_compute. repeat split; congruence.
  - simpl. lia.
  - simpl. constructor; [|constructor; [apply not_elem_of_nil|constructor]].
    intros H. apply list_elem_of_singleton in H. discriminate H.
  - repeat constructor; simpl; try lia; discriminate.
  - intros c H. discriminate H.
Defined.

(** ** Package algorithm: the bitmask solver's compatibility tests *)

(** X17. For fewer than 64 orders the table of incompatibility masks has one
    entry per order; bit [j] of entry [i] is set exactly for the positions
    [j < n] other than [i] whose order cannot be combined with order [i].
    For the default checker the table is symmetric. *)
Theorem X17_incompatibleMask_bits (dp : DPOptimizer) (orders : list Order) (i j : nat) :
  (length orders < 64)%nat ->
  let n := length orders in
  let masks := incompatibleMasks dp orders n in
  length masks = n
  /\ ((i < n)%nat ->
      Nat.testbit (masks !!! i) j
      = negb (i =? j)%nat && (j <? n)%nat
        && negb (CanCombine (dp_checker dp) (orders !!! i) (orders !!! j)))
  /\ (dp = NewDPOptimizer -> (i < n)%nat -> (j < n)%nat ->
      Nat.testbit (masks !!! i) j = Nat.testbit (masks !!! j) i).
Proof.
  intros _ n masks. split; [|split].
  - unfold masks, incompatibleMasks. rewrite length_map, length_seq. reflexivity.
  - intros Hi. unfold masks. rewrite incompatibleMasks_lookup by exact Hi.
    rewrite incompatibleRow_testbit.
    destruct (negb (i =? j)%nat), (j <? n)%nat, (CanCombine _ _ _); reflexivity.
  - intros -> Hi Hj. unfold masks. rewrite !incompatibleMasks_lookup by assumption.
    rewrite !incompatibleRow_testbit. cbn [dp_checker NewDPOptimizer CanCombine NewConstraintChecker].
    rewrite (DefaultCanCombine_sym (orders !!! j)), (Nat.eqb_sym j i).
    destruct (Nat.ltb_spec i n); [|lia]. destruct (Nat.ltb_spec j n); [|lia]. reflexivity.
Qed.

Lemma X17_incompatibleMask_bits_witness :
  let n := length ordersC in
  let masks := incompatibleMasks NewDPOptimizer ordersC n in
  length masks = n
  /\ ((0 < n)%nat ->
      Nat.testbit (masks !!! 0%nat) 1
      = negb (0 =? 1)%nat && (1 <? n)%nat
        && negb (CanCombine (dp_checker NewDPOptimizer) (ordersC !!! 0%nat) (ordersC !!! 1%nat)))
  /\ (NewDPOptimizer = NewDPOptimizer -> (0 < n)%nat -> (1 < n)%nat ->
      Nat.testbit (masks !!! 0%nat) 1 = Nat.testbit (masks !!! 1%nat) 0).
Proof. apply (X17_incompatibleMask_bits NewDPOptimizer ordersC 0 1). simpl. lia. Defined.

Lemma isCompatible_from_spec dp mask newOrder (orders : list Order) (js : list nat) :
  isCompatible_from dp mask newOrder orders js = true <->
  forall j, In j js -> Nat.testbit mask j = true ->
            CanCombine (dp_checker dp) newOrder (orders !!! j) = true.
Proof.
  induction js as [|j js IH]; cbn [isCompatible_from].
  - split; [intros _ j []|reflexivity].
  - rewrite bit_set_testbit. destruct (Nat.testbit mask j) eqn:Hb.
    + destruct (CanCombine (dp_checker dp) newOrder (orders !!! j)) eqn:Hc; cbn [negb].
      * rewrite IH. split.
        -- intros H k [<-|Hk] Hk'; [exact Hc|apply H; assumption].
        -- intros H k Hk. apply H. right. exact Hk.
      * split; [discriminate|]. intros H. rewrite <- Hc. apply H; [left; reflexivity|exact Hb].
    + rewrite IH. split.
      * intros H k [<-|Hk] Hk'; [congruence|apply H; assumption].
      * intros H k Hk. apply H. right. exact Hk.
Qed.

(** X18. For the default checker, an in-range position [i] and any subset
    mask, the loop of [isCompatibleWithState] and the test
    [mask & incompatibleMask[i] == 0] of the sweep give the same answer; out
    of range the helper panics. *)
Theorem X18_isCompatibleWithState_bitmask (orders : list Order) (mask i : nat) :
  ((i < length orders)%nat ->
   isCompatibleWithState NewDPOptimizer mask i orders
   = Some (Nat.land mask (incompatibleMasks NewDPOptimizer orders (length orders) !!! i) =? 0)%nat)
  /\ ((length orders <= i)%nat -> isCompatibleWithState NewDPOptimizer mask i orders = None).
Proof.
  unfold isCompatibleWithState. split; intros Hi.
  - destruct (lookup_lt_is_Some_2 orders i Hi) as [o Ho]. rewrite Ho. f_equal.
    assert (Hoi : orders !!! i = o) by (apply list_lookup_total_correct, Ho).
    apply eq_true_iff_eq. rewrite isCompatible_from_spec, Nat.eqb_eq.
    rewrite (compat_check NewDPOptimizer orders (length orders) mask i Hi), Hoi.
    split.
    + intros H j Hj _ Hb. apply H; [apply in_seq; lia|exact Hb].
    + intros H j Hj Hb. apply in_seq in Hj. destruct (Nat.eq_dec j i) as [->|Hne].
      * rewrite Hoi. cbn [dp_checker NewDPOptimizer CanCombine NewConstraintChecker].
        unfold DefaultConstraintChecker.CanCombine.
        rewrite String.eqb_refl, Bool.eqb_reflx. reflexivity.
      * apply H; [lia|exact Hne|exact Hb].
  - rewrite lookup_ge_None_2 by lia. reflexivity.
Qed.

(** ** The order of floats *)

Ltac key_cases :=
  repeat match goal with
         | s : bool |- _ => destruct s
         | |- context [Z.compare ?x ?y] => destruct (Z.compare_spec x y)
         | |- context [Pos.compare_cont Eq ?x ?y] =>
             change (Pos.compare_cont Eq x y) with (Pos.compare x y);
             destruct (Pos.compare_spec x y)
         end.

Lemma SFltb_key (a b : spec_float) :
  SFltb a b = true <->
  SFis_nan a = false /\ SFis_nan b = false /\ key_lt (SFkey a) (SFkey b).
Proof.
  unfold SFltb, SFcompare, key_lt, SFkey, SFis_nan.
  destruct a as [sa|sa| |sa ma ea], b as [sb|sb| |sb mb eb]; key_cases;
    cbn [CompOpp]; split; try discriminate; try (intros (? & ? & ?)); try (intros _);
    repeat split; try discriminate; try lia.
Qed.

Lemma SFleb_key (a b : spec_float) :
  SFleb a b = true <->
  SFis_nan a = false /\ SFis_nan b = false /\ key_le (SFkey a) (SFkey b).
Proof.
  unfold SFleb, SFcompare, key_le, SFkey, SFis_nan.
  destruct a as [sa|sa| |sa ma ea], b as [sb|sb| |sb mb eb]; key_cases;
    cbn [CompOpp]; split; try discriminate; try (intros (? & ? & ?)); try (intros _);
    repeat split; try discriminate; try lia.
Qed.

Lemma float_ltb_key (x y : float) :
  (x <? y)%float = true <->
  SFis_nan (Prim2SF x) = false /\ SFis_nan (Prim2SF y) = false
  /\ key_lt (SFkey (Prim2SF x)) (SFkey (Prim2SF y)).
Proof. rewrite FloatAxioms.ltb_spec. apply SFltb_key. Qed.

Lemma float_leb_key (x y : float) :
  (x <=? y)%float = true <->
  SFis_nan (Prim2SF x) = false /\ SFis_nan (Prim2SF y) = false
  /\ key_le (SFkey (Prim2SF x)) (SFkey (Prim2SF y)).
Proof. rewrite FloatAxioms.leb_spec. apply SFleb_key. Qed.

Ltac key_lia :=
  unfold key_lt, key_le in *;
  repeat match goal with
         | |- context [SFkey ?f] =>
             let a := fresh "k" in let b := fresh "k" in let c := fresh "k" in
             destruct (SFkey f) as [[a b] c]
         | H : context [SFkey ?f] |- _ =>
             let a := fresh "k" in let b := fresh "k" in let c := fresh "k" in
             destruct (SFkey f) as [[a b] c]
         end;
  lia.

Lemma float_ltb_trans (x y z : float) :
  (x <? y)%float = true -> (y <? z)%float = true -> (x <? z)%float = true.
Proof.
  rewrite !float_ltb_key. intros (Hx & Hy & H1) (_ & Hz & H2).
  repeat split; try assumption. key_lia.
Qed.

Lemma float_ltb_asym (x y : float) :
  (x <? y)%float = true -> (y <? x)%float = false.
Proof.
  intros H. apply not_true_is_false. revert H.
  rewrite !float_ltb_key. intros (Hx & Hy & H1) (_ & _ & H2). key_lia.
Qed.

Lemma float_ltb_irrefl (x : float) : (x <? x)%float = false.
Proof.
  apply not_true_is_false. rewrite float_ltb_key. intros (_ & _ & H). key_lia.
Qed.

Lemma float_leb_trans (x y z : float) :
  (x <=? y)%float = true -> (y <=? z)%float = true -> (x <=? z)%float = true.
Proof.
  rewrite !float_leb_key. intros (Hx & Hy & H1) (_ & Hz & H2).
  repeat split; try assumption. key_lia.
Qed.

Lemma float_leb_ltb_trans (x y z : float) :
  (x <=? y)%float = true -> (y <? z)%float = true -> (x <? z)%float = true.
Proof.
  rewrite !float_leb_key, !float_ltb_key. intros (Hx & Hy & H1) (_ & Hz & H2).
  repeat split; try assumption. key_lia.
Qed.

Lemma float_ltb_leb_trans (x y z : float) :
  (x <? y)%float = true -> (y <=? z)%float = true -> (x <? z)%float = true.
Proof.
  rewrite !float_leb_key, !float_ltb_key. intros (Hx & Hy & H1) (_ & Hz & H2).
  repeat split; try assumption. key_lia.
Qed.

(** ** Package algorithm: the greedy solver *)

Lemma fold_left_seq_inv_from {A} (P : nat -> A -> Prop) (f : A -> nat -> A)
    (start n : nat) (a : A) :
  P start a ->
  (forall k a, (start <= k < start + n)%nat -> P k a -> P (S k) (f a k)) ->
  P (start + n)%nat (fold_left f (seq start n) a).
Proof.
  intros H0 Hstep. induction n as [|n IH]; [rewrite Nat.add_0_r; exact H0|].
  rewrite seq_S, fold_left_app. simpl. rewrite Nat.add_succ_r. apply Hstep; [lia|].
  apply IH. intros k a' Hk. apply Hstep. lia.
Qed.

Lemma swap_length (l : list Order) (i j : nat) : length (swap l i j) = length l.
Proof. unfold swap. rewrite !length_insert. reflexivity. Qed.

Lemma swap_lookup (l : list Order) (i j k : nat) :
  (i < length l)%nat -> (j < length l)%nat ->
  swap l i j !!! k = if (k =? i)%nat then l !!! j else if (k =? j)%nat then l !!! i else l !!! k.
Proof.
  intros Hi Hj. unfold swap.
  destruct (Nat.eqb_spec k i) as [->|Hki].
  - rewrite list_lookup_total_insert_eq by (rewrite length_insert; exact Hi). reflexivity.
  - rewrite list_lookup_total_insert_ne by congruence.
    destruct (Nat.eqb_spec k j) as [->|Hkj].
    + rewrite list_lookup_total_insert_eq by exact Hj. reflexivity.
    + rewrite list_lookup_total_insert_ne by congruence. reflexivity.
Qed.

Lemma sort_step_inv (len i j : nat) (l : list Order) :
  (i < j < len)%nat -> sort_inv len i j l -> sort_inv len i (S j) (sort_step i l j).
Proof.
  intros Hij (Hlen & Hout & Hin). unfold sort_step.
  destruct (density (l !!! i) <? density (l !!! j))%float eqn:Hlt.
  - split; [rewrite swap_length; exact Hlen|]. split.
    + intros a Ha k Hk. rewrite swap_length in Hk.
      rewrite !swap_lookup by lia.
      destruct (Nat.eqb_spec a i); [lia|]. destruct (Nat.eqb_spec a j); [lia|].
      destruct (Nat.eqb_spec k i); [apply (Hout a Ha); lia|].
      destruct (Nat.eqb_spec k j); [apply (Hout a Ha); lia|].
      apply (Hout a Ha); lia.
    + intros k Hk. rewrite !swap_lookup by lia. rewrite Nat.eqb_refl.
      destruct (Nat.eqb_spec k i); [lia|].
      destruct (Nat.eqb_spec k j) as [->|Hkj]; [apply float_ltb_asym, Hlt|].
      apply not_true_is_false. intros Hjk.
      pose proof (float_ltb_trans _ _ _ Hlt Hjk) as Hik.
      rewrite (Hin k) in Hik by lia. discriminate.
  - split; [exact Hlen|]. split; [exact Hout|].
    intros k Hk. destruct (Nat.eq_dec k j) as [->|Hne]; [exact Hlt|]. apply Hin. lia.
Qed.

Lemma sort_outer_inv (orders : list Order) :
  let len := length orders in
  length (sortByValueDensity orders) = len
  /\ forall a, (a < len - 1)%nat -> heads (sortByValueDensity orders) a.
Proof.
  intros len. unfold sortByValueDensity. fold len.
  apply (fold_left_seq_inv
           (fun i l => length l = len /\ forall a, (a < i)%nat -> heads l a)).
  - split; [reflexivity|]. intros a Ha. lia.
  - intros i l Hi (Hlen & Hout).
    assert (Hinner : sort_inv len i (i + 1 + (len - (i + 1)))
                       (fold_left (sort_step i) (seq (i + 1) (len - (i + 1))) l)).
    { apply (fold_left_seq_inv_from (fun J l' => sort_inv len i J l')).
      - split; [exact Hlen|]. split; [exact Hout|]. intros k Hk. lia.
      - intros j l' Hj Hinv. apply sort_step_inv; [lia|exact Hinv]. }
    destruct Hinner as (Hlen' & Hout' & Hin'). split; [exact Hlen'|].
    intros a Ha. destruct (Nat.eq_dec a i) as [->|Hne].
    + intros k Hk. apply Hin'. lia.
    + apply Hout'. lia.
Qed.

(** X19. [sortByValueDensity] rearranges the orders, losing and repeating
    none, so that no order is followed, at any distance, by one of strictly
    greater density. *)
Theorem X19_sortByValueDensity_sorted (orders : list Order) :
  sortByValueDensity orders ≡ₚ orders
  /\ forall i j a b, (i < j)%nat ->
       sortByValueDensity orders !! i = Some a ->
       sortByValueDensity orders !! j = Some b ->
       (density a <? density b)%float = false.
Proof.
  split; [apply sortByValueDensity_perm|].
  intros i j a b Hij Ha Hb.
  destruct (sort_outer_inv orders) as (Hlen & Hheads).
  pose proof (lookup_lt_Some _ _ _ Hb) as Hj.
  rewrite <- (list_lookup_total_correct _ _ _ Ha), <- (list_lookup_total_correct _ _ _ Hb).
  apply Hheads; lia.
Qed.

(** X20. The greedy selection is maximal: every order of the input is
    selected, or no longer fits beside the selection, or cannot be combined
    with a selected order.  So the selection is empty only if no order fits
    the truck. *)
Theorem X20_Greedy_maximal (truck : Truck) (orders : list Order) :
  bounded_input truck orders ->
  let r := GreedyOptimizer_Optimize NewGreedyOptimizer truck orders in
  (forall o, o ∈ orders -> settled truck r o)
  /\ (SelectedOrders r = [] -> FilterFeasibleOrders truck orders = []).
Proof.
  intros Hb r. pose proof (bounded_input_Filter _ _ Hb) as Hb'.
  assert (Hmax : forall o, o ∈ FilterFeasibleOrders truck orders -> settled truck r o).
  { intros o Ho. unfold r, GreedyOptimizer_Optimize.
    apply (greedy_fold_settled truck (FilterFeasibleOrders truck orders) Hb'
             (Filter_fits truck orders)).
    - apply greedy_inv_empty; destruct Hb as (? & ? & _); lia.
    - simpl. rewrite sortByValueDensity_perm. reflexivity.
    - right. rewrite sortByValueDensity_perm. exact Ho. }
  destruct (Greedy_sound truck orders Hb) as ((_ & HW & HV) & (HfW & HfV & _) & Hsub).
  fold r in HW, HV, HfW, HfV, Hsub.
  assert (Hnn : Forall order_nonneg (SelectedOrders r)).
  { destruct Hb' as (_ & _ & Hnn & _). eapply Forall_submseteq; eassumption. }
  pose proof (sumWeight_nonneg _ Hnn). pose proof (sumVolume_nonneg _ Hnn).
  split.
  - intros o Ho.
    destruct (Z_lt_le_dec (MaxWeightLbs truck) (WeightLbs o)); [right; left; lia|].
    destruct (Z_lt_le_dec (MaxVolumeCuft truck) (VolumeCuft o)); [right; right; left; lia|].
    apply Hmax. unfold FilterFeasibleOrders. apply list_elem_of_In, filter_In.
    split; [apply list_elem_of_In, Ho|].
    apply negb_true_iff, orb_false_iff. split; rewrite Z.gtb_ltb; apply Z.ltb_ge; lia.
  - intros Hnil. destruct (FilterFeasibleOrders truck orders) as [|o l] eqn:E; [reflexivity|].
    exfalso. assert (Ho : o ∈ FilterFeasibleOrders truck orders) by (rewrite E; left).
    pose proof (proj1 (Forall_forall _ _) (Filter_fits truck orders) o Ho) as (Hw & Hv).
    rewrite <- E in Hmax. destruct (Hmax o Ho) as [Hs|[Hs|[Hs|(s & Hs & _)]]].
    + rewrite Hnil in Hs. apply not_elem_of_nil in Hs. exact Hs.
    + rewrite HW, Hnil in Hs. simpl in Hs. lia.
    + rewrite HV, Hnil in Hs. simpl in Hs. lia.
    + rewrite Hnil in Hs. apply not_elem_of_nil in Hs. exact Hs.
Qed.

Lemma X20_Greedy_maximal_witness :
  let r := GreedyOptimizer_Optimize NewGreedyOptimizer truckD ordersD in
  (forall o, o ∈ ordersD -> settled truckD r o)
  /\ (SelectedOrders r = [] -> FilterFeasibleOrders truckD ordersD = []).
Proof.
  apply (X20_Greedy_maximal truckD ordersD).
  repeat split; try (vm_compute; congruence); try (simpl; lia).
  repeat constructor; simpl; lia.
Defined.

Lemma greedy_step_sublist g truck acc order rest sorted :
  SelectedOrders acc ++ order :: rest `sublist_of` sorted ->
  SelectedOrders (greedy_step g truck acc order) ++ rest `sublist_of` sorted.
Proof.
  intros H.
  assert (Hskip : SelectedOrders acc ++ rest `sublist_of` sorted).
  { etransitivity; [|exact H]. apply sublist_app; [reflexivity|]. apply sublist_cons. reflexivity. }
  unfold greedy_step. destruct (negb _); [exact Hskip|].
  destruct (forallb _ _); [|exact Hskip]. cbn [SelectedOrders].
  rewrite <- app_assoc. exact H.
Qed.

Lemma greedy_fold_sublist g truck sorted rest : forall acc,
  SelectedOrders acc ++ rest `sublist_of` sorted ->
  SelectedOrders (fold_left (greedy_step g truck) rest acc) `sublist_of` sorted.
Proof.
  induction rest as [|order rest IH]; intros acc H; cbn [fold_left].
  - rewrite app_nil_r in H. exact H.
  - apply IH, greedy_step_sublist, H.
Qed.

Lemma update_best_sublist b cur cp cw cv (all : list Order) :
  bestOrders b `sublist_of` all -> cur `sublist_of` all ->
  bestOrders (update_best b cur cp cw cv) `sublist_of` all.
Proof. intros Hb Hc. unfold update_best. destruct (_ >? _); assumption. Qed.

Lemma backtrack_from_sublist (all : list Order) truck rest : forall b cur cp cw cv,
  bestOrders b `sublist_of` all -> cur ++ rest `sublist_of` all ->
  bestOrders (backtrack_from b truck rest cur cp cw cv) `sublist_of` all.
Proof.
  induction rest as [|o rest IH]; intros b cur cp cw cv Hb Hc; cbn [backtrack_from].
  - rewrite app_nil_r in Hc. apply update_best_sublist; assumption.
  - assert (Hcur : cur `sublist_of` all).
    { etransitivity; [|exact Hc]. apply sublist_inserts_r. reflexivity. }
    pose proof (update_best_sublist b cur cp cw cv all Hb Hcur) as Hb'.
    destruct (_ <=? _); [exact Hb'|].
    apply IH.
    + destruct (_ && _); [|exact Hb']. destruct (forallb _ _); [|exact Hb'].
      apply IH; [exact Hb'|]. rewrite <- app_assoc. exact Hc.
    + etransitivity; [|exact Hc]. apply sublist_app; [reflexivity|].
      apply sublist_cons. reflexivity.
Qed.

(** X21. The order of the selection returned.  The bitmask and the
    backtracking solver list the selected orders in the order of the input;
    the greedy solver lists them in the order of its density ranking. *)
Theorem X21_selection_order (dp : DPOptimizer) (g : GreedyOptimizer) (b : BacktrackingOptimizer)
    (truck : Truck) (orders : list Order) :
  (forall r, DPOptimizer_Optimize dp truck orders = Some r ->
             SelectedOrders r `sublist_of` orders)
  /\ SelectedOrders (BacktrackingOptimizer_Optimize b truck orders) `sublist_of` orders
  /\ SelectedOrders (GreedyOptimizer_Optimize g truck orders)
       `sublist_of` sortByValueDensity (FilterFeasibleOrders truck orders).
Proof.
  split; [intros r; apply DP_selected_sublist|]. split.
  - unfold BacktrackingOptimizer_Optimize, backtrack. cbn [bestOrders]. rewrite drop_0.
    transitivity (FilterFeasibleOrders truck orders); [|apply Filter_sublist].
    apply (backtrack_from_sublist (FilterFeasibleOrders truck orders));
      [apply sublist_nil_l|rewrite app_nil_l; reflexivity].
  - unfold GreedyOptimizer_Optimize. apply greedy_fold_sublist. reflexivity.
Qed.

Section greedy_takes_all.

Variable truck : Truck.
Variable all : list Order.
Hypothesis Hbound : bounded_input truck all.
Hypothesis Hfits :
  Forall (fun o => WeightLbs o <= MaxWeightLbs truck /\ VolumeCuft o <= MaxVolumeCuft truck) all.
Hypothesis Hall : feasible truck all.

Lemma greedy_fold_takes_all rest : forall acc,
  greedy_inv truck acc -> SelectedOrders acc ++ rest ⊆+ all ->
  SelectedOrders (fold_left (greedy_step NewGreedyOptimizer truck) rest acc)
  = SelectedOrders acc ++ rest.
Proof.
  induction rest as [|order rest IH]; intros acc Hinv Hsub; cbn [fold_left].
  - rewrite app_nil_r. reflexivity.
  - destruct (greedy_step_inv truck all Hbound Hfits acc order rest Hinv Hsub) as [Hinv' Hsub'].
    rewrite (IH _ Hinv' Hsub').
    assert (Hstep : SelectedOrders (greedy_step NewGreedyOptimizer truck acc order)
                    = SelectedOrders acc ++ [order]).
    { destruct Hinv as ((HP & HW & HV) & HcW & HcV & Hpw).
      destruct Hbound as (HbW & HbV & Hnn & Hsum).
      destruct Hall as (HaW & HaV & Hapw). rewrite ValidateOrderSet_pairwise in Hapw.
      assert (Hsel' : SelectedOrders acc ++ [order] ⊆+ all).
      { etransitivity; [|exact Hsub]. apply submseteq_app; [reflexivity|].
        apply submseteq_skip, submseteq_nil_l. }
      pose proof (sumWeight_submseteq _ _ Hnn Hsel') as HsW.
      pose proof (sumVolume_submseteq _ _ Hnn Hsel') as HsV.
      rewrite sumWeight_app in HsW. rewrite sumVolume_app in HsV. simpl in HsW, HsV.
      pose proof (pairwise_submseteq _ DefaultCanCombine_sym _ _ Hsel' Hapw) as Hpw'.
      rewrite (pairwise_snoc _ DefaultCanCombine_sym) in Hpw'.
      apply andb_true_iff in Hpw' as [_ Hcomp].
      assert (Hnn' : Forall order_nonneg (SelectedOrders acc ++ [order]))
        by (eapply Forall_submseteq; eassumption).
      apply Forall_app in Hnn' as [Hn1 Hn2].
      pose proof (sumWeight_nonneg _ Hn1). pose proof (sumVolume_nonneg _ Hn1).
      inversion Hn2 as [|? ? (Hp0 & Hw0 & Hv0) _]; subst.
      unfold greedy_step.
      cbn [CanFit CanCombine g_checker NewGreedyOptimizer NewConstraintChecker].
      unfold DefaultConstraintChecker.CanFit.
      rewrite HW, HV, !add64_id by int64_lia.
      destruct (Z.leb_spec (sumWeight (SelectedOrders acc) + WeightLbs order)
                  (MaxWeightLbs truck)); [|lia].
      destruct (Z.leb_spec (sumVolume (SelectedOrders acc) + VolumeCuft order)
                  (MaxVolumeCuft truck)); [|lia].
      cbn [andb negb]. rewrite Hcomp. reflexivity. }
    rewrite Hstep, <- app_assoc. reflexivity.
Qed.

End greedy_takes_all.

(** X22. When all the orders that fit the truck one by one also fit it
    together and can be combined, every solver takes them all: the greedy
    solver returns them in the order of its ranking, and the three payouts
    are the sum of their payouts. *)
Theorem X22_all_fit_together (truck : Truck) (orders : list Order) :
  bounded_input truck orders ->
  feasible truck (FilterFeasibleOrders truck orders) ->
  let total := sumPayout (FilterFeasibleOrders truck orders) in
  SelectedOrders (GreedyOptimizer_Optimize NewGreedyOptimizer truck orders)
  = sortByValueDensity (FilterFeasibleOrders truck orders)
  /\ TotalPayout (GreedyOptimizer_Optimize NewGreedyOptimizer truck orders) = total
  /\ TotalPayout (BacktrackingOptimizer_Optimize NewBacktrackingOptimizer truck orders) = total
  /\ forall r, DPOptimizer_Optimize NewDPOptimizer truck orders = Some r -> TotalPayout r = total.
Proof.
  intros Hb Hall total. pose proof (bounded_input_Filter _ _ Hb) as Hb'.
  assert (Hnn : Forall order_nonneg (FilterFeasibleOrders truck orders))
    by (destruct Hb' as (_ & _ & Hnn & _); exact Hnn).
  assert (Hsel : SelectedOrders (GreedyOptimizer_Optimize NewGreedyOptimizer truck orders)
                 = sortByValueDensity (FilterFeasibleOrders truck orders)).
  { unfold GreedyOptimizer_Optimize.
    rewrite (greedy_fold_takes_all truck (FilterFeasibleOrders truck orders) Hb'
               (Filter_fits truck orders) Hall); [reflexivity| |].
    - apply greedy_inv_empty; destruct Hb as (? & ? & _); lia.
    - simpl. rewrite sortByValueDensity_perm. reflexivity. }
  destruct (Greedy_sound truck orders Hb) as ((HgP & _) & _ & _).
  assert (Hg : TotalPayout (GreedyOptimizer_Optimize NewGreedyOptimizer truck orders) = total).
  { rewrite HgP, Hsel. apply sumPayout_perm, sortByValueDensity_perm. }
  split; [exact Hsel|]. split; [exact Hg|]. split.
  - destruct (Backtracking_sound truck orders Hb) as ((HbP & _) & _ & Hbs).
    apply Z.le_antisymm.
    + rewrite HbP. apply sumPayout_submseteq; assumption.
    + apply Backtracking_optimal; [exact Hb|reflexivity|exact Hall].
  - intros r Hr. destruct (DP_sound truck orders r Hb Hr) as ((HdP & _) & _ & Hds).
    apply Z.le_antisymm.
    + rewrite HdP. apply sumPayout_submseteq; [exact Hnn|apply sublist_submseteq, Hds].
    + apply (DP_optimal truck orders r _ Hb Hr); [reflexivity|exact Hall].
Qed.

Lemma X22_all_fit_together_witness :
  let total := sumPayout (FilterFeasibleOrders truckA ordersA) in
  SelectedOrders (GreedyOptimizer_Optimize NewGreedyOptimizer truckA ordersA)
  = sortByValueDensity (FilterFeasibleOrders truckA ordersA)
  /\ TotalPayout (GreedyOptimizer_Optimize NewGreedyOptimizer truckA ordersA) = total
  /\ TotalPayout (BacktrackingOptimizer_Optimize NewBacktrackingOptimizer truckA ordersA) = total
  /\ forall r, DPOptimizer_Optimize NewDPOptimizer truckA ordersA = Some r -> TotalPayout r = total.
Proof.
  apply (X22_all_fit_together truckA ordersA).
  - repeat split; try (vm_compute; congruence); try (simpl; lia).
    repeat constructor; simpl; lia.
  - repeat split; vm_compute; congruence.
Defined.

(** ** Package algorithm: the exact solvers *)

(** A selection that is feasible for a truck, drawn from a list of orders,
    is feasible for a truck that is at least as large, and is drawn from the
    orders that fit it in any list that extends the first. *)
Lemma selection_transfers (truck truck' : Truck) (orders' s : list Order) :
  Forall order_nonneg s ->
  MaxWeightLbs truck <= MaxWeightLbs truck' ->
  MaxVolumeCuft truck <= MaxVolumeCuft truck' ->
  s ⊆+ orders' -> feasible truck s ->
  s ⊆+ FilterFeasibleOrders truck' orders' /\ feasible truck' s.
Proof.
  intros Hnn HW HV Hsub (HfW & HfV & Hpw). split; [|repeat split; [lia|lia|exact Hpw]].
  apply submseteq_sublist_r in Hsub as (s' & Hp & Hs').
  rewrite Hp. apply sublist_submseteq, sublist_filter; [exact Hs'|].
  rewrite <- (forallb_perm _ _ _ Hp). apply forallb_forall. intros x Hx.
  pose proof (sumWeight_ge_elem s x Hnn Hx). pose proof (sumVolume_ge_elem s x Hnn Hx).
  apply negb_true_iff, orb_false_iff. split; rewrite Z.gtb_ltb; apply Z.ltb_ge; lia.
Qed.

(** X23. More orders and a larger truck never lower the payout of the exact
    solvers. *)
Theorem X23_optimum_monotone (truck truck' : Truck) (orders orders' : list Order) :
  bounded_input truck orders -> bounded_input truck' orders' ->
  orders ⊆+ orders' ->
  MaxWeightLbs truck <= MaxWeightLbs truck' ->
  MaxVolumeCuft truck <= MaxVolumeCuft truck' ->
  TotalPayout (BacktrackingOptimizer_Optimize NewBacktrackingOptimizer truck orders)
  <= TotalPayout (BacktrackingOptimizer_Optimize NewBacktrackingOptimizer truck' orders')
  /\ forall r r',
       DPOptimizer_Optimize NewDPOptimizer truck orders = Some r ->
       DPOptimizer_Optimize NewDPOptimizer truck' orders' = Some r' ->
       TotalPayout r <= TotalPayout r'.
Proof.
  intros Hb Hb' Hsub HW HV.
  assert (Hnn : Forall order_nonneg orders) by (destruct Hb as (_ & _ & Hnn & _); exact Hnn).
  split.
  - destruct (Backtracking_sound truck orders Hb) as ((HP & _) & Hf & Hs).
    rewrite HP.
    assert (Hs' : SelectedOrders (BacktrackingOptimizer_Optimize NewBacktrackingOptimizer
                                    truck orders) ⊆+ orders).
    { etransitivity; [exact Hs|]. apply sublist_submseteq, Filter_sublist. }
    destruct (selection_transfers truck truck' orders' _
                (Forall_submseteq _ _ _ Hnn Hs') HW HV
                ltac:(etransitivity; [exact Hs'|exact Hsub]) Hf) as (Ht & Hf').
    apply Backtracking_optimal; assumption.
  - intros r r' Hr Hr'.
    destruct (DP_sound truck orders r Hb Hr) as ((HP & _) & Hf & Hs).
    rewrite HP.
    assert (Hs' : SelectedOrders r ⊆+ orders).
    { apply sublist_submseteq. etransitivity; [exact Hs|apply Filter_sublist]. }
    destruct (selection_transfers truck truck' orders' _
                (Forall_submseteq _ _ _ Hnn Hs') HW HV
                ltac:(etransitivity; [exact Hs'|exact Hsub]) Hf) as (Ht & Hf').
    apply (DP_optimal truck' orders' r'); assumption.
Qed.

Lemma bounded_truckD_ordersD : bounded_input truckD ordersD.
Proof.
  repeat split; try (vm_compute; congruence); try (simpl; lia).
  repeat constructor; simpl; lia.
Qed.

Lemma bounded_truckA_ordersD : bounded_input truckA ordersD.
Proof.
  repeat split; try (vm_compute; congruence); try (simpl; lia).
  repeat constructor; simpl; lia.
Qed.

Lemma X23_optimum_monotone_witness :
  TotalPayout (BacktrackingOptimizer_Optimize NewBacktrackingOptimizer truckD (tail ordersD))
  <= TotalPayout (BacktrackingOptimizer_Optimize NewBacktrackingOptimizer truckA ordersD)
  /\ forall r r',
       DPOptimizer_Optimize NewDPOptimizer truckD (tail ordersD) = Some r ->
       DPOptimizer_Optimize NewDPOptimizer truckA ordersD = Some r' ->
       TotalPayout r <= TotalPayout r'.
Proof.
  apply (X23_optimum_monotone truckD truckA (tail ordersD) ordersD).
  - repeat split; try (vm_compute; congruence); try (simpl; lia).
    repeat constructor; simpl; lia.
  - exact bounded_truckA_ordersD.
  - apply submseteq_cons. reflexivity.
  - simpl. lia.
  - simpl. lia.
Defined.

Lemma bounded_input_perm (truck : Truck) (orders orders' : list Order) :
  orders ≡ₚ orders' -> bounded_input truck orders -> bounded_input truck orders'.
Proof.
  intros Hp (HW & HV & Hnn & Hs). repeat split; try lia.
  - rewrite <- Hp. exact Hnn.
  - rewrite <- (sumPayout_perm _ _ Hp). exact Hs.
Qed.

(** X24. The payout of the exact solvers does not depend on the order in
    which the orders are listed; on at most 22 orders both return it. *)
Theorem X24_optimum_order_independent (truck : Truck) (orders orders' : list Order) :
  bounded_input truck orders -> orders ≡ₚ orders' -> (length orders <= 22)%nat ->
  TotalPayout (BacktrackingOptimizer_Optimize NewBacktrackingOptimizer truck orders)
  = TotalPayout (BacktrackingOptimizer_Optimize NewBacktrackingOptimizer truck orders')
  /\ exists r r',
       DPOptimizer_Optimize NewDPOptimizer truck orders = Some r
       /\ DPOptimizer_Optimize NewDPOptimizer truck orders' = Some r'
       /\ TotalPayout r = TotalPayout r'.
Proof.
  intros Hb Hp Hlen. pose proof (bounded_input_perm _ _ _ Hp Hb) as Hb'.
  assert (Hnn : Forall order_nonneg orders) by (destruct Hb as (_ & _ & Hnn & _); exact Hnn).
  assert (Hnn' : Forall order_nonneg orders') by (destruct Hb' as (_ & _ & Hnn' & _); exact Hnn').
  assert (H12 : orders ⊆+ orders') by (rewrite Hp; reflexivity).
  assert (H21 : orders' ⊆+ orders) by (rewrite Hp; reflexivity).
  split.
  - apply Z.le_antisymm.
    + destruct (Backtracking_sound truck orders Hb) as ((HP & _) & Hf & Hs). rewrite HP.
      assert (Hs' : SelectedOrders (BacktrackingOptimizer_Optimize NewBacktrackingOptimizer
                                      truck orders) ⊆+ orders).
      { etransitivity; [exact Hs|]. apply sublist_submseteq, Filter_sublist. }
      destruct (selection_transfers truck truck orders' _
                  (Forall_submseteq _ _ _ Hnn Hs') ltac:(lia) ltac:(lia)
                  ltac:(etransitivity; [exact Hs'|exact H12]) Hf) as (Ht & Hf').
      apply Backtracking_optimal; assumption.
    + destruct (Backtracking_sound truck orders' Hb') as ((HP & _) & Hf & Hs). rewrite HP.
      assert (Hs' : SelectedOrders (BacktrackingOptimizer_Optimize NewBacktrackingOptimizer
                                      truck orders') ⊆+ orders').
      { etransitivity; [exact Hs|]. apply sublist_submseteq, Filter_sublist. }
      destruct (selection_transfers truck truck orders _
                  (Forall_submseteq _ _ _ Hnn' Hs') ltac:(lia) ltac:(lia)
                  ltac:(etransitivity; [exact Hs'|exact H21]) Hf) as (Ht & Hf').
      apply Backtracking_optimal; assumption.
  - destruct (DP_total NewDPOptimizer truck orders ltac:(lia)) as [r Hr].
    destruct (DP_total NewDPOptimizer truck orders'
                ltac:(rewrite <- (Permutation_length Hp); lia)) as [r' Hr'].
    exists r, r'. split; [exact Hr|]. split; [exact Hr'|].
    apply Z.le_antisymm.
    + destruct (DP_sound truck orders r Hb Hr) as ((HP & _) & Hf & Hs). rewrite HP.
      assert (Hs' : SelectedOrders r ⊆+ orders).
      { apply sublist_submseteq. etransitivity; [exact Hs|apply Filter_sublist]. }
      destruct (selection_transfers truck truck orders' _
                  (Forall_submseteq _ _ _ Hnn Hs') ltac:(lia) ltac:(lia)
                  ltac:(etransitivity; [exact Hs'|exact H12]) Hf) as (Ht & Hf').
      apply (DP_optimal truck orders' r'); assumption.
    + destruct (DP_sound truck orders' r' Hb' Hr') as ((HP & _) & Hf & Hs). rewrite HP.
      assert (Hs' : SelectedOrders r' ⊆+ orders').
      { apply sublist_submseteq. etransitivity; [exact Hs|apply Filter_sublist]. }
      destruct (selection_transfers truck truck orders _
                  (Forall_submseteq _ _ _ Hnn' Hs') ltac:(lia) ltac:(lia)
                  ltac:(etransitivity; [exact Hs'|exact H21]) Hf) as (Ht & Hf').
      apply (DP_optimal truck orders r); assumption.
Qed.

Lemma X24_optimum_order_independent_witness :
  TotalPayout (BacktrackingOptimizer_Optimize NewBacktrackingOptimizer truckD ordersD)
  = TotalPayout (BacktrackingOptimizer_Optimize NewBacktrackingOptimizer truckD (rev ordersD))
  /\ exists r r',
       DPOptimizer_Optimize NewDPOptimizer truckD ordersD = Some r
       /\ DPOptimizer_Optimize NewDPOptimizer truckD (rev ordersD) = Some r'
       /\ TotalPayout r = TotalPayout r'.
Proof.
  apply (X24_optimum_order_independent truckD ordersD (rev ordersD)).
  - exact bounded_truckD_ordersD.
  - symmetry. apply Permutation_rev.
  - simpl. lia.
Defined.

(** ** Package service: OptimizeLoad *)

Lemma feasible_perm truck s s' : s ≡ₚ s' -> feasible truck s -> feasible truck s'.
Proof.
  intros Hp (HW & HV & Hpw). unfold feasible. rewrite ValidateOrderSet_pairwise in *.
  rewrite <- (sumWeight_perm _ _ Hp), <- (sumVolume_perm _ _ Hp).
  rewrite <- (pairwise_perm _ DefaultCanCombine_sym _ _ Hp). auto.
Qed.

Lemma DP_optimal_result truck orders :
  bounded_input truck orders -> (length orders < 63)%nat ->
  exists r, DPOptimizer_Optimize NewDPOptimizer truck orders = Some r
            /\ optimal_result truck orders r.
Proof.
  intros Hb Hlen. destruct (DP_total NewDPOptimizer truck orders Hlen) as [r Hr].
  exists r. split; [exact Hr|].
  destruct (DP_sound _ _ _ Hb Hr) as (Hc & Hf & Hs).
  assert (Hs' : SelectedOrders r `sublist_of` orders)
    by (etransitivity; [exact Hs|apply Filter_sublist]).
  repeat split; try apply Hc; try apply Hf.
  - apply sublist_submseteq, Hs'.
  - exists (SelectedOrders r). repeat split; try apply Hf; [exact Hs'|].
    symmetry. apply Hc.
  - intros s Hsub Hfs. apply (DP_optimal _ _ _ _ Hb Hr); [|exact Hfs].
    apply sublist_submseteq, feasible_sublist_Filter; assumption.
Qed.

Lemma Backtracking_optimal_result truck orders :
  bounded_input truck orders ->
  optimal_result truck orders (BacktrackingOptimizer_Optimize NewBacktrackingOptimizer truck orders).
Proof.
  intros Hb. destruct (Backtracking_sound truck orders Hb) as (Hc & Hf & Hs).
  assert (Hs' : SelectedOrders (BacktrackingOptimizer_Optimize NewBacktrackingOptimizer
                                  truck orders) ⊆+ orders).
  { etransitivity; [exact Hs|]. apply sublist_submseteq, Filter_sublist. }
  repeat split; try apply Hc; try apply Hf; [exact Hs'| |].
  - destruct (proj1 (submseteq_sublist_r _ _) Hs') as (s' & Hp & Hsub).
    exists s'. split; [exact Hsub|]. split; [eapply feasible_perm; eassumption|].
    rewrite <- (sumPayout_perm _ _ Hp). symmetry. apply Hc.
  - intros s Hsub Hfs. apply (Backtracking_optimal _ _ _ Hb); [|exact Hfs].
    apply sublist_submseteq, feasible_sublist_Filter; assumption.
Qed.

Lemma Greedy_feasible_result truck orders :
  bounded_input truck orders ->
  let r := GreedyOptimizer_Optimize NewGreedyOptimizer truck orders in
  consistent r /\ feasible truck (SelectedOrders r) /\ SelectedOrders r ⊆+ orders.
Proof.
  intros Hb r. destruct (Greedy_sound truck orders Hb) as (Hc & Hf & Hs).
  repeat split; try apply Hc; try apply Hf.
  etransitivity; [exact Hs|]. apply sublist_submseteq, Filter_sublist.
Qed.

Lemma Hybrid_small truck orders :
  (length orders <= 22)%nat -> Hybrid truck orders = DP truck orders.
Proof.
  intros Hlen. unfold Hybrid, DP, HybridOptimizer_Optimize.
  cbn [maxDPSize NewHybridOptimizer dpOptimizer].
  destruct (Z.leb_spec (Z.of_nat (length orders)) 22); [reflexivity|lia].
Qed.

(** What [selectOptimizer] of the default service computes on the filtered
    orders of an accepted request. *)
Lemma selected_on_filtered (config : option OptimizationConfig) truck orders n :
  (length orders <= 22)%nat ->
  selectOptimizer NewOptimizerService config n truck (FilterFeasibleOrders truck orders)
  = match config with
    | None => DP truck orders
    | Some c =>
        if String.eqb (Algorithm c) "auto" then DP truck orders
        else if String.eqb (Algorithm c) "dp" then DP truck orders
        else if String.eqb (Algorithm c) "backtracking" then Backtracking truck orders
        else if String.eqb (Algorithm c) "greedy" then Greedy truck orders
        else DP truck orders
    end.
Proof.
  intros Hlen. pose proof (Filter_length truck orders) as Hfl.
  assert (Hh : Hybrid truck (FilterFeasibleOrders truck orders) = DP truck orders).
  { rewrite Hybrid_small by lia. apply DP_prefilter. }
  unfold selectOptimizer. cbn [optimizer NewOptimizerService].
  destruct config as [c|]; [|exact Hh].
  destruct (String.eqb (Algorithm c) "auto"); [exact Hh|].
  destruct (String.eqb (Algorithm c) "dp"); [apply DP_prefilter|].
  destruct (String.eqb (Algorithm c) "backtracking");
    [unfold Backtracking; rewrite Backtracking_prefilter; reflexivity|].
  destruct (String.eqb (Algorithm c) "greedy");
    [unfold Greedy; rewrite Greedy_prefilter; reflexivity|exact Hh].
Qed.

(** X25. On the revenue path (no configuration, or weights 1 and 0) an
    accepted request is answered with a selection of its own orders that
    fits the truck and is pairwise compatible, and with the totals of that
    selection; unless the greedy solver was asked for, the reported payout
    is the greatest any such selection can have. *)
Theorem X25_OptimizeLoad_revenue_path (r r' : OptimizeRequest) :
  Validate r = Some r' -> revenue_path (Config r') = true ->
  exists resp sel,
    OptimizeLoad NewOptimizerService r = Ok resp
    /\ sel ⊆+ Orders r
    /\ feasible (Truck_of r) sel
    /\ TruckID resp = Truck_ID (Truck_of r)
    /\ SelectedOrderIDs resp = map ID sel
    /\ domain.TotalPayoutCents resp = sumPayout sel
    /\ domain.TotalWeightLbs resp = sumWeight sel
    /\ domain.TotalVolumeCuft resp = sumVolume sel
    /\ (asks_greedy (Config r') = false ->
        is_max_payout (Truck_of r) (Orders r) (domain.TotalPayoutCents resp)).
Proof.
  intros Hv Hrev. destruct (Validate_bounded r r' Hv) as (Et & Eo & Hb & Hlen).
  unfold OptimizeLoad. rewrite Hv, Et, Eo. unfold preprocessOrders.
  set (truck := Truck_of r) in *. set (orders := Orders r) in *.
  assert (Hres : exists res,
            match Config r' with
            | Some c =>
                if negb (RevenueWeight c =? 1)%float || negb (UtilizationWeight c =? 0)%float
                then optimizeWithWeights NewOptimizerService truck
                       (FilterFeasibleOrders truck orders) (RevenueWeight c) (UtilizationWeight c)
                else selectOptimizer NewOptimizerService (Config r')
                       (length (FilterFeasibleOrders truck orders)) truck
                       (FilterFeasibleOrders truck orders)
            | None => selectOptimizer NewOptimizerService (Config r')
                        (length (FilterFeasibleOrders truck orders)) truck
                        (FilterFeasibleOrders truck orders)
            end = Some res
            /\ consistent res /\ feasible truck (SelectedOrders res)
            /\ SelectedOrders res ⊆+ orders
            /\ (asks_greedy (Config r') = false -> is_max_payout truck orders (TotalPayout res))).
  { destruct (DP_optimal_result truck orders Hb ltac:(lia)) as (rd & Hrd & Hd1 & Hd2 & Hd3 & Hd4).
    destruct (Backtracking_optimal_result truck orders Hb) as (Hb1 & Hb2 & Hb3 & Hb4).
    destruct (Greedy_feasible_result truck orders Hb) as (Hg1 & Hg2 & Hg3).
    assert (Hsel := selected_on_filtered (Config r') truck orders
                      (length (FilterFeasibleOrders truck orders)) Hlen).
    destruct (Config r') as [c|] eqn:Ec; cbn [revenue_path asks_greedy] in *.
    - apply andb_true_iff in Hrev as [-> ->]. cbn [negb orb]. rewrite Hsel.
      destruct (String.eqb (Algorithm c) "auto"); [exists rd; auto|].
      destruct (String.eqb (Algorithm c) "dp"); [exists rd; auto|].
      destruct (String.eqb (Algorithm c) "backtracking"); [eexists; split; [reflexivity|auto]|].
      destruct (String.eqb (Algorithm c) "greedy"); [|exists rd; auto].
      eexists. split; [reflexivity|].
      split; [exact Hg1|]. split; [exact Hg2|]. split; [exact Hg3|]. discriminate.
    - rewrite Hsel. exists rd. auto. }
  destruct Hres as (res & -> & (HP & HW & HV) & Hf & Hs & Hmax).
  exists (buildResponse truck res), (SelectedOrders res).
  cbn [buildResponse TruckID SelectedOrderIDs domain.TotalPayoutCents domain.TotalWeightLbs
       domain.TotalVolumeCuft].
  split; [reflexivity|]. split; [exact Hs|]. split; [exact Hf|].
  split; [reflexivity|]. split; [reflexivity|]. split; [exact HP|].
  split; [exact HW|]. split; [exact HV|]. exact Hmax.
Qed.

Lemma X25_OptimizeLoad_revenue_path_witness :
  exists resp sel,
    OptimizeLoad NewOptimizerService requestA = Ok resp
    /\ sel ⊆+ Orders requestA
    /\ feasible (Truck_of requestA) sel
    /\ TruckID resp = Truck_ID (Truck_of requestA)
    /\ SelectedOrderIDs resp = map ID sel
    /\ domain.TotalPayoutCents resp = sumPayout sel
    /\ domain.TotalWeightLbs resp = sumWeight sel
    /\ domain.TotalVolumeCuft resp = sumVolume sel
    /\ (asks_greedy (Config requestA) = false ->
        is_max_payout (Truck_of requestA) (Orders requestA) (domain.TotalPayoutCents resp)).
Proof.
  apply (X25_OptimizeLoad_revenue_path requestA requestA); vm_compute; reflexivity.
Defined.

Lemma weighted_total (truck : Truck) (orders : list Order) (rw uw : float) :
  (length orders <= 22)%nat ->
  is_Some (optimizeWithWeights NewOptimizerService truck orders rw uw).
Proof.
  intros Hlen. unfold optimizeWithWeights. cbn [optimizer NewOptimizerService].
  rewrite Hybrid_small by (rewrite length_map; exact Hlen).
  apply DP_total. rewrite length_map. lia.
Qed.

(** X26. The default service answers every request: with an error exactly
    when [Validate] rejects it, with a response for the truck of the request
    otherwise.  The panic of the bitmask solver on 63 or more orders cannot
    be reached through [OptimizeLoad], whatever algorithm the request
    names. *)
Theorem X26_OptimizeLoad_never_panics (r : OptimizeRequest) :
  match OptimizeLoad NewOptimizerService r with
  | Ok resp => exists r', Validate r = Some r' /\ TruckID resp = Truck_ID (Truck_of r)
  | Err _ => Validate r = None
  | Panic => False
  end.
Proof.
  unfold OptimizeLoad. destruct (Validate r) as [r'|] eqn:Hv; [|reflexivity].
  destruct (Validate_bounded r r' Hv) as (Et & Eo & Hb & Hlen).
  rewrite Et, Eo. unfold preprocessOrders.
  pose proof (Filter_length (Truck_of r) (Orders r)) as Hfl.
  assert (Hres : is_Some
            (match Config r' with
             | Some c =>
                 if negb (RevenueWeight c =? 1)%float || negb (UtilizationWeight c =? 0)%float
                 then optimizeWithWeights NewOptimizerService (Truck_of r)
                        (FilterFeasibleOrders (Truck_of r) (Orders r))
                        (RevenueWeight c) (UtilizationWeight c)
                 else selectOptimizer NewOptimizerService (Config r')
                        (length (FilterFeasibleOrders (Truck_of r) (Orders r))) (Truck_of r)
                        (FilterFeasibleOrders (Truck_of r) (Orders r))
             | None => selectOptimizer NewOptimizerService (Config r')
                         (length (FilterFeasibleOrders (Truck_of r) (Orders r))) (Truck_of r)
                         (FilterFeasibleOrders (Truck_of r) (Orders r))
             end)).
  { assert (Hsel : is_Some (selectOptimizer NewOptimizerService (Config r')
                     (length (FilterFeasibleOrders (Truck_of r) (Orders r))) (Truck_of r)
                     (FilterFeasibleOrders (Truck_of r) (Orders r)))).
    { rewrite selected_on_filtered by exact Hlen.
      assert (Hd : is_Some (DP (Truck_of r) (Orders r))) by (apply DP_total; lia).
      destruct (Config r') as [c|]; [|exact Hd].
      repeat (destruct (String.eqb (Algorithm c) _); [first [exact Hd|eexists; reflexivity]|]).
      exact Hd. }
    destruct (Config r') as [c|]; [|exact Hsel].
    destruct (_ || _); [apply weighted_total; lia|exact Hsel]. }
  destruct Hres as [res ->]. exists r'. split; reflexivity.
Qed.

(** X27. On the weighted path the algorithm a request names is not
    consulted: the solve is the one of the service's own optimizer, and two
    accepted requests that differ in nothing but the algorithm get the same
    answer. *)
Theorem X27_OptimizeLoad_weighted_ignores_algorithm (s : OptimizerService)
    (r1 r2 r1' r2' : OptimizeRequest) (c1 c2 : OptimizationConfig) :
  Validate r1 = Some r1' -> Validate r2 = Some r2' ->
  Truck_of r1 = Truck_of r2 -> Orders r1 = Orders r2 ->
  Config r1' = Some c1 -> Config r2' = Some c2 ->
  RevenueWeight c1 = RevenueWeight c2 -> UtilizationWeight c1 = UtilizationWeight c2 ->
  revenue_path (Some c1) = false ->
  OptimizeLoad s r1 = OptimizeLoad s r2
  /\ OptimizeLoad s r1
     = match optimizeWithWeights s (Truck_of r1)
               (FilterFeasibleOrders (Truck_of r1) (Orders r1))
               (RevenueWeight c1) (UtilizationWeight c1) with
       | Some result => Ok (buildResponse (Truck_of r1) result)
       | None => Panic
       end.
Proof.
  intros Hv1 Hv2 Et Eo Ec1 Ec2 Erw Euw Hrev.
  destruct (Validate_bounded r1 r1' Hv1) as (Et1 & Eo1 & _).
  destruct (Validate_bounded r2 r2' Hv2) as (Et2 & Eo2 & _).
  assert (Hw : negb (RevenueWeight c1 =? 1)%float || negb (UtilizationWeight c1 =? 0)%float = true).
  { cbn [revenue_path] in Hrev. apply andb_false_iff in Hrev as [-> | ->]; auto using orb_true_r. }
  assert (H1 : OptimizeLoad s r1
     = match optimizeWithWeights s (Truck_of r1)
               (FilterFeasibleOrders (Truck_of r1) (Orders r1))
               (RevenueWeight c1) (UtilizationWeight c1) with
       | Some result => Ok (buildResponse (Truck_of r1) result)
       | None => Panic
       end).
  { unfold OptimizeLoad. rewrite Hv1, Ec1, Et1, Eo1, Hw. unfold preprocessOrders. reflexivity. }
  split; [|exact H1]. rewrite H1.
  unfold OptimizeLoad. rewrite Hv2, Ec2, Et2, Eo2, <- Erw, <- Euw, Hw, <- Et, <- Eo.
  unfold preprocessOrders. reflexivity.
Qed.

Lemma X27_OptimizeLoad_weighted_ignores_algorithm_witness :
  OptimizeLoad NewOptimizerService requestW = OptimizeLoad NewOptimizerService requestG
  /\ OptimizeLoad NewOptimizerService requestW
     = match optimizeWithWeights NewOptimizerService (Truck_of requestW)
               (FilterFeasibleOrders (Truck_of requestW) (Orders requestW))
               0.5 0.5 with
       | Some result => Ok (buildResponse (Truck_of requestW) result)
       | None => Panic
       end.
Proof.
  apply (X27_OptimizeLoad_weighted_ignores_algorithm NewOptimizerService
           requestW requestG requestW' requestG'
           {| Objective := "balanced"; RevenueWeight := 0.5;
              UtilizationWeight := 0.5; Algorithm := "auto" |}
           {| Objective := "balanced"; RevenueWeight := 0.5;
              UtilizationWeight := 0.5; Algorithm := "greedy" |});
    vm_compute; reflexivity.
Defined.

(** ** Package service: the Pareto layer *)

Lemma dominates_irrefl (A : ParetoSolution) : dominates A A = false.
Proof.
  unfold dominates. rewrite !float_ltb_irrefl, Z.gtb_ltb, Z.ltb_irrefl.
  cbn [orb]. apply andb_false_r.
Qed.

Lemma dominates_trans (C B A : ParetoSolution) :
  dominates C B = true -> dominates B A = true -> dominates C A = true.
Proof.
  unfold dominates. rewrite !andb_true_iff, !orb_true_iff.
  intros (((Hp1 & Hw1) & Hv1) & Hs1) (((Hp2 & Hw2) & Hv2) & Hs2).
  apply Z.geb_le in Hp1, Hp2.
  split; [split; [split|]|].
  - apply Z.geb_le. lia.
  - eapply float_leb_trans; eassumption.
  - eapply float_leb_trans; eassumption.
  - destruct Hs1 as [[Hs|Hs]|Hs].
    + left. left. apply Z.gtb_lt in Hs. apply Z.gtb_lt. lia.
    + left. right. eapply float_leb_ltb_trans; eassumption.
    + right. eapply float_leb_ltb_trans; eassumption.
Qed.

Lemma undominated_exists (l : list ParetoSolution) :
  l <> [] -> exists x, x ∈ l /\ forall y, y ∈ l -> dominates y x = false.
Proof.
  induction l as [|a l IH]; [congruence|]. intros _.
  destruct l as [|b l'].
  - exists a. split; [left|]. intros y Hy. apply list_elem_of_singleton in Hy as ->.
    apply dominates_irrefl.
  - destruct (IH ltac:(discriminate)) as (x & Hx & Hmax).
    destruct (dominates a x) eqn:Hax.
    + exists a. split; [left|]. intros y Hy. apply elem_of_cons in Hy as [->|Hy].
      * apply dominates_irrefl.
      * destruct (dominates y a) eqn:Hya; [|reflexivity].
        rewrite <- (Hmax y Hy). symmetry. eapply dominates_trans; eassumption.
    + exists x. split; [right; exact Hx|]. intros y Hy.
      apply elem_of_cons in Hy as [->|Hy]; [exact Hax|apply Hmax, Hy].
Qed.

Lemma zip_seq_lookup {A} (l : list A) (k j : nat) (y : A) :
  zip (seq 0 (length l)) l !! k = Some (j, y) <-> k = j /\ l !! j = Some y.
Proof.
  split.
  - intros H. apply lookup_zip_with_Some in H as (x & z & [= -> ->] & Hx & Hz).
    apply lookup_seq in Hx as [-> _]. auto.
  - intros [-> Hy]. apply lookup_zip_with_Some. exists j, y.
    split; [reflexivity|]. split; [|exact Hy].
    apply lookup_seq. split; [reflexivity|]. eapply lookup_lt_Some, Hy.
Qed.

Lemma zip_seq_elem {A} (l : list A) (j : nat) (y : A) :
  In (j, y) (zip (seq 0 (length l)) l) <-> l !! j = Some y.
Proof.
  rewrite <- list_elem_of_In, list_elem_of_lookup. split.
  - intros (k & Hk). apply zip_seq_lookup in Hk. tauto.
  - intros Hy. exists j. apply zip_seq_lookup. auto.
Qed.

Lemma dominatedAt_false (l : list ParetoSolution) (i : nat) (x : ParetoSolution) :
  dominatedAt l i x = false <->
  forall j y, l !! j = Some y -> j <> i -> dominates y x = false.
Proof.
  unfold dominatedAt. split.
  - intros H j y Hy Hne. destruct (dominates y x) eqn:E; [|reflexivity].
    rewrite <- H. symmetry. apply existsb_exists. exists (j, y).
    split; [apply zip_seq_elem, Hy|]. cbn [fst snd]. rewrite E.
    destruct (Nat.eqb_spec i j); [congruence|reflexivity].
  - intros H. apply not_true_is_false. intros He.
    apply existsb_exists in He as ([j y] & Hin & Hq). cbn [fst snd] in Hq.
    apply zip_seq_elem in Hin. apply andb_true_iff in Hq as [Hne Hd].
    apply negb_true_iff, Nat.eqb_neq in Hne. rewrite (H j y Hin) in Hd by congruence.
    discriminate.
Qed.

Lemma filterParetoOptimal_elem (l : list ParetoSolution) (x : ParetoSolution) :
  x ∈ filterParetoOptimal l <-> exists i, l !! i = Some x /\ dominatedAt l i x = false.
Proof.
  unfold filterParetoOptimal. rewrite list_elem_of_In, in_map_iff. split.
  - intros ([i y] & Hy & Hin). cbn [snd] in Hy. subst y.
    apply filter_In in Hin as [Hin Hp]. cbn [fst snd] in Hp.
    apply zip_seq_elem in Hin. apply negb_true_iff in Hp. exists i. auto.
  - intros (i & Hi & Hd). exists (i, x). split; [reflexivity|].
    apply filter_In. split; [apply zip_seq_elem, Hi|]. cbn [fst snd]. rewrite Hd. reflexivity.
Qed.

Lemma filterParetoOptimal_nonempty (l : list ParetoSolution) :
  l <> [] -> filterParetoOptimal l <> [].
Proof.
  intros Hne. destruct (undominated_exists l Hne) as (x & Hx & Hmax).
  apply list_elem_of_lookup in Hx as (i & Hi).
  assert (Hin : x ∈ filterParetoOptimal l).
  { apply filterParetoOptimal_elem. exists i. split; [exact Hi|].
    apply dominatedAt_false. intros j y Hy _. apply Hmax.
    eapply list_elem_of_lookup_2, Hy. }
  intros E. rewrite E in Hin. apply not_elem_of_nil in Hin. exact Hin.
Qed.

Lemma filterParetoOptimal_sublist (l : list ParetoSolution) :
  filterParetoOptimal l `sublist_of` l.
Proof.
  unfold filterParetoOptimal.
  rewrite <- (snd_zip (seq 0 (length l)) l) at 3 by (rewrite length_seq; lia).
  apply fmap_sublist, List_filter_sublist.
Qed.

Lemma List_filter_all {A} (p : A -> bool) (l : list A) :
  (forall x, In x l -> p x = true) -> List.filter p l = l.
Proof.
  induction l as [|a l IH]; intros H; simpl; [reflexivity|].
  rewrite (H a) by (left; reflexivity). rewrite IH; [reflexivity|].
  intros x Hx. apply H. right. exact Hx.
Qed.

Lemma filterParetoOptimal_fix (l : list ParetoSolution) :
  (forall i j A B, i <> j -> l !! i = Some A -> l !! j = Some B -> dominates A B = false) ->
  filterParetoOptimal l = l.
Proof.
  intros H. unfold filterParetoOptimal. rewrite List_filter_all.
  - apply (snd_zip (seq 0 (length l)) l). rewrite length_seq. lia.
  - intros [i x] Hin. apply zip_seq_elem in Hin. cbn [fst snd].
    apply negb_true_iff, dominatedAt_false. intros j y Hy Hne. apply (H j i y x); auto.
Qed.

(** X28. The dominance filter keeps solutions in their order, returns the
    empty list only for the empty list, and filtering twice changes
    nothing. *)
Theorem X28_filterParetoOptimal_core (solutions : list ParetoSolution) :
  filterParetoOptimal solutions `sublist_of` solutions
  /\ (filterParetoOptimal solutions = [] <-> solutions = [])
  /\ filterParetoOptimal (filterParetoOptimal solutions) = filterParetoOptimal solutions.
Proof.
  split; [apply filterParetoOptimal_sublist|]. split.
  - split; [|intros ->; reflexivity].
    intros E. destruct solutions as [|a l]; [reflexivity|].
    exfalso. apply (filterParetoOptimal_nonempty (a :: l)); [discriminate|exact E].
  - apply filterParetoOptimal_fix. intros i j A B Hij Hi Hj.
    eapply filterParetoOptimal_no_domination; eassumption.
Qed.

Lemma solveAll_from_length s truck orders (ws : list (float * float)) : forall l,
  solveAll_from s truck orders ws = Some l -> length l = length ws.
Proof.
  induction ws as [|w ws IH]; intros l H; cbn [solveAll_from] in H.
  - injection H as <-. reflexivity.
  - destruct (optimizeWithWeights _ _ _ _ _); [|discriminate].
    destruct (solveAll_from s truck orders ws) as [rest|]; [|discriminate].
    injection H as <-. simpl. rewrite (IH rest eq_refl). reflexivity.
Qed.

Lemma dedupByKey_props (l : list ((float * float) * OptimizationResult)) : forall seen,
  (length (dedupByKey seen l) <= length l)%nat
  /\ NoDup (map (fun wr => solutionKey (snd wr)) (dedupByKey seen l))
  /\ Forall (fun wr => solutionKey (snd wr) ∉ seen) (dedupByKey seen l)
  /\ dedupByKey seen l `sublist_of` l.
Proof.
  induction l as [|wr l IH]; intros seen; cbn [dedupByKey].
  - split; [reflexivity|]. split; [constructor|]. split; constructor.
  - destruct (bool_decide (solutionKey (snd wr) ∈ seen)) eqn:Hs.
    + destruct (IH seen) as (Hlen & Hnd & Hfresh & Hsub).
      repeat split; [simpl; lia|exact Hnd|exact Hfresh|apply sublist_cons, Hsub].
    + apply bool_decide_eq_false in Hs.
      destruct (IH ({[solutionKey (snd wr)]} ∪ seen)) as (Hlen & Hnd & Hfresh & Hsub).
      rewrite Forall_forall in Hfresh.
      repeat split.
      * simpl. lia.
      * cbn [map]. apply NoDup_cons. split; [|exact Hnd].
        intros Hin. apply list_elem_of_fmap in Hin as (x & Hx & Hin).
        apply (Hfresh x Hin). rewrite <- Hx. apply elem_of_union. left.
        apply elem_of_singleton. reflexivity.
      * constructor; [exact Hs|]. apply Forall_forall. intros x Hx Hin.
        apply (Hfresh x Hx), elem_of_union. right. exact Hin.
      * apply sublist_skip, Hsub.
Qed.

Lemma dedupByKey_nonempty (l : list ((float * float) * OptimizationResult)) :
  l <> [] -> dedupByKey ∅ l <> [].
Proof.
  destruct l as [|wr l]; [congruence|]. intros _. cbn [dedupByKey].
  rewrite bool_decide_eq_false_2 by apply not_elem_of_empty. discriminate.
Qed.

Lemma candidateSolutions_ids truck (l : list ((float * float) * OptimizationResult)) :
  NoDup (map OrderIDs (candidateSolutions truck l)).
Proof.
  destruct (dedupByKey_props l ∅) as (_ & Hnd & _).
  unfold candidateSolutions.
  apply (NoDup_fmap_1 joinKey). change (map OrderIDs ?x) with (OrderIDs <$> x).
  rewrite <- !list_fmap_compose.
  erewrite list_fmap_ext; [exact Hnd|].
  intros i [w r] _. cbn [compose mkParetoSolution OrderIDs fst snd].
  rewrite solutionKey_joinKey. reflexivity.
Qed.

(** X29. With a maximum count of 5 or more (the HTTP handler passes 5) the
    loop over the five weight vectors never leaves early: the list returned
    is the dominance filter of all candidates, one for every distinct key of
    selected ids. *)
Theorem X29_GetPareto_five_no_truncation (s : OptimizerService) (truck : Truck)
    (orders : list Order) (maxSolutions : Z)
    (l : list ((float * float) * OptimizationResult)) :
  solveAll s truck orders = Some l -> 5 <= maxSolutions ->
  GetParetoOptimalSolutions s truck orders maxSolutions
  = Some (filterParetoOptimal
            (map (fun wr => mkParetoSolution truck (fst wr) (snd wr)) (dedupByKey ∅ l))).
Proof.
  intros Hl Hmax. rewrite (GetPareto_candidates s truck orders maxSolutions l Hl).
  destruct (dedupByKey_props l ∅) as (Hlen & _).
  pose proof (solveAll_from_length _ _ _ _ _ Hl) as Hl5. cbn [weights length] in Hl5.
  rewrite take_ge; [reflexivity|].
  unfold candidateSolutions. rewrite length_map. lia.
Qed.

Lemma X29_GetPareto_five_no_truncation_witness :
  GetParetoOptimalSolutions NewOptimizerService truckD ordersQ 5
  = Some (filterParetoOptimal
            (map (fun wr => mkParetoSolution truckD (fst wr) (snd wr))
               (dedupByKey ∅ (default [] (solveAll NewOptimizerService truckD ordersQ))))).
Proof.
  apply (X29_GetPareto_five_no_truncation NewOptimizerService truckD ordersQ 5
           (default [] (solveAll NewOptimizerService truckD ordersQ))).
  - vm_compute. reflexivity.
  - lia.
Defined.

(** X30. On at most 22 orders the default service returns between one and
    five solutions, no more than the maximum count allows (one, if that
    count is below 1); no two of them list the same order ids, and each
    lists ids of the given orders in their order. *)
Theorem X30_GetPareto_shape (truck : Truck) (orders : list Order) (maxSolutions : Z) :
  (length orders <= 22)%nat ->
  exists sols,
    GetParetoOptimalSolutions NewOptimizerService truck orders maxSolutions = Some sols
    /\ (1 <= length sols <= 5)%nat
    /\ Z.of_nat (length sols) <= Z.max 1 maxSolutions
    /\ NoDup (map OrderIDs sols)
    /\ Forall (fun sol => OrderIDs sol `sublist_of` map ID orders) sols.
Proof.
  intros Hlen. destruct (solveAll_default truck orders weights Hlen) as (l & Hl & Hall).
  fold (solveAll NewOptimizerService truck orders) in Hl.
  rewrite (GetPareto_candidates _ _ _ maxSolutions l Hl).
  set (cands := take (Z.to_nat (Z.max 1 maxSolutions)) (candidateSolutions truck l)).
  exists (filterParetoOptimal cands). split; [reflexivity|].
  pose proof (solveAll_from_length _ _ _ _ _ Hl) as Hl5. cbn [weights length] in Hl5.
  destruct (dedupByKey_props l ∅) as (Hdl & _ & _ & Hdsub).
  assert (Hcl : (length (candidateSolutions truck l) <= 5)%nat)
    by (unfold candidateSolutions; rewrite length_map; lia).
  assert (Hcne : cands <> []).
  { unfold cands, candidateSolutions.
    destruct (dedupByKey ∅ l) as [|wr d] eqn:Ed.
    - exfalso. apply (dedupByKey_nonempty l); [|exact Ed]. destruct l; [discriminate|discriminate].
    - destruct (Z.to_nat (Z.max 1 maxSolutions)) as [|k] eqn:Ek; [lia|]. discriminate. }
  assert (Hsub : filterParetoOptimal cands `sublist_of` cands)
    by apply filterParetoOptimal_sublist.
  assert (Hcsub : cands `sublist_of` candidateSolutions truck l) by apply sublist_take.
  pose proof (sublist_length _ _ Hsub) as Hlen1.
  assert (Hclen : (length cands <= Z.to_nat (Z.max 1 maxSolutions))%nat /\ (length cands <= 5)%nat).
  { unfold cands. rewrite length_take. lia. }
  split; [|split; [|split]].
  - split; [|lia]. destruct (filterParetoOptimal cands) eqn:E; [|simpl; lia].
    exfalso. apply (filterParetoOptimal_nonempty cands Hcne E).
  - lia.
  - apply (sublist_NoDup _ (map OrderIDs (candidateSolutions truck l)));
      [apply candidateSolutions_ids|].
    apply fmap_sublist. etransitivity; eassumption.
  - apply (Forall_submseteq _ _ (candidateSolutions truck l));
      [|apply sublist_submseteq; etransitivity; eassumption].
    unfold candidateSolutions. apply Forall_fmap.
    apply (Forall_submseteq _ _ l); [|apply sublist_submseteq, Hdsub].
    eapply Forall_impl; [exact Hall|]. intros [w r] H. exact H.
Qed.

Lemma X30_GetPareto_shape_witness :
  exists sols,
    GetParetoOptimalSolutions NewOptimizerService truckD ordersQ 5 = Some sols
    /\ (1 <= length sols <= 5)%nat
    /\ Z.of_nat (length sols) <= Z.max 1 5
    /\ NoDup (map OrderIDs sols)
    /\ Forall (fun sol => OrderIDs sol `sublist_of` map ID ordersQ) sols.
Proof. apply (X30_GetPareto_shape truckD ordersQ 5). simpl. lia. Defined.
